(** * A shallow embedding of [diskimage_builder/graph/digraph.py]

    The module implements a directed graph with weighted edges: nodes are
    mutable objects holding a name and two edge lists kept sorted with
    [bisect.insort]; a [Digraph] object maps names to nodes and offers
    construction from an adjacency dictionary, export to one, and a
    depth-first topological sort.

    Python objects are mutable and compared by identity, so the embedding
    keeps an explicit store: a [Node] or [Digraph] value is the content of
    an object, a reference is its address in the store.  Methods are
    computations in a state-and-exception monad over that store. *)

From stdpp Require Import base numbers list strings sorting relations.
From Equations Require Import Equations.

Local Open Scope Z_scope.
Local Open Scope nat_scope.

(** ** Objects *)

(** The address of a [Node] object.  [==] on nodes is identity (the class
    defines no [__eq__]), hence equality of addresses. *)
Abbreviation ref := nat (only parsing).

(** The address of a [Digraph] object. *)
Abbreviation gref := nat (only parsing).

(** [Digraph.Edge]: the pointed-to node and the weight. *)
Record Edge := mkEdge { get_node : ref; get_weight : Z }.

(** [Digraph.Node]: the fields [__name], [__incoming], [__outgoing]. *)
Record Node := mkNode {
  get_name : string;
  incoming : list Edge;
  outgoing : list Edge
}.

(** [Digraph]: the dictionary [_named_nodes], in iteration (insertion)
    order. *)
Record Digraph := mkDigraph { named_nodes : list (string * ref) }.

(** The store: every [Node] and every [Digraph] object allocated so far. *)
Record World := mkWorld { nodes : list Node; graphs : list Digraph }.

Global Instance Edge_eq_dec : EqDecision Edge.
Proof. solve_decision. Defined.

Global Instance Node_eq_dec : EqDecision Node.
Proof. solve_decision. Defined.

(** ** Exceptions and the monad *)

(** The exceptions the module can raise.  [DanglingRef] is not a Python
    exception: it is the trap of the model for an address with no object
    behind it, which a Python program cannot produce. *)
Inductive exn :=
| RuntimeError (msg : string)
| AssertionError
| IndexError
| KeyError
| RecursionError
| DanglingRef.

Inductive outcome (A : Type) :=
| Val (a : A)
| Exn (e : exn).
Arguments Val {A} a.
Arguments Exn {A} e.

Definition M (A : Type) : Type := World → outcome A * World.

Global Instance M_ret : MRet M := λ A a w, (Val a, w).

Global Instance M_bind : MBind M := λ A B k m w,
  match m w with
  | (Val a, w') => k a w'
  | (Exn e, w') => (Exn e, w')
  end.

Definition raise {A} (e : exn) : M A := λ w, (Exn e, w).

Definition get_world : M World := λ w, (Val w, w).

Definition assert (b : bool) : M unit :=
  if b then mret () else raise AssertionError.

Definition lift_index {A} (o : option A) : M A :=
  match o with
  | Some a => mret a
  | None => raise IndexError
  end.

(** A loop that threads a local variable [s] through its body. *)
Fixpoint foldM {A S} (body : S → A → M S) (l : list A) (s : S) : M S :=
  match l with
  | [] => mret s
  | x :: l' => s' ← body s x; foldM body l' s'
  end.

(** A list comprehension [[f x for x in l]]. *)
Fixpoint mapM {A B} (f : A → M B) (l : list A) : M (list B) :=
  match l with
  | [] => mret []
  | x :: l' => y ← f x; ys ← mapM f l'; mret (y :: ys)
  end.

(** [for x in l: body x] *)
Fixpoint for_each {A} (l : list A) (body : A → M unit) : M unit :=
  match l with
  | [] => mret ()
  | x :: l' => body x;; for_each l' body
  end.

(** Reading and writing the fields of the object behind an address. *)
Definition deref (r : ref) : M Node := λ w,
  match nodes w !! r with
  | Some n => (Val n, w)
  | None => (Exn DanglingRef, w)
  end.

Definition store (r : ref) (n : Node) : M unit := λ w,
  (Val (), mkWorld (<[r := n]> (nodes w)) (graphs w)).

Definition deref_graph (g : gref) : M Digraph := λ w,
  match graphs w !! g with
  | Some d => (Val d, w)
  | None => (Exn DanglingRef, w)
  end.

Definition store_graph (g : gref) (d : Digraph) : M unit := λ w,
  (Val (), mkWorld (nodes w) (<[g := d]> (graphs w))).

(** ** [bisect.insort] on edges *)

(** [Edge.__lt__]: edges compare by weight only. *)
Definition Edge_lt (x y : Edge) : bool :=
  bool_decide (get_weight x < get_weight y)%Z.

(** [Edge.__eq__]: equal weight and the same node object. *)
Definition Edge_eq (x y : Edge) : bool :=
  bool_decide (get_weight x = get_weight y) && bool_decide (get_node x = get_node y).

(** The loop of [bisect.bisect_right(a, x, lo, hi)]:
<<
    while lo < hi:
        mid = (lo + hi) // 2
        if x < a[mid]: hi = mid
        else: lo = mid + 1
    return lo
>>
    [None] is the [IndexError] of [a[mid]]. *)
Equations? bisect_right (a : list Edge) (x : Edge) (lo hi : nat) : option nat
  by wf (hi - lo) lt :=
  bisect_right a x lo hi with decide (lo < hi) => {
    | right _ := Some lo
    | left _ with a !! ((lo + hi) / 2) => {
        | None := None
        | Some e with Edge_lt x e => {
            | true := bisect_right a x lo ((lo + hi) / 2)
            | false := bisect_right a x ((lo + hi) / 2 + 1) hi } } }.
Proof.
  all: change (Nat.divmod (lo + hi) 1 0 1).1 with ((lo + hi) / 2).
  - assert ((lo + hi) / 2 < hi) by (apply Nat.Div0.div_lt_upper_bound; lia). lia.
  - assert (lo ≤ (lo + hi) / 2) by (apply Nat.div_le_lower_bound; lia). lia.
Qed.

(** [list.insert(i, x)]: an index past the end appends. *)
Definition list_insert_at {A} (i : nat) (x : A) (l : list A) : list A :=
  take i l ++ x :: drop i l.

(** [bisect.insort(a, x)], that is [insort_right]: the new list. *)
Definition insort (a : list Edge) (x : Edge) : option (list Edge) :=
  lo ← bisect_right a x 0 (length a);
  Some (list_insert_at lo x a).

(** ** Dictionaries keyed by name, in insertion order *)

Section dict.
Context {V : Type}.

(** [d[k]], [None] when [k not in d]. *)
Fixpoint dict_get (d : list (string * V)) (k : string) : option V :=
  match d with
  | [] => None
  | (k', v) :: d' => if decide (k' = k) then Some v else dict_get d' k
  end.

(** [d[k] = v]: an existing key keeps its place, a new one goes last. *)
Fixpoint dict_set (d : list (string * V)) (k : string) (v : V) : list (string * V) :=
  match d with
  | [] => [(k, v)]
  | (k', v') :: d' =>
      if decide (k' = k) then (k', v) :: d' else (k', v') :: dict_set d' k v
  end.

Definition dict_keys (d : list (string * V)) : list string := d.*1.
Definition dict_values (d : list (string * V)) : list V := d.*2.
End dict.

(** ** [Digraph.Node] *)

(** What a method can hand back to its caller, where the distinction
    matters: a boolean, or a list object of edges. *)
Inductive pyval :=
| PyBool (b : bool)
| PyEdgeList (l : list Edge).

(** Truth value testing, as in [if v:]. *)
Definition truthy (v : pyval) : bool :=
  match v with
  | PyBool b => b
  | PyEdgeList l => bool_decide (l ≠ [])
  end.

(** [Node(name)]: a new object with two empty lists. *)
Definition new_node (name : string) : M ref := λ w,
  (Val (length (nodes w)),
   mkWorld (nodes w ++ [mkNode name [] []]) (graphs w)).

Definition node_name (self : ref) : M string :=
  n ← deref self; mret (get_name n).

Definition add_incoming (self node : ref) (weight : Z) : M unit :=
  n ← deref self;
  l ← lift_index (insort (incoming n) (mkEdge node weight));
  store self (mkNode (get_name n) l (outgoing n)).

Definition add_outgoing (self node : ref) (weight : Z) : M unit :=
  n ← deref self;
  l ← lift_index (insort (outgoing n) (mkEdge node weight));
  store self (mkNode (get_name n) (incoming n) l).

Definition get_iter_outgoing (self : ref) : M (list ref) :=
  n ← deref self; mret (get_node <$> outgoing n).

(** [return self.__incoming]: the list object itself. *)
Definition has_incoming (self : ref) : M pyval :=
  n ← deref self; mret (PyEdgeList (incoming n)).

Definition as_named_list (inlist : list Edge) : M (list string) :=
  mapM (λ x, node_name (get_node x)) inlist.

Definition get_outgoing_as_named_list (self : ref) : M (list string) :=
  n ← deref self; as_named_list (outgoing n).

(** ** [Digraph] *)

(** [Digraph()] *)
Definition new_digraph : M gref := λ w,
  (Val (length (graphs w)),
   mkWorld (nodes w) (graphs w ++ [mkDigraph []])).

Definition find (self : gref) (name : string) : M (option ref) :=
  g ← deref_graph self;
  mret (dict_get (named_nodes g) name).

Definition already_exists (name : string) : exn :=
  RuntimeError ("Node with name [" +:+ name +:+ "] already exists").

Definition add_node (self : gref) (anode : ref) : M unit :=
  g ← deref_graph self;
  for_each (dict_values (named_nodes g)) (λ node,
    nn ← node_name node;
    an ← node_name anode;
    if decide (nn = an) then raise (already_exists nn) else mret ());;
  an ← node_name anode;
  g ← deref_graph self;
  store_graph self (mkDigraph (dict_set (named_nodes g) an anode)).

(** [self._named_nodes[name]] *)
Definition named_nodes_item (self : gref) (name : string) : M ref :=
  g ← deref_graph self;
  match dict_get (named_nodes g) name with
  | Some r => mret r
  | None => raise KeyError
  end.

Definition named_nodes_has_key (self : gref) (name : string) : M bool :=
  g ← deref_graph self;
  mret (bool_decide (name ∈ dict_keys (named_nodes g))).

(** The two [issubclass] assertions hold of every node reference; the
    caller that may pass [None] is [create_from_dict], which see. *)
Definition create_edge (self : gref) (anode bnode : ref) (weight : Z) : M unit :=
  an ← node_name anode;
  ka ← named_nodes_has_key self an;
  assert ka;;
  an ← node_name anode;
  ra ← named_nodes_item self an;
  assert (bool_decide (anode = ra));;
  bn ← node_name bnode;
  kb ← named_nodes_has_key self bn;
  assert kb;;
  bn ← node_name bnode;
  rb ← named_nodes_item self bn;
  assert (bool_decide (bnode = rb));;
  add_outgoing anode bnode weight;;
  add_incoming bnode anode weight.

Definition not_specified (name : string) : exn :=
  RuntimeError ("Node '" +:+ name +:+ "' is referenced but not specified").

(** [node_gen_func] is the node constructor, [Node] by default. *)
Definition create_from_dict (self : gref)
    (init_dgraph : list (string * list string))
    (node_gen_func : string → M ref) : M unit :=
  for_each (dict_keys init_dgraph) (λ node_name,
    named_node ← node_gen_func node_name;
    add_node self named_node);;
  for_each init_dgraph (λ '(node_name, outs),
    node_from ← find self node_name;
    for_each outs (λ onode,
      node_to ← find self onode;
      match node_to with
      | None => raise (not_specified onode)
      | Some b =>
          match node_from with
          | None => raise AssertionError
          | Some a => create_edge self a b 0
          end
      end)).

Definition get_iter_nodes_values (self : gref) : M (list ref) :=
  g ← deref_graph self; mret (dict_values (named_nodes g)).

Definition as_dict (self : gref) : M (list (string * list string)) :=
  vs ← get_iter_nodes_values self;
  foldM (λ rval node,
    k ← node_name node;
    v ← get_outgoing_as_named_list node;
    mret (dict_set rval k v)) vs [].

(** The local function [visit] of [topological_sort]; [st] is the pair of
    the local lists [visited] and [tsort].  [depth] bounds the depth of the
    recursion. *)
Fixpoint visit (depth : nat) (node : ref) (st : list ref * list ref)
    : M (list ref * list ref) :=
  match depth with
  | 0 => raise RecursionError
  | S depth' =>
      if bool_decide (node ∈ st.1) then mret st
      else
        outs ← get_iter_outgoing node;
        st' ← foldM (λ s onode, visit depth' onode s) outs (st.1 ++ [node], st.2);
        mret (st'.1, node :: st'.2)
  end.

(** The recursion of [visit] is never deeper than the number of node
    objects (lemma [visit_depth_enough] below), so this budget is never
    used up; the interpreter's own limit on the call depth is a resource
    bound outside the model. *)
Definition topological_sort (self : gref) : M (list ref) :=
  w ← get_world;
  vs ← get_iter_nodes_values self;
  st ← foldM (λ s node,
    b ← has_incoming node;
    if truthy b then mret s
    else visit (S (length (nodes w))) node s) vs ([], []);
  mret st.2.

(** ** Utility functions *)

Definition digraph_create_from_dict
    (init_dgraph : list (string * list string))
    (node_gen_func : string → M ref) : M gref :=
  digraph ← new_digraph;
  create_from_dict digraph init_dgraph node_gen_func;;
  mret digraph.

Definition node_list_to_node_name_list (node_list : list ref) : M (list string) :=
  foldM (λ node_name_list node,
    k ← node_name node;
    mret (node_name_list ++ [k])) node_list [].

(** ** The examples of the documentation *)

Definition empty_world : World := mkWorld [] [].

Definition sorted_names (m : list (string * list string)) : M (list string) :=
  g ← digraph_create_from_dict m new_node;
  l ← topological_sort g;
  node_list_to_node_name_list l.

(** * The vocabulary of the properties *)

Definition weight_le (x y : Edge) : Prop := (get_weight x ≤ get_weight y)%Z.

Global Instance weight_le_dec x y : Decision (weight_le x y).
Proof. unfold weight_le. apply _. Defined.

(** A list of edges in ascending order of weight. *)
Definition weight_sorted (l : list Edge) : Prop := StronglySorted weight_le l.

(** The world in which the graph of an adjacency dictionary has been built
    from nothing. *)
Definition world_of (m : list (string * list string)) : World :=
  (digraph_create_from_dict m new_node empty_world).2.

(** The node behind [r] has at least one incoming edge. *)
Definition node_has_incoming (w : World) (r : ref) : Prop :=
  ∃ n, nodes w !! r = Some n ∧ incoming n ≠ [].

(** The two assertions on one endpoint of [create_edge]. *)
Definition check_endpoint (self : gref) (anode : ref) : M unit :=
  an ← node_name anode;
  ka ← named_nodes_has_key self an;
  assert ka;;
  an ← node_name anode;
  ra ← named_nodes_item self an;
  assert (bool_decide (anode = ra)).

(** Two nodes that were created and never registered in the graph. *)
Definition loose_nodes_world : World :=
  ((new_digraph;; new_node "A";; new_node "B") empty_world).2.

(** Some node registered in [d] has the name [k]. *)
Definition name_taken (w : World) (d : Digraph) (k : string) : Prop :=
  ∃ r n, r ∈ dict_values (named_nodes d) ∧ nodes w !! r = Some n ∧ get_name n = k.

(** Every key of the dictionary is the name of the node stored under it. *)
Definition keyed_by_name (w : World) (d : Digraph) : Prop :=
  ∀ k r, (k, r) ∈ named_nodes d → ∃ n, nodes w !! r = Some n ∧ get_name n = k.

(** What a successful [add_node] leaves behind. *)
Definition registered_world (w : World) (g : gref) (d : Digraph) (k : string) (a : ref) : World :=
  mkWorld (nodes w) (<[g := mkDigraph (dict_set (named_nodes d) k a)]> (graphs w)).

(** A graph holding a node named [A], and a second, parallel node object
    of the same name that is not in the graph. *)
Definition parallel_nodes_world : World :=
  ((g ← new_digraph; a ← new_node "A"; add_node g a;; new_node "A") empty_world).2.

(** How [create_edge(a, b, weight)] changes the node [n] at address [r]
    into [n']: the edge to [b] is sorted into the outgoing list of [a] and
    the edge back to [a] into the incoming list of [b]. *)
Definition linked (a b : ref) (weight : Z) (r : ref) (n n' : Node) : Prop :=
  get_name n' = get_name n ∧
  (if decide (r = a)
   then insort (outgoing n) (mkEdge b weight) = Some (outgoing n')
   else outgoing n' = outgoing n) ∧
  (if decide (r = b)
   then insort (incoming n) (mkEdge a weight) = Some (incoming n')
   else incoming n' = incoming n).

Definition linked_world (a b : ref) (weight : Z) (w w' : World) : Prop :=
  graphs w' = graphs w ∧
  length (nodes w') = length (nodes w) ∧
  ∀ r n, nodes w !! r = Some n →
         ∃ n', nodes w' !! r = Some n' ∧ linked a b weight r n n'.

(** The names of the nodes a list of edges points to. *)
Definition names_in (w : World) (es : list Edge) : list string :=
  omap (λ e, get_name <$> nodes w !! get_node e) es.

Definition outgoing_of (w : World) (r : ref) : list Edge :=
  default [] (outgoing <$> nodes w !! r).

(** The entry of the exported dictionary for one entry of [_named_nodes]. *)
Definition export_entry (w : World) (kr : string * ref) : string * list string :=
  (kr.1, names_in w (outgoing_of w kr.2)).

(** Every outgoing edge of a registered node points to a node object. *)
Definition exportable (w : World) (d : Digraph) : Prop :=
  ∀ k r n, (k, r) ∈ named_nodes d → nodes w !! r = Some n →
           Forall (λ e, is_Some (nodes w !! get_node e)) (outgoing n).

(** A graph with the two registered nodes [A] and [B] and no edge. *)
Definition two_nodes_world : World := world_of [("A", []); ("B", [])].

(** What a caller can do to build graphs. *)
Inductive op :=
| OpDigraph
| OpNode (name : string)
| OpAddNode (g : gref) (a : ref)
| OpCreateEdge (g : gref) (a b : ref) (weight : Z).

Definition run_op (o : op) : M unit :=
  match o with
  | OpDigraph => new_digraph;; mret ()
  | OpNode name => new_node name;; mret ()
  | OpAddNode g a => add_node g a
  | OpCreateEdge g a b weight => create_edge g a b weight
  end.

(** The edges of the calls of [create_edge] that returned, oldest first. *)
Definition logged (o : op) : list (ref * ref * Z) :=
  match o with
  | OpCreateEdge _ a b weight => [(a, b, weight)]
  | _ => []
  end.

(** A sequence of calls.  A call that raises is left behind by its caller,
    and the sequence goes on in the store as the call left it. *)
Fixpoint run_ops (ops : list op) (w : World) (log : list (ref * ref * Z))
    : World * list (ref * ref * Z) :=
  match ops with
  | [] => (w, log)
  | o :: ops' =>
      match run_op o w with
      | (Val _, w') => run_ops ops' w' (log ++ logged o)
      | (Exn _, w') => run_ops ops' w' log
      end
  end.

(** The edges out of [r] and into [r], in the order of their insertion. *)
Definition out_history (log : list (ref * ref * Z)) (r : ref) : list Edge :=
  omap (λ '(a, b, weight), if decide (a = r) then Some (mkEdge b weight) else None) log.

Definition in_history (log : list (ref * ref * Z)) (r : ref) : list Edge :=
  omap (λ '(a, b, weight), if decide (b = r) then Some (mkEdge a weight) else None) log.

(** The edges of weight [z] in a list, in the order of the list. *)
Definition of_weight (z : Z) (l : list Edge) : list Edge :=
  filter (λ e, get_weight e = z) l.

(** The invariant of the store along a sequence of calls. *)
Definition sorted_stable (w : World) (log : list (ref * ref * Z)) : Prop :=
  (∀ a b weight, (a, b, weight) ∈ log →
     a < length (nodes w) ∧ b < length (nodes w)) ∧
  ∀ r n, nodes w !! r = Some n →
    weight_sorted (outgoing n) ∧ weight_sorted (incoming n) ∧
    ∀ z, of_weight z (outgoing n) = of_weight z (out_history log r) ∧
         of_weight z (incoming n) = of_weight z (in_history log r).

(** Computations that leave the node objects alone. *)
Definition keeps_nodes {A} (m : M A) : Prop := ∀ w, nodes (m w).2 = nodes w.

(** Three edges out of node 0, inserted with the weights 5, 0 and 5. *)
Definition weighted_ops : list op :=
  [OpDigraph; OpNode "A"; OpNode "B"; OpNode "C";
   OpAddNode 0 0; OpAddNode 0 1; OpAddNode 0 2;
   OpCreateEdge 0 0 1 5; OpCreateEdge 0 0 2 0; OpCreateEdge 0 0 2 5].

(** The loop [for onode in node.get_iter_outgoing(): visit(onode)]. *)
Definition visit_all (depth : nat) (outs : list nat) (st : list nat * list nat)
    : M (list nat * list nat) :=
  foldM (λ s onode, visit depth onode s) outs st.

(** How a call of [visit] changes the two lists: the finished nodes [new]
    go to the front of [tsort], and [visited] gains the same nodes. *)
Definition grown (st st' : list nat * list nat) : Prop :=
  ∃ new, st'.2 = new ++ st.2 ∧ st'.1 ≡ₚ new ++ st.1 ∧
         (NoDup st.1 → NoDup st'.1).

(** The finished nodes are among the visited ones and none is there
    twice. *)
Definition tsort_ok (st : list nat * list nat) : Prop :=
  NoDup st.1 ∧ NoDup st.2 ∧ ∀ x, x ∈ st.2 → x ∈ st.1.

(** The node objects that are not yet in [visited]. *)
Definition unvisited (w : World) (V : list nat) : nat :=
  length (filter (λ r, r ∉ V) (seq 0 (length (nodes w)))).

(** A set of node objects that no outgoing edge leaves. *)
Definition closed_under_edges (w : World) (S : nat → Prop) : Prop :=
  ∀ r, S r → ∃ n, nodes w !! r = Some n ∧ Forall (λ e, S (get_node e)) (outgoing n).

(** Every registered node and every target of an edge is a node object. *)
Definition world_closed (w : World) (d : Digraph) : Prop :=
  Forall (λ r, r < length (nodes w)) (dict_values (named_nodes d)) ∧
  ∀ r n, nodes w !! r = Some n →
         Forall (λ e, get_node e < length (nodes w)) (outgoing n).

(** Two roots that reach the same node, which has two paths to a fourth. *)
Definition shared_world : World :=
  Eval vm_compute in
  world_of [("A", ["C"]); ("B", ["C"]); ("C", ["D"; "E"]); ("D", ["E"]); ("E", [])].

(** The graph of the node objects: [v] is the target of an outgoing edge
    of [u]. *)
Definition succ (w : World) (u v : nat) : Prop :=
  ∃ n, nodes w !! u = Some n ∧ v ∈ get_node <$> outgoing n.

(** A list in which no node occurs twice and every node stands before all
    its successors, which are all in the list. *)
Inductive topo_ok (E : relation nat) : list nat → Prop :=
| topo_nil : topo_ok E []
| topo_cons u l :
    topo_ok E l → u ∉ l → (∀ v, E u v → v ∈ l) → topo_ok E (u :: l).

(** [u] occurs in [l] and [v] occurs behind it. *)
Definition before {A} (l : list A) (u v : A) : Prop :=
  ∃ l1 l2 l3, l = l1 ++ u :: l2 ++ v :: l3.

(** No cycle passes through a node that can be reached from [node]. *)
Definition acyclic_from (w : World) (node : nat) : Prop :=
  ∀ x, rtc (succ w) node x → ¬ tc (succ w) x x.

(** What a visit of [node] needs of the two lists: the nodes that are
    visited and not finished are on the way to [node]. *)
Definition on_the_way (w : World) (st : list nat * list nat) (node : nat) : Prop :=
  ∀ p, p ∈ st.1 → p ∉ st.2 → tc (succ w) p node.

(** The visit has finished what it started. *)
Definition same_in_progress (st st' : list nat * list nat) : Prop :=
  ∀ p, p ∈ st'.1 → p ∉ st'.2 → p ∈ st.1 ∧ p ∉ st.2.

(** The edges of an adjacency dictionary, in the order in which the second
    run creates them. *)
Definition edges_of (m : list (string * list string)) : list (string * string) :=
  m ≫= λ '(k, outs), (λ t, (k, t)) <$> outs.

(** The targets of the edges out of [a] and the sources of the edges into
    [b], in the order of the edges. *)
Definition heads_from (es : list (string * string)) (a : string) : list string :=
  omap (λ '(s, t), if decide (s = a) then Some t else None) es.

Definition tails_into (es : list (string * string)) (b : string) : list string :=
  omap (λ '(s, t), if decide (t = b) then Some s else None) es.

(** The node registered under a name. *)
Definition ref_of (d : list (string * nat)) (k : string) : nat :=
  default 0 (dict_get d k).

Definition zero_edge (d : list (string * nat)) (k : string) : Edge :=
  mkEdge (ref_of d k) 0.

(** The store after the edges [es] have been created between the nodes
    registered in [d]: every registered node holds its edges of [es], in
    their order, all of weight 0. *)
Definition built (w : World) (d : list (string * nat)) (es : list (string * string)) : Prop :=
  ∀ k r, (k, r) ∈ d →
    nodes w !! r = Some (mkNode k (zero_edge d <$> tails_into es k)
                                  (zero_edge d <$> heads_from es k)).

Definition declared (m : list (string * list string)) : Prop :=
  ∀ k outs t, (k, outs) ∈ m → t ∈ outs → t ∈ dict_keys m.

(** The second run changes no graph object and no node object outside
    the graph it builds. *)
Definition extends (d : list (string * nat)) (w w' : World) : Prop :=
  graphs w' = graphs w ∧ length (nodes w') = length (nodes w) ∧
  ∀ r n, nodes w !! r = Some n → r ∉ dict_values d → nodes w' !! r = Some n.

(** The body of the inner loop of the second run. *)
Definition link_target (self : nat) (node_from : option nat) (onode : string) : M unit :=
  node_to ← find self onode;
  match node_to with
  | None => raise (not_specified onode)
  | Some b =>
      match node_from with
      | None => raise AssertionError
      | Some a => create_edge self a b 0
      end
  end.

Definition link_entry (self : nat) (entry : string * list string) : M unit :=
  node_from ← find self entry.1;
  for_each entry.2 (link_target self node_from).

(** [create_from_dict(g.as_dict()).as_dict() == g.as_dict()], both sides
    evaluated from left to right. *)
Definition round_trip (g : nat)
    : M (list (string * list string) * list (string * list string)) :=
  exported ← as_dict g;
  g' ← digraph_create_from_dict exported new_node;
  lhs ← as_dict g';
  rhs ← as_dict g;
  mret (lhs, rhs).

(** Some adjacency list of [m] names a target that is not a key of [m]. *)
Definition undeclared (m : list (string * list string)) : Prop :=
  Exists (λ entry, Exists (λ t, t ∉ dict_keys m) entry.2) m.

(** The first run of [digraph_create_from_dict]: the new graph object and a
    registered node for every key. *)
Definition first_run (m : list (string * list string)) : M nat :=
  digraph ← new_digraph;
  for_each (dict_keys m) (λ node_name,
    named_node ← new_node node_name;
    add_node digraph named_node);;
  mret digraph.

(** The name of the node object at an address. *)
Definition name_at (w : World) (r : nat) : string :=
  default "" (get_name <$> nodes w !! r).

(** The edges of the dictionary as a relation on names. *)
Definition name_edge (m : list (string * list string)) (a b : string) : Prop :=
  (a, b) ∈ edges_of m.

Definition acyclic (m : list (string * list string)) : Prop :=
  ∀ k, ¬ tc (name_edge m) k k.

(** Every key can be reached from a key that no edge points to. *)
Definition rooted (m : list (string * list string)) : Prop :=
  ∀ k, k ∈ dict_keys m →
    ∃ r, r ∈ dict_keys m ∧ (∀ s, ¬ name_edge m s r) ∧ rtc (name_edge m) r k.

(** [{A: [B], B: [C], C: []}] *)
Definition chain : list (string * list string) :=
  [("A", ["B"]); ("B", ["C"]); ("C", [])].

(** Computations that leave the whole store as it was, whether they return
    or raise. *)
Definition read_only {A} (m : M A) : Prop := ∀ w, (m w).2 = w.

(** One registered node [A] and a node [B] that is in no graph. *)
Definition one_registered_world : World :=
  Eval vm_compute in
  ((g ← new_digraph; a ← new_node "A"; add_node g a;; new_node "B") empty_world).2.

(** A graph in good order: no name twice, every node filed under its own
    name, and every reference leading to a node object. *)
Definition graph_ok (w : World) (d : Digraph) : Prop :=
  NoDup (dict_keys (named_nodes d)) ∧ keyed_by_name w d ∧ world_closed w d.

Definition store_ok (w : World) : Prop :=
  ∀ g d, graphs w !! g = Some d → graph_ok w d.

(** A graph with the nodes [A], [B], [C], the edges [A → B] of weight 5,
    [A → C] of weight 0 and [B → C] of weight 1, and a node [D] outside. *)
Definition diamond_ops : list op :=
  [OpDigraph; OpNode "A"; OpNode "B"; OpNode "C"; OpNode "D";
   OpAddNode 0 0; OpAddNode 0 1; OpAddNode 0 2;
   OpCreateEdge 0 0 1 5; OpCreateEdge 0 0 2 0; OpCreateEdge 0 1 2 1;
   OpCreateEdge 0 3 0 0].

Definition diamond_world : World :=
  Eval vm_compute in (run_ops diamond_ops empty_world []).1.

Definition diamond_log : list (nat * nat * Z) :=
  Eval vm_compute in (run_ops diamond_ops empty_world []).2.

(** The edges of all nodes lead to node objects. *)
Definition edges_closed (w : World) : Prop :=
  ∀ r n, nodes w !! r = Some n →
         Forall (λ e, get_node e < length (nodes w)) (outgoing n).

(** A registered node without incoming edge, where the sort starts a
    visit. *)
Definition is_root (w : World) (d : Digraph) (r : nat) : Prop :=
  r ∈ dict_values (named_nodes d) ∧ ∃ n, nodes w !! r = Some n ∧ incoming n = [].

(** The nodes that can be reached from a root along outgoing edges. *)
Definition reach (w : World) (d : Digraph) (x : nat) : Prop :=
  ∃ r, is_root w d r ∧ rtc (succ w) r x.

(** Every successor of a finished node has been visited. *)
Definition covered (w : World) (st : list nat * list nat) : Prop :=
  ∀ x y, x ∈ st.2 → succ w x y → y ∈ st.1.

(** Every visited node is finished, as it is between two visits of the
    main loop. *)
Definition all_finished (st : list nat * list nat) : Prop :=
  ∀ p, p ∈ st.1 → p ∈ st.2.

(** The store follows the log of the created edges: every node holds the
    edges that the log gives it, in some order. *)
Definition tracked (w : World) (log : list (nat * nat * Z)) : Prop :=
  (∀ a b weight, (a, b, weight) ∈ log →
     a < length (nodes w) ∧ b < length (nodes w)) ∧
  ∀ r n, nodes w !! r = Some n →
    outgoing n ≡ₚ out_history log r ∧ incoming n ≡ₚ in_history log r.

(** The store in which [create_from_dict] is called on a new graph. *)
Definition one_graph_world : World := Eval vm_compute in (new_digraph empty_world).2.

(** A dictionary whose first adjacency list names the undeclared [X]
    between two declared targets. *)
Definition gap_dict : list (string * list string) :=
  [("A", ["B"; "X"; "C"]); ("B", []); ("C", [])].

(** Every outgoing edge of a registered node leads to a node that is
    registered in the same graph. *)
Definition edges_inside (w : World) (d : Digraph) : Prop :=
  ∀ k r n, (k, r) ∈ named_nodes d → nodes w !! r = Some n →
    Forall (λ e, get_node e ∈ dict_values (named_nodes d)) (outgoing n).

(** * Properties *)

(** The chain of the documentation sorts as documented. *)
Example tsort_chain :
  (sorted_names [("A", ["B"]); ("B", ["C"]); ("C", [])] empty_world).1
  = Val ["A"; "B"; "C"].
Proof. vm_compute. reflexivity. Qed.

(** ** Binary search and sorted insertion *)

Lemma mid_bounds lo hi : lo < hi → lo ≤ (lo + hi) / 2 < hi.
Proof.
  intros H. split.
  - apply Nat.div_le_lower_bound; lia.
  - apply Nat.Div0.div_lt_upper_bound; lia.
Qed.

(** The search stays inside [lo, hi] and never indexes out of range. *)
Lemma bisect_right_bounds a x lo hi :
  lo ≤ hi → hi ≤ length a →
  ∃ i, bisect_right a x lo hi = Some i ∧ lo ≤ i ≤ hi.
Proof.
  funelim (bisect_right a x lo hi); intros Hle Hlen.
  - exists lo. split; [done | lia].
  - destruct (mid_bounds lo hi) as [? ?]; [done |].
    apply lookup_ge_None in Heq. lia.
  - destruct (mid_bounds lo hi) as [? ?]; [done |].
    destruct H as (i & -> & ?); [lia | lia |].
    exists i. split; [done | lia].
  - destruct (mid_bounds lo hi) as [? ?]; [done |].
    destruct H as (i & -> & ?); [lia | lia |].
    exists i. split; [done | lia].
Qed.

Lemma weight_sorted_lookup l i j e1 e2 :
  weight_sorted l → i ≤ j → l !! i = Some e1 → l !! j = Some e2 →
  weight_le e1 e2.
Proof.
  intros Hs. revert i j. induction Hs as [| a l Hs IH Hall]; intros i j Hij H1 H2.
  - by rewrite lookup_nil in H1.
  - destruct i as [| i]; simpl in H1.
    + injection H1 as ->. destruct j as [| j]; simpl in H2.
      * injection H2 as ->. unfold weight_le. lia.
      * rewrite Forall_lookup in Hall. by eapply Hall.
    + destruct j as [| j]; [lia |]. simpl in H2. eapply IH; [| done | done]. lia.
Qed.

(** On a sorted list the search finds the place behind the last edge that
    is not heavier than [x]. *)
Lemma bisect_right_sorted a x lo hi :
  weight_sorted a → lo ≤ hi → hi ≤ length a →
  (∀ j e, j < lo → a !! j = Some e → weight_le e x) →
  (∀ j e, hi ≤ j → a !! j = Some e → (get_weight x < get_weight e)%Z) →
  ∃ i, bisect_right a x lo hi = Some i ∧ i ≤ length a ∧
       (∀ j e, j < i → a !! j = Some e → weight_le e x) ∧
       (∀ j e, i ≤ j → a !! j = Some e → (get_weight x < get_weight e)%Z).
Proof.
  funelim (bisect_right a x lo hi); intros Hs Hle Hlen Hlow Hhigh.
  - exists lo. split; [done |]. split; [lia |]. split; [done |].
    intros j e' ? ?. apply (Hhigh j); [lia | done].
  - destruct (mid_bounds lo hi) as [? ?]; [done |].
    apply lookup_ge_None in Heq. lia.
  - destruct (mid_bounds lo hi) as [? ?]; [done |].
    unfold Edge_lt in Heq. apply bool_decide_eq_true in Heq.
    apply H; [done | lia | lia | done |].
    intros j e' Hj He'.
    assert (weight_le e e') as Hw by (eapply weight_sorted_lookup; [done | | done | done]; lia).
    unfold weight_le in Hw. lia.
  - destruct (mid_bounds lo hi) as [? ?]; [done |].
    unfold Edge_lt in Heq. apply bool_decide_eq_false in Heq.
    apply H; [done | lia | lia | | done].
    intros j e' Hj He'.
    assert (weight_le e' e) as Hw by (eapply weight_sorted_lookup; [done | | done | done]; lia).
    unfold weight_le in *. lia.
Qed.

(** [insort] never raises: it puts [x] somewhere into [a]. *)
Lemma insort_total a x :
  ∃ i, i ≤ length a ∧ insort a x = Some (take i a ++ x :: drop i a).
Proof.
  destruct (bisect_right_bounds a x 0 (length a)) as (i & Hi & ?); [lia | lia |].
  exists i. split; [lia |]. unfold insort. by rewrite Hi.
Qed.

(** On a sorted list [insort] splits the list behind the edges that are
    not heavier than [x] and puts [x] there. *)
Lemma insort_sorted a x :
  weight_sorted a →
  ∃ l1 l2, a = l1 ++ l2 ∧ insort a x = Some (l1 ++ x :: l2) ∧
           Forall (λ e, weight_le e x) l1 ∧
           Forall (λ e, get_weight x < get_weight e)%Z l2.
Proof.
  intros Hs.
  destruct (bisect_right_sorted a x 0 (length a)) as (i & Hi & Hlen & Hlow & Hhigh);
    [done | lia | lia | lia | |].
  { intros j e Hj He. apply lookup_lt_Some in He. lia. }
  exists (take i a), (drop i a). split; [by rewrite take_drop |].
  split; [unfold insort; by rewrite Hi |]. split.
  - apply Forall_lookup. intros j e He.
    apply lookup_take_Some in He as [He Hj]. eauto.
  - apply Forall_lookup. intros j e He.
    rewrite lookup_drop in He. eapply Hhigh; [| done]. lia.
Qed.

Lemma insort_keeps_sorted a x l :
  weight_sorted a → insort a x = Some l → weight_sorted l.
Proof.
  intros Hs Hl. destruct (insort_sorted a x Hs) as (l1 & l2 & -> & Hi & H1 & H2).
  rewrite Hi in Hl. injection Hl as <-.
  apply StronglySorted_app in Hs as (H12 & Hs1 & Hs2).
  apply StronglySorted_app. split; [| split; [done |]].
  - intros e1 e2 He1 He2. apply elem_of_cons in He2 as [-> | He2].
    + rewrite Forall_forall in H1. auto.
    + auto.
  - apply StronglySorted_cons. split; [| done].
    eapply Forall_impl; [done |]. unfold weight_le. simpl. intros. lia.
Qed.

(** ** Running computations *)

Lemma bind_run {A B} (m : M A) (k : A → M B) w :
  (m ≫= k) w =
  match m w with
  | (Val a, w') => k a w'
  | (Exn e, w') => (Exn e, w')
  end.
Proof. reflexivity. Qed.

Lemma bind_val {A B} (m : M A) (k : A → M B) w a w' :
  m w = (Val a, w') → (m ≫= k) w = k a w'.
Proof. intros H. by rewrite bind_run, H. Qed.

Lemma bind_exn {A B} (m : M A) (k : A → M B) w e w' :
  m w = (Exn e, w') → (m ≫= k) w = (Exn e, w').
Proof. intros H. by rewrite bind_run, H. Qed.

Lemma foldM_cons {A S} (body : S → A → M S) x l s w :
  foldM body (x :: l) s w = (s' ← body s x; foldM body l s') w.
Proof. reflexivity. Qed.

Lemma ret_run {A} (a : A) w : (mret a : M A) w = (Val a, w).
Proof. reflexivity. Qed.

Lemma deref_run w r n : nodes w !! r = Some n → deref r w = (Val n, w).
Proof. intros H. unfold deref. by rewrite H. Qed.

Lemma deref_graph_run w g d :
  graphs w !! g = Some d → deref_graph g w = (Val d, w).
Proof. intros H. unfold deref_graph. by rewrite H. Qed.

Lemma node_name_run w r n :
  nodes w !! r = Some n → node_name r w = (Val (get_name n), w).
Proof. intros H. unfold node_name. by rewrite (bind_val _ _ _ _ _ (deref_run _ _ _ H)). Qed.

Lemma has_incoming_run w r n :
  nodes w !! r = Some n → has_incoming r w = (Val (PyEdgeList (incoming n)), w).
Proof. intros H. unfold has_incoming. by rewrite (bind_val _ _ _ _ _ (deref_run _ _ _ H)). Qed.

Lemma get_iter_outgoing_run w r n :
  nodes w !! r = Some n →
  get_iter_outgoing r w = (Val (get_node <$> outgoing n), w).
Proof. intros H. unfold get_iter_outgoing. by rewrite (bind_val _ _ _ _ _ (deref_run _ _ _ H)). Qed.

Lemma find_run w g d name :
  graphs w !! g = Some d →
  find g name w = (Val (dict_get (named_nodes d) name), w).
Proof. intros H. unfold find. by rewrite (bind_val _ _ _ _ _ (deref_graph_run _ _ _ H)). Qed.

Lemma get_iter_nodes_values_run w g d :
  graphs w !! g = Some d →
  get_iter_nodes_values g w = (Val (dict_values (named_nodes d)), w).
Proof.
  intros H. unfold get_iter_nodes_values.
  by rewrite (bind_val _ _ _ _ _ (deref_graph_run _ _ _ H)).
Qed.

(** ** Dictionaries *)

Lemma dict_get_Some_elem {V} (d : list (string * V)) k v :
  dict_get d k = Some v → (k, v) ∈ d.
Proof.
  induction d as [| [k' v'] d IH]; simpl; [done |].
  destruct (decide (k' = k)) as [-> |].
  - intros [= ->]. apply elem_of_cons. by left.
  - intros H. apply elem_of_cons. right. auto.
Qed.

Lemma dict_get_is_Some {V} (d : list (string * V)) k :
  is_Some (dict_get d k) ↔ k ∈ dict_keys d.
Proof.
  unfold dict_keys. induction d as [| [k' v'] d IH]; simpl.
  - split; [by intros [? ?] | by intros ?%elem_of_nil].
  - destruct (decide (k' = k)) as [-> |].
    + split; [intros _; apply elem_of_cons; by left | by eauto].
    + rewrite IH, elem_of_cons. split; [by right | by intros [-> | ?]].
Qed.

Lemma dict_get_None {V} (d : list (string * V)) k :
  dict_get d k = None ↔ k ∉ dict_keys d.
Proof. rewrite <- dict_get_is_Some, eq_None_not_Some. done. Qed.

Lemma dict_get_NoDup {V} (d : list (string * V)) k v :
  NoDup (dict_keys d) → (k, v) ∈ d → dict_get d k = Some v.
Proof.
  unfold dict_keys. induction d as [| [k' v'] d IH]; simpl.
  - by intros _ ?%elem_of_nil.
  - intros [Hk Hnd]%NoDup_cons [[= -> ->] | Hin]%elem_of_cons.
    + by rewrite decide_True.
    + rewrite decide_False; [auto |].
      intros ->. apply Hk. apply list_elem_of_fmap. by exists (k, v).
Qed.

Lemma dict_set_fresh {V} (d : list (string * V)) k v :
  k ∉ dict_keys d → dict_set d k v = d ++ [(k, v)].
Proof.
  unfold dict_keys. induction d as [| [k' v'] d IH]; simpl; [done |].
  intros Hk. apply not_elem_of_cons in Hk as [? ?].
  rewrite decide_False by done. by rewrite IH.
Qed.

(** ** [has_incoming] *)

(** C8, evaluated on the graph of [{A: [B], B: []}]: for node [B], which
    has the incoming edge from [A], [has_incoming] returns the incoming
    list itself, a list of one edge and not the boolean [True]; for node
    [A], which has no incoming edge, it returns the empty list and not the
    boolean [False].  Both results have the right truth value. *)
Theorem has_incoming_returns_the_list :
  let w := world_of [("A", ["B"]); ("B", [])] in
  (has_incoming 1 w).1 = Val (PyEdgeList [mkEdge 0 0]) ∧
  (has_incoming 1 w).1 ≠ Val (PyBool true) ∧
  (has_incoming 0 w).1 = Val (PyEdgeList []) ∧
  (has_incoming 0 w).1 ≠ Val (PyBool false) ∧
  truthy (PyEdgeList [mkEdge 0 0]) = true ∧
  truthy (PyEdgeList []) = false.
Proof. vm_compute. repeat split; congruence. Qed.

(** ** [topological_sort] on a graph without roots *)

Lemma skip_all_nodes w d0 (vs : list ref) (s : list ref * list ref) :
  Forall (node_has_incoming w) vs →
  foldM (λ s node,
    b ← has_incoming node;
    if truthy b then mret s
    else visit d0 node s) vs s w = (Val s, w).
Proof.
  induction 1 as [| r vs (n & Hn & Hinc) _ IH]; simpl; [done |].
  rewrite bind_run, bind_run, (has_incoming_run _ _ _ Hn). simpl.
  rewrite bool_decide_eq_true_2 by done. simpl. apply IH.
Qed.

(** C2: when every node registered in the graph has an incoming edge, the
    sort raises nothing and returns the empty list. *)
Theorem topological_sort_no_root w g d :
  graphs w !! g = Some d →
  Forall (node_has_incoming w) (dict_values (named_nodes d)) →
  topological_sort g w = (Val [], w).
Proof.
  intros Hg Hall. unfold topological_sort.
  rewrite (bind_val get_world _ w w w eq_refl).
  rewrite (bind_val _ _ _ _ _ (get_iter_nodes_values_run _ _ _ Hg)).
  by rewrite (bind_val _ _ _ _ _ (skip_all_nodes _ _ _ _ Hall)).
Qed.

(** The graph of [{A: [B], B: [A]}] is such a graph. *)
Lemma topological_sort_no_root_witness :
  let w := world_of [("A", ["B"]); ("B", ["A"])] in
  topological_sort 0 w = (Val [], w).
Proof.
  intros w.
  apply (topological_sort_no_root w 0
           (mkDigraph [("A", 0); ("B", 1)])); [reflexivity |].
  repeat constructor; eexists; (split; [reflexivity | done]).
Defined.

(** ** [create_edge]: the assertions *)

Lemma named_nodes_has_key_run w g d k :
  graphs w !! g = Some d →
  named_nodes_has_key g k w
  = (Val (bool_decide (k ∈ dict_keys (named_nodes d))), w).
Proof.
  intros H. unfold named_nodes_has_key.
  by rewrite (bind_val _ _ _ _ _ (deref_graph_run _ _ _ H)).
Qed.

Lemma named_nodes_item_run w g d k r :
  graphs w !! g = Some d → dict_get (named_nodes d) k = Some r →
  named_nodes_item g k w = (Val r, w).
Proof.
  intros H Hk. unfold named_nodes_item.
  rewrite (bind_val _ _ _ _ _ (deref_graph_run _ _ _ H)). by rewrite Hk.
Qed.

Lemma bind_assoc {A B C} (m : M A) (k : A → M B) (k' : B → M C) w :
  ((m ≫= k) ≫= k') w = (m ≫= λ x, k x ≫= k') w.
Proof. rewrite !bind_run. by destruct (m w) as [[? | ?] ?]. Qed.

Lemma bind_ext {A B} (m : M A) (k1 k2 : A → M B) w :
  (∀ a w', k1 a w' = k2 a w') → (m ≫= k1) w = (m ≫= k2) w.
Proof. intros H. rewrite !bind_run. by destruct (m w) as [[? | ?] ?]. Qed.

(** Reassociates the binds on both sides of an equation of computations. *)
Ltac bind_normalize :=
  repeat first
    [ reflexivity
    | rewrite bind_assoc
    | apply bind_ext; intros ? ?; cbv beta ].

Lemma create_edge_unfold self anode bnode weight w :
  create_edge self anode bnode weight w
  = (check_endpoint self anode;;
     check_endpoint self bnode;;
     add_outgoing anode bnode weight;;
     add_incoming bnode anode weight) w.
Proof. unfold create_edge, check_endpoint. bind_normalize. Qed.

Lemma check_endpoint_ok w g d a na :
  graphs w !! g = Some d → nodes w !! a = Some na →
  dict_get (named_nodes d) (get_name na) = Some a →
  check_endpoint g a w = (Val (), w).
Proof.
  intros Hg Ha Hd. unfold check_endpoint.
  rewrite (bind_val _ _ _ _ _ (node_name_run _ _ _ Ha)).
  rewrite (bind_val _ _ _ _ _ (named_nodes_has_key_run _ _ _ _ Hg)).
  rewrite bool_decide_eq_true_2 by (apply dict_get_is_Some; eauto).
  simpl. rewrite bind_run. simpl.
  rewrite (bind_val _ _ _ _ _ (node_name_run _ _ _ Ha)).
  rewrite (bind_val _ _ _ _ _ (named_nodes_item_run _ _ _ _ _ Hg Hd)).
  by rewrite bool_decide_eq_true_2.
Qed.

Lemma check_endpoint_fail w g d a na :
  graphs w !! g = Some d → nodes w !! a = Some na →
  dict_get (named_nodes d) (get_name na) ≠ Some a →
  check_endpoint g a w = (Exn AssertionError, w).
Proof.
  intros Hg Ha Hd. unfold check_endpoint.
  rewrite (bind_val _ _ _ _ _ (node_name_run _ _ _ Ha)).
  rewrite (bind_val _ _ _ _ _ (named_nodes_has_key_run _ _ _ _ Hg)).
  destruct (dict_get (named_nodes d) (get_name na)) as [r |] eqn:Hr.
  - rewrite bool_decide_eq_true_2 by (apply dict_get_is_Some; eauto).
    simpl. rewrite bind_run. simpl.
    rewrite (bind_val _ _ _ _ _ (node_name_run _ _ _ Ha)).
    rewrite (bind_val _ _ _ _ _ (named_nodes_item_run _ _ _ _ _ Hg Hr)).
    rewrite bool_decide_eq_false_2; [done |]. congruence.
  - rewrite bool_decide_eq_false_2; [done |]. by apply dict_get_None.
Qed.

(** C5: when an endpoint is not the node object stored in the graph under
    its own name (no node is stored under that name, or another object
    is), [create_edge] fails on an assertion and leaves the whole store,
    hence every edge list, as it was. *)
Theorem create_edge_fails_unchanged w g d a b weight na nb :
  graphs w !! g = Some d →
  nodes w !! a = Some na → nodes w !! b = Some nb →
  dict_get (named_nodes d) (get_name na) ≠ Some a ∨
  dict_get (named_nodes d) (get_name nb) ≠ Some b →
  create_edge g a b weight w = (Exn AssertionError, w).
Proof.
  intros Hg Ha Hb Hbad. rewrite create_edge_unfold.
  destruct (decide (dict_get (named_nodes d) (get_name na) = Some a)) as [Hda | Hda].
  - destruct Hbad as [? | Hdb]; [done |].
    rewrite (bind_val _ _ _ _ _ (check_endpoint_ok _ _ _ _ _ Hg Ha Hda)).
    by rewrite (bind_exn _ _ _ _ _ (check_endpoint_fail _ _ _ _ _ Hg Hb Hdb)).
  - by rewrite (bind_exn _ _ _ _ _ (check_endpoint_fail _ _ _ _ _ Hg Ha Hda)).
Qed.

Lemma create_edge_fails_unchanged_witness :
  create_edge 0 0 1 0 loose_nodes_world = (Exn AssertionError, loose_nodes_world).
Proof.
  apply (create_edge_fails_unchanged loose_nodes_world 0 (mkDigraph []) 0 1 0
           (mkNode "A" [] []) (mkNode "B" [] [])); [reflexivity .. |].
  left. simpl. congruence.
Defined.

(** ** [add_node] *)

Lemma add_node_loop_ok w a na (vs : list ref) :
  nodes w !! a = Some na →
  Forall (λ r, ∃ n, nodes w !! r = Some n ∧ get_name n ≠ get_name na) vs →
  for_each vs (λ node,
    nn ← node_name node;
    an ← node_name a;
    if decide (nn = an) then raise (already_exists nn) else mret ()) w
  = (Val (), w).
Proof.
  intros Ha. induction 1 as [| r vs (n & Hn & Hne) _ IH]; simpl; [done |].
  rewrite bind_assoc, (bind_val _ _ _ _ _ (node_name_run _ _ _ Hn)).
  rewrite bind_assoc, (bind_val _ _ _ _ _ (node_name_run _ _ _ Ha)).
  rewrite decide_False by done. rewrite bind_run. simpl. apply IH.
Qed.

Lemma add_node_loop_dup w a na (vs : list ref) :
  nodes w !! a = Some na →
  Forall (λ r, is_Some (nodes w !! r)) vs →
  (∃ r n, r ∈ vs ∧ nodes w !! r = Some n ∧ get_name n = get_name na) →
  for_each vs (λ node,
    nn ← node_name node;
    an ← node_name a;
    if decide (nn = an) then raise (already_exists nn) else mret ()) w
  = (Exn (already_exists (get_name na)), w).
Proof.
  intros Ha. induction 1 as [| r vs [n Hn] _ IH]; intros (r' & n' & Hin & Hn' & Heq).
  - by apply elem_of_nil in Hin.
  - simpl.
    rewrite bind_assoc, (bind_val _ _ _ _ _ (node_name_run _ _ _ Hn)).
    rewrite bind_assoc, (bind_val _ _ _ _ _ (node_name_run _ _ _ Ha)).
    destruct (decide (get_name n = get_name na)) as [-> | Hne]; [done |].
    rewrite bind_run. simpl. apply IH.
    apply elem_of_cons in Hin as [-> | Hin]; [congruence | eauto].
Qed.

Lemma name_taken_dec w d k :
  Forall (λ r, is_Some (nodes w !! r)) (dict_values (named_nodes d)) →
  name_taken w d k ∨
  Forall (λ r, ∃ n, nodes w !! r = Some n ∧ get_name n ≠ k) (dict_values (named_nodes d)).
Proof.
  unfold name_taken. induction 1 as [| r vs [n Hn] _ IH].
  - right. constructor.
  - destruct (decide (get_name n = k)) as [Heq | Hne].
    + left. exists r, n. split; [apply elem_of_cons; by left | done].
    + destruct IH as [(r' & n' & ? & ? & ?) | IH].
      * left. exists r', n'. split; [apply elem_of_cons; by right | done].
      * right. constructor; eauto.
Qed.

Lemma name_taken_key w d k :
  keyed_by_name w d → (name_taken w d k ↔ k ∈ dict_keys (named_nodes d)).
Proof.
  intros Hk. unfold name_taken, dict_keys, dict_values. split.
  - intros (r & n & Hr & Hn & <-).
    apply list_elem_of_fmap in Hr as ([k' r'] & -> & Hin). simpl in Hn.
    destruct (Hk _ _ Hin) as (n' & Hn' & <-).
    assert (n' = n) as -> by congruence.
    apply list_elem_of_fmap. by exists (get_name n, r').
  - intros ([k' r] & -> & Hin)%list_elem_of_fmap.
    destruct (Hk _ _ Hin) as (n & Hn & Hkn).
    exists r, n. split; [| done]. apply list_elem_of_fmap. by exists (k', r).
Qed.

Lemma add_node_taken w g d a na :
  graphs w !! g = Some d → nodes w !! a = Some na →
  Forall (λ r, is_Some (nodes w !! r)) (dict_values (named_nodes d)) →
  name_taken w d (get_name na) →
  add_node g a w = (Exn (already_exists (get_name na)), w).
Proof.
  intros Hg Ha Hvalid Hdup. unfold add_node.
  rewrite (bind_val _ _ _ _ _ (deref_graph_run _ _ _ Hg)).
  by rewrite (bind_exn _ _ _ _ _ (add_node_loop_dup _ _ _ _ Ha Hvalid Hdup)).
Qed.

Lemma add_node_free w g d a na :
  graphs w !! g = Some d → nodes w !! a = Some na →
  Forall (λ r, is_Some (nodes w !! r)) (dict_values (named_nodes d)) →
  ¬ name_taken w d (get_name na) →
  add_node g a w = (Val (), registered_world w g d (get_name na) a).
Proof.
  intros Hg Ha Hvalid Hfree.
  destruct (name_taken_dec w d (get_name na) Hvalid) as [? | Hall]; [done |].
  unfold add_node.
  rewrite (bind_val _ _ _ _ _ (deref_graph_run _ _ _ Hg)).
  rewrite (bind_val _ _ _ _ _ (add_node_loop_ok _ _ _ _ Ha Hall)).
  rewrite (bind_val _ _ _ _ _ (node_name_run _ _ _ Ha)).
  by rewrite (bind_val _ _ _ _ _ (deref_graph_run _ _ _ Hg)).
Qed.

(** C4: [add_node] raises exactly when a registered node has the name of
    the new node, whichever object the new node is; the store is then
    unchanged, so every [find] answers as before, and [find] at that name
    still answers with a registered node of that name. *)
Theorem add_node_duplicate w g d a na :
  graphs w !! g = Some d → nodes w !! a = Some na →
  Forall (λ r, is_Some (nodes w !! r)) (dict_values (named_nodes d)) →
  (name_taken w d (get_name na) →
     add_node g a w = (Exn (already_exists (get_name na)), w)) ∧
  (¬ name_taken w d (get_name na) →
     add_node g a w = (Val (), registered_world w g d (get_name na) a)) ∧
  (keyed_by_name w d → name_taken w d (get_name na) →
     ∃ r n, find g (get_name na) (add_node g a w).2
            = (Val (Some r), w) ∧
            r ∈ dict_values (named_nodes d) ∧
            nodes w !! r = Some n ∧ get_name n = get_name na).
Proof.
  intros Hg Ha Hvalid.
  split; [by apply add_node_taken |]. split; [by apply add_node_free |].
  intros Hk Hdup. rewrite (add_node_taken _ _ _ _ _ Hg Ha Hvalid Hdup). simpl.
  pose proof Hdup as Hkey. apply (name_taken_key _ _ _ Hk) in Hkey.
  apply dict_get_is_Some in Hkey as [r Hr].
  destruct (Hk _ _ (dict_get_Some_elem _ _ _ Hr)) as (n & Hn & Hname).
  exists r, n. rewrite (find_run _ _ _ _ Hg), Hr.
  split; [done |]. split; [| done].
  apply list_elem_of_fmap. exists (get_name na, r).
  split; [done |]. by apply dict_get_Some_elem.
Qed.

Lemma add_node_duplicate_witness :
  add_node 0 1 parallel_nodes_world
  = (Exn (already_exists "A"), parallel_nodes_world) ∧
  find 0 "A" parallel_nodes_world = (Val (Some 0), parallel_nodes_world).
Proof.
  pose proof (add_node_duplicate parallel_nodes_world 0 (mkDigraph [("A", 0)]) 1
                (mkNode "A" [] []) eq_refl eq_refl) as H.
  destruct H as (Hfail & _ & _).
  { repeat constructor. by eexists. }
  split; [| reflexivity].
  apply Hfail. exists 0, (mkNode "A" [] []).
  split; [| done]. apply elem_of_cons. by left.
Defined.

(** ** [create_edge]: the two insertions *)

Lemma add_outgoing_run w a b weight na l :
  nodes w !! a = Some na →
  insort (outgoing na) (mkEdge b weight) = Some l →
  add_outgoing a b weight w
  = (Val (), mkWorld (<[a := mkNode (get_name na) (incoming na) l]> (nodes w)) (graphs w)).
Proof.
  intros Ha Hl. unfold add_outgoing.
  rewrite (bind_val _ _ _ _ _ (deref_run _ _ _ Ha)). by rewrite Hl.
Qed.

Lemma add_incoming_run w a b weight nb l :
  nodes w !! b = Some nb →
  insort (incoming nb) (mkEdge a weight) = Some l →
  add_incoming b a weight w
  = (Val (), mkWorld (<[b := mkNode (get_name nb) l (outgoing nb)]> (nodes w)) (graphs w)).
Proof.
  intros Hb Hl. unfold add_incoming.
  rewrite (bind_val _ _ _ _ _ (deref_run _ _ _ Hb)). by rewrite Hl.
Qed.

Lemma link_run w a b weight :
  is_Some (nodes w !! a) → is_Some (nodes w !! b) →
  ∃ w', (add_outgoing a b weight;; add_incoming b a weight) w = (Val (), w') ∧
        linked_world a b weight w w'.
Proof.
  intros [na Ha] [nb Hb].
  destruct (insort_total (outgoing na) (mkEdge b weight)) as (i & _ & Hlo).
  set (lo := take i (outgoing na) ++ mkEdge b weight :: drop i (outgoing na)) in *.
  set (na1 := mkNode (get_name na) (incoming na) lo).
  set (w1 := mkWorld (<[a := na1]> (nodes w)) (graphs w)).
  assert (a < length (nodes w)) as Hla by (by eapply lookup_lt_Some).
  assert (b < length (nodes w)) as Hlb by (by eapply lookup_lt_Some).
  assert (∃ nb1, nodes w1 !! b = Some nb1 ∧ get_name nb1 = get_name nb ∧
                 incoming nb1 = incoming nb ∧
                 outgoing nb1 = if decide (b = a) then lo else outgoing nb)
    as (nb1 & Hb1 & Hnb1 & Hib1 & Hob1).
  { simpl. destruct (decide (b = a)) as [-> | Hne].
    - exists na1. rewrite list_lookup_insert_eq by done.
      assert (nb = na) as -> by congruence. done.
    - exists nb. by rewrite list_lookup_insert_ne. }
  destruct (insort_total (incoming nb1) (mkEdge a weight)) as (j & _ & Hli).
  set (li := take j (incoming nb1) ++ mkEdge a weight :: drop j (incoming nb1)) in *.
  eexists. split.
  { rewrite (bind_val _ _ _ _ _ (add_outgoing_run _ _ _ _ _ _ Ha Hlo)).
    apply (add_incoming_run w1 a b weight nb1 li Hb1 Hli). }
  split; [done |]. split; [simpl; by rewrite !length_insert |].
  intros r n Hr. simpl. unfold linked.
  destruct (decide (r = b)) as [-> | Hrb].
  - rewrite list_lookup_insert_eq by (by rewrite length_insert).
    eexists. split; [done |]. simpl.
    assert (n = nb) as -> by congruence.
    split; [done |]. rewrite Hob1, <- Hib1. split; [| done].
    destruct (decide (b = a)) as [-> | ?]; [| done].
    assert (nb = na) as -> by congruence. done.
  - rewrite list_lookup_insert_ne by done.
    destruct (decide (r = a)) as [-> | Hra].
    + rewrite list_lookup_insert_eq by done.
      eexists. split; [done |]. assert (n = na) as -> by congruence. done.
    + rewrite list_lookup_insert_ne by done. by exists n.
Qed.

Lemma check_endpoint_cases w g a :
  (check_endpoint g a w = (Val (), w) ∧ is_Some (nodes w !! a)) ∨
  (∃ e, check_endpoint g a w = (Exn e, w)).
Proof.
  destruct (nodes w !! a) as [na |] eqn:Ha; cycle 1.
  { right. exists DanglingRef. unfold check_endpoint, node_name.
    rewrite bind_assoc. apply bind_exn. unfold deref. by rewrite Ha. }
  destruct (graphs w !! g) as [d |] eqn:Hg; cycle 1.
  { right. exists DanglingRef. unfold check_endpoint.
    rewrite (bind_val _ _ _ _ _ (node_name_run _ _ _ Ha)).
    unfold named_nodes_has_key. rewrite bind_assoc. apply bind_exn.
    unfold deref_graph. by rewrite Hg. }
  destruct (decide (dict_get (named_nodes d) (get_name na) = Some a)) as [Hd | Hd].
  - left. split; [| done]. by eapply check_endpoint_ok.
  - right. exists AssertionError. by eapply check_endpoint_fail.
Qed.

(** Either [create_edge] raises and nothing has changed, or both
    insertions took place. *)
Lemma create_edge_cases w g a b weight :
  (∃ e, create_edge g a b weight w = (Exn e, w)) ∨
  (∃ w', create_edge g a b weight w = (Val (), w') ∧
         linked_world a b weight w w' ∧
         is_Some (nodes w !! a) ∧ is_Some (nodes w !! b)).
Proof.
  rewrite create_edge_unfold.
  destruct (check_endpoint_cases w g a) as [[Hca Ha] | [e Hca]]; cycle 1.
  { left. exists e. by apply bind_exn. }
  rewrite (bind_val _ _ _ _ _ Hca).
  destruct (check_endpoint_cases w g b) as [[Hcb Hb] | [e Hcb]]; cycle 1.
  { left. exists e. by apply bind_exn. }
  rewrite (bind_val _ _ _ _ _ Hcb).
  right. destruct (link_run w a b weight Ha Hb) as (w' & ? & ?). by exists w'.
Qed.

(** Between two nodes that are registered under their names, [create_edge]
    succeeds. *)
Lemma create_edge_ok w g d a b weight na nb :
  graphs w !! g = Some d →
  nodes w !! a = Some na → nodes w !! b = Some nb →
  dict_get (named_nodes d) (get_name na) = Some a →
  dict_get (named_nodes d) (get_name nb) = Some b →
  ∃ w', create_edge g a b weight w = (Val (), w') ∧ linked_world a b weight w w'.
Proof.
  intros Hg Ha Hb Hda Hdb. rewrite create_edge_unfold.
  rewrite (bind_val _ _ _ _ _ (check_endpoint_ok _ _ _ _ _ Hg Ha Hda)).
  rewrite (bind_val _ _ _ _ _ (check_endpoint_ok _ _ _ _ _ Hg Hb Hdb)).
  apply link_run; eauto.
Qed.

(** ** [as_dict] *)

Lemma as_named_list_run w es :
  Forall (λ e, is_Some (nodes w !! get_node e)) es →
  as_named_list es w = (Val (names_in w es), w).
Proof.
  unfold as_named_list, names_in.
  induction 1 as [| e es [n Hn] _ IH]; simpl; [done |].
  rewrite (bind_val _ _ _ _ _ (node_name_run _ _ _ Hn)).
  rewrite (bind_val _ _ _ _ _ IH). by rewrite Hn.
Qed.

Lemma get_outgoing_as_named_list_run w r n :
  nodes w !! r = Some n →
  Forall (λ e, is_Some (nodes w !! get_node e)) (outgoing n) →
  get_outgoing_as_named_list r w = (Val (names_in w (outgoing n)), w).
Proof.
  intros Hn Hes. unfold get_outgoing_as_named_list.
  rewrite (bind_val _ _ _ _ _ (deref_run _ _ _ Hn)). by apply as_named_list_run.
Qed.

Lemma as_dict_loop w (d : list (string * ref)) rval :
  NoDup (dict_keys rval ++ dict_keys d) →
  (∀ k r, (k, r) ∈ d →
     ∃ n, nodes w !! r = Some n ∧ get_name n = k ∧
          Forall (λ e, is_Some (nodes w !! get_node e)) (outgoing n)) →
  foldM (λ rval node,
    k ← node_name node;
    v ← get_outgoing_as_named_list node;
    mret (dict_set rval k v)) (dict_values d) rval w
  = (Val (rval ++ (export_entry w <$> d)), w).
Proof.
  revert rval. induction d as [| [k r] d IH]; intros rval Hnd Hd; simpl.
  - by rewrite app_nil_r.
  - destruct (Hd k r) as (n & Hn & Hk & Hes); [apply elem_of_cons; by left |].
    rewrite bind_assoc, (bind_val _ _ _ _ _ (node_name_run _ _ _ Hn)).
    rewrite bind_assoc,
      (bind_val _ _ _ _ _ (get_outgoing_as_named_list_run _ _ _ Hn Hes)).
    rewrite bind_run. simpl.
    unfold dict_keys in Hnd. simpl in Hnd.
    rewrite dict_set_fresh; cycle 1.
    { apply NoDup_app in Hnd as (_ & Hdis & _). intros Hin.
      apply (Hdis _ Hin). rewrite Hk. apply elem_of_cons. by left. }
    rewrite IH.
    + unfold export_entry at 2, outgoing_of. simpl. rewrite Hn. simpl.
      by rewrite Hk, <- app_assoc.
    + unfold dict_keys. rewrite fmap_app. simpl. rewrite <- app_assoc. simpl.
      by rewrite Hk.
    + intros k' r' Hin. apply Hd. apply elem_of_cons. by right.
Qed.

Lemma as_dict_run w g d :
  graphs w !! g = Some d →
  NoDup (dict_keys (named_nodes d)) → keyed_by_name w d → exportable w d →
  as_dict g w = (Val (export_entry w <$> named_nodes d), w).
Proof.
  intros Hg Hnd Hk Hex. unfold as_dict.
  rewrite (bind_val _ _ _ _ _ (get_iter_nodes_values_run _ _ _ Hg)).
  rewrite as_dict_loop; [done | done |].
  intros k r Hin. destruct (Hk _ _ Hin) as (n & Hn & Hname).
  exists n. split; [done |]. split; [done |]. by eapply Hex.
Qed.

Lemma dict_get_export w (d : list (string * ref)) k :
  dict_get (export_entry w <$> d) k
  = (λ r, names_in w (outgoing_of w r)) <$> dict_get d k.
Proof.
  induction d as [| [k' r] d IH]; simpl; [done |].
  destruct (decide (k' = k)); [done | apply IH].
Qed.

(** ** Parallel edges and loops *)

Lemma insort_perm a x l : insort a x = Some l → l ≡ₚ x :: a.
Proof.
  destruct (insort_total a x) as (i & _ & Hi). rewrite Hi. intros [= <-].
  rewrite <- Permutation_middle. by rewrite take_drop.
Qed.

Lemma linked_world_lookup a b weight w w' r n' :
  linked_world a b weight w w' → nodes w' !! r = Some n' →
  ∃ n, nodes w !! r = Some n ∧ linked a b weight r n n'.
Proof.
  intros (_ & Hlen & Hall) Hr.
  destruct (nodes w !! r) as [n |] eqn:Hn.
  - destruct (Hall _ _ Hn) as (n'' & Hn'' & Hl). exists n.
    split; [done |]. congruence.
  - apply lookup_ge_None in Hn. apply lookup_lt_Some in Hr. lia.
Qed.

Lemma linked_world_name a b weight w w' r :
  linked_world a b weight w w' →
  get_name <$> nodes w' !! r = get_name <$> nodes w !! r.
Proof.
  intros Hl. destruct (nodes w' !! r) as [n' |] eqn:Hn'.
  - destruct (linked_world_lookup _ _ _ _ _ _ _ Hl Hn') as (n & -> & Hname & _).
    simpl. by rewrite Hname.
  - destruct Hl as (_ & Hlen & _). apply lookup_ge_None in Hn'.
    rewrite (proj2 (lookup_ge_None _ _)) by lia. done.
Qed.

Lemma linked_world_names_in a b weight w w' es :
  linked_world a b weight w w' → names_in w' es = names_in w es.
Proof.
  intros Hl. unfold names_in. apply list_omap_ext.
  induction es; constructor; [by eapply linked_world_name | done].
Qed.

Lemma linked_world_keyed a b weight w w' d :
  linked_world a b weight w w' → keyed_by_name w d → keyed_by_name w' d.
Proof.
  intros Hl Hk k r Hin. destruct (Hk _ _ Hin) as (n & Hn & Hname).
  destruct Hl as (_ & _ & Hall). destruct (Hall _ _ Hn) as (n' & Hn' & Hnn & _).
  exists n'. split; [done | congruence].
Qed.

Lemma linked_world_exportable a b weight w w' d :
  linked_world a b weight w w' → is_Some (nodes w !! b) →
  exportable w d → exportable w' d.
Proof.
  intros Hl Hb Hex k r n' Hin Hn'.
  destruct (linked_world_lookup _ _ _ _ _ _ _ Hl Hn') as (n & Hn & _ & Hout & _).
  assert (∀ e, is_Some (nodes w !! get_node e) → is_Some (nodes w' !! get_node e)) as Hmono.
  { intros e [m Hm]. destruct Hl as (_ & _ & Hall).
    destruct (Hall _ _ Hm) as (m' & -> & _). done. }
  pose proof (Hex _ _ _ Hin Hn) as Hes.
  destruct (decide (r = a)) as [-> | _].
  - apply insort_perm in Hout. rewrite Hout. constructor; [by apply Hmono |].
    eapply Forall_impl; [done | done].
  - rewrite Hout. eapply Forall_impl; [done | done].
Qed.

Lemma linked_world_source a b weight w w' na :
  linked_world a b weight w w' → nodes w !! a = Some na →
  ∃ na', nodes w' !! a = Some na' ∧ get_name na' = get_name na ∧
         outgoing na' ≡ₚ mkEdge b weight :: outgoing na.
Proof.
  intros (_ & _ & Hall) Ha. destruct (Hall _ _ Ha) as (na' & Ha' & Hname & Hout & _).
  rewrite decide_True in Hout by done.
  exists na'. split; [done |]. split; [done |]. by apply insort_perm.
Qed.

Lemma linked_world_target a b weight w w' nb :
  linked_world a b weight w w' → nodes w !! b = Some nb →
  ∃ nb', nodes w' !! b = Some nb' ∧ get_name nb' = get_name nb ∧
         incoming nb' ≡ₚ mkEdge a weight :: incoming nb.
Proof.
  intros (_ & _ & Hall) Hb. destruct (Hall _ _ Hb) as (nb' & Hb' & Hname & _ & Hin).
  rewrite decide_True in Hin by done.
  exists nb'. split; [done |]. split; [done |]. by apply insort_perm.
Qed.

(** C10: between registered nodes, a second [create_edge] with the same
    arguments succeeds as the first did and leaves two equal edges in the
    outgoing list of the source and in the incoming list of the target,
    so that the exported dictionary names the target twice more for the
    source; and [create_edge(a, a)] succeeds and puts [a] into its own
    outgoing and incoming lists. *)
Theorem create_edge_no_dedup w g d a b weight na nb :
  graphs w !! g = Some d →
  nodes w !! a = Some na → nodes w !! b = Some nb →
  dict_get (named_nodes d) (get_name na) = Some a →
  dict_get (named_nodes d) (get_name nb) = Some b →
  (∃ w1 w2 na2 nb2,
     create_edge g a b weight w = (Val (), w1) ∧
     create_edge g a b weight w1 = (Val (), w2) ∧
     nodes w2 !! a = Some na2 ∧ nodes w2 !! b = Some nb2 ∧
     outgoing na2 ≡ₚ mkEdge b weight :: mkEdge b weight :: outgoing na ∧
     incoming nb2 ≡ₚ mkEdge a weight :: mkEdge a weight :: incoming nb ∧
     (NoDup (dict_keys (named_nodes d)) → keyed_by_name w d → exportable w d →
      ∃ m m2 l l2,
        as_dict g w = (Val m, w) ∧ as_dict g w2 = (Val m2, w2) ∧
        dict_get m (get_name na) = Some l ∧
        dict_get m2 (get_name na) = Some l2 ∧
        l2 ≡ₚ get_name nb :: get_name nb :: l)) ∧
  (∃ w1 na1,
     create_edge g a a weight w = (Val (), w1) ∧
     nodes w1 !! a = Some na1 ∧
     outgoing na1 ≡ₚ mkEdge a weight :: outgoing na ∧
     incoming na1 ≡ₚ mkEdge a weight :: incoming na).
Proof.
  intros Hg Ha Hb Hda Hdb. split.
  - destruct (create_edge_ok w g d a b weight na nb) as (w1 & Hrun1 & Hl1); [done .. |].
    destruct (linked_world_source _ _ _ _ _ _ Hl1 Ha) as (na1 & Ha1 & Hna1 & Hout1).
    destruct (linked_world_target _ _ _ _ _ _ Hl1 Hb) as (nb1 & Hb1 & Hnb1 & Hin1).
    assert (graphs w1 !! g = Some d) as Hg1 by (destruct Hl1 as (-> & _); done).
    destruct (create_edge_ok w1 g d a b weight na1 nb1) as (w2 & Hrun2 & Hl2);
      [done | done | done | by rewrite Hna1 | by rewrite Hnb1 |].
    destruct (linked_world_source _ _ _ _ _ _ Hl2 Ha1) as (na2 & Ha2 & Hna2 & Hout2).
    destruct (linked_world_target _ _ _ _ _ _ Hl2 Hb1) as (nb2 & Hb2 & Hnb2 & Hin2).
    exists w1, w2, na2, nb2. repeat (split; [done |]).
    split; [by rewrite Hout2, Hout1 |]. split; [by rewrite Hin2, Hin1 |].
    intros Hnd Hk Hex.
    assert (graphs w2 !! g = Some d) as Hg2 by (destruct Hl2 as (-> & _); done).
    assert (keyed_by_name w2 d) as Hk2 by eauto using linked_world_keyed.
    assert (exportable w2 d) as Hex2.
    { eapply linked_world_exportable; [done | by eauto |].
      eapply linked_world_exportable; [done | by eauto | done]. }
    do 4 eexists.
    split; [by apply as_dict_run |]. split; [by apply as_dict_run |].
    rewrite !dict_get_export, Hda. simpl. split; [done |]. split; [done |].
    unfold outgoing_of. rewrite Ha, Ha2. simpl.
    rewrite (linked_world_names_in _ _ _ _ _ _ Hl2), (linked_world_names_in _ _ _ _ _ _ Hl1).
    unfold names_in. rewrite Hout2, Hout1. simpl. by rewrite Hb.
  - destruct (create_edge_ok w g d a a weight na na) as (w1 & Hrun1 & Hl1); [done .. |].
    destruct Hl1 as (_ & _ & Hall). destruct (Hall _ _ Ha) as (na1 & Ha1 & _ & Hout & Hin).
    rewrite decide_True in Hout by done. rewrite decide_True in Hin by done.
    exists w1, na1. repeat (split; [done |]).
    split; by apply insort_perm.
Qed.

Lemma create_edge_no_dedup_witness :
  (∃ w1 w2,
     create_edge 0 0 1 0 two_nodes_world = (Val (), w1) ∧
     create_edge 0 0 1 0 w1 = (Val (), w2) ∧
     as_dict 0 w2 = (Val [("A", ["B"; "B"]); ("B", [])], w2)) ∧
  (∃ w1 na1,
     create_edge 0 0 0 0 two_nodes_world = (Val (), w1) ∧
     nodes w1 !! 0 = Some na1 ∧
     mkEdge 0 0 ∈ outgoing na1 ∧ mkEdge 0 0 ∈ incoming na1).
Proof.
  destruct (create_edge_no_dedup two_nodes_world 0
              (mkDigraph [("A", 0); ("B", 1)]) 0 1 0
              (mkNode "A" [] []) (mkNode "B" [] [])
              eq_refl eq_refl eq_refl eq_refl eq_refl)
    as ((w1 & w2 & na2 & nb2 & H1 & H2 & _) & (w1' & na1 & H1' & Ha1 & Hout & Hin)).
  split.
  - exists w1, w2. split; [done |]. split; [done |].
    vm_compute in H1. injection H1 as <-.
    vm_compute in H2. injection H2 as <-.
    reflexivity.
  - exists w1', na1. split; [done |]. split; [done |].
    split; [rewrite Hout | rewrite Hin]; apply elem_of_cons; by left.
Defined.

(** ** The edge lists stay sorted, ties in insertion order *)

Lemma of_weight_heavier z l :
  Forall (λ e, z < get_weight e)%Z l → of_weight z l = [].
Proof.
  unfold of_weight. induction 1 as [| e l He _ IH]; [done |].
  rewrite filter_cons_False by lia. done.
Qed.

(** [insort] puts the new edge behind the edges of its own weight and
    leaves the order of the other edges alone. *)
Lemma insort_stable a x l z :
  weight_sorted a → insort a x = Some l →
  of_weight z l = of_weight z a ++ of_weight z [x].
Proof.
  intros Hs Hl. destruct (insort_sorted a x Hs) as (l1 & l2 & -> & Hi & H1 & H2).
  rewrite Hi in Hl. injection Hl as <-. unfold of_weight.
  rewrite !filter_app, (filter_cons _ x l2), (filter_cons _ x []), filter_nil.
  destruct (decide (get_weight x = z)) as [<- | Hne].
  - fold (of_weight (get_weight x) l2). by rewrite (of_weight_heavier _ _ H2), app_nil_r.
  - by rewrite app_nil_r.
Qed.

Lemma out_history_snoc log a b weight r :
  out_history (log ++ [(a, b, weight)]) r
  = out_history log r ++ (if decide (a = r) then [mkEdge b weight] else []).
Proof. unfold out_history. rewrite omap_app. simpl. by destruct (decide (a = r)). Qed.

Lemma in_history_snoc log a b weight r :
  in_history (log ++ [(a, b, weight)]) r
  = in_history log r ++ (if decide (b = r) then [mkEdge a weight] else []).
Proof. unfold in_history. rewrite omap_app. simpl. by destruct (decide (b = r)). Qed.

Lemma history_fresh log r :
  (∀ a b weight, (a, b, weight) ∈ log → a < r ∧ b < r) →
  out_history log r = [] ∧ in_history log r = [].
Proof.
  unfold out_history, in_history. induction log as [| [[a b] weight] log IH]; intros H; [done |].
  destruct (H a b weight) as [? ?]; [apply elem_of_cons; by left |].
  simpl. rewrite !decide_False by lia. apply IH.
  intros a' b' weight' ?. apply (H a' b' weight'). apply elem_of_cons. by right.
Qed.

Lemma keeps_nodes_ret {A} (a : A) : keeps_nodes (mret a).
Proof. done. Qed.

Lemma keeps_nodes_raise {A} e : keeps_nodes (@raise A e).
Proof. done. Qed.

Lemma keeps_nodes_bind {A B} (m : M A) (k : A → M B) :
  keeps_nodes m → (∀ a, keeps_nodes (k a)) → keeps_nodes (m ≫= k).
Proof.
  intros Hm Hk w. rewrite bind_run. specialize (Hm w).
  destruct (m w) as [[a | e] w']; simpl in *; [| done].
  by rewrite Hk.
Qed.

Lemma keeps_nodes_deref r : keeps_nodes (deref r).
Proof. intros w. unfold deref. by destruct (nodes w !! r). Qed.

Lemma keeps_nodes_deref_graph g : keeps_nodes (deref_graph g).
Proof. intros w. unfold deref_graph. by destruct (graphs w !! g). Qed.

Lemma keeps_nodes_store_graph g d : keeps_nodes (store_graph g d).
Proof. done. Qed.

Lemma keeps_nodes_for_each {A} (l : list A) body :
  (∀ x, keeps_nodes (body x)) → keeps_nodes (for_each l body).
Proof.
  intros Hbody. induction l as [| x l IH]; simpl; [done |].
  apply keeps_nodes_bind; [done | by intros _].
Qed.

Lemma keeps_nodes_node_name r : keeps_nodes (node_name r).
Proof.
  apply keeps_nodes_bind; [apply keeps_nodes_deref | intros; apply keeps_nodes_ret].
Qed.

Lemma keeps_nodes_add_node g a : keeps_nodes (add_node g a).
Proof.
  unfold add_node.
  apply keeps_nodes_bind; [apply keeps_nodes_deref_graph | intros d].
  apply keeps_nodes_bind.
  { apply keeps_nodes_for_each. intros r.
    apply keeps_nodes_bind; [apply keeps_nodes_node_name | intros nn].
    apply keeps_nodes_bind; [apply keeps_nodes_node_name | intros an].
    destruct (decide (nn = an)); [apply keeps_nodes_raise | apply keeps_nodes_ret]. }
  intros _.
  apply keeps_nodes_bind; [apply keeps_nodes_node_name | intros an].
  apply keeps_nodes_bind; [apply keeps_nodes_deref_graph | intros d'].
  apply keeps_nodes_store_graph.
Qed.

Lemma sorted_stable_same_nodes w w' log :
  nodes w' = nodes w → sorted_stable w log → sorted_stable w' log.
Proof. unfold sorted_stable. by intros ->. Qed.

Lemma sorted_stable_new_node w log name :
  sorted_stable w log → sorted_stable (new_node name w).2 log.
Proof.
  intros [Hlog Hall]. split; simpl.
  - intros a b weight Hin. rewrite length_app. simpl.
    destruct (Hlog a b weight Hin). lia.
  - intros r n Hr. apply lookup_app_Some in Hr as [Hr | [Hge Hr]]; [by apply Hall |].
    destruct (r - length (nodes w)) as [| k] eqn:Hk; simpl in Hr; [| by rewrite lookup_nil in Hr].
    injection Hr as <-. simpl.
    assert (r = length (nodes w)) as -> by lia.
    destruct (history_fresh log (length (nodes w)) Hlog) as [-> ->].
    repeat split; constructor.
Qed.

Lemma sorted_stable_linked w w' log a b weight :
  sorted_stable w log → linked_world a b weight w w' →
  is_Some (nodes w !! a) → is_Some (nodes w !! b) →
  sorted_stable w' (log ++ [(a, b, weight)]).
Proof.
  intros [Hlog Hall] Hl [na Ha] [nb Hb]. split.
  - destruct Hl as (_ & -> & _). intros a' b' weight' Hin.
    apply elem_of_app in Hin as [Hin | Hin]; [by apply (Hlog a' b' weight') |].
    apply list_elem_of_singleton in Hin. injection Hin as -> -> ->.
    split; by eapply lookup_lt_Some.
  - intros r n' Hr.
    destruct (linked_world_lookup _ _ _ _ _ _ _ Hl Hr) as (n & Hn & _ & Hout & Hin).
    destruct (Hall _ _ Hn) as (Hso & Hsi & Hz).
    rewrite out_history_snoc, in_history_snoc.
    assert (weight_sorted (outgoing n') ∧
            ∀ z, of_weight z (outgoing n')
                 = of_weight z (out_history log r ++
                     (if decide (a = r) then [mkEdge b weight] else []))) as [? Hzo].
    { destruct (decide (r = a)) as [-> | Hne].
      - split; [by apply (insort_keeps_sorted _ _ _ Hso Hout) |]. intros z.
        rewrite (insort_stable _ _ _ z Hso Hout), decide_True by done.
        unfold of_weight at 3. rewrite filter_app. by rewrite (proj1 (Hz z)).
      - rewrite Hout, decide_False by done. split; [done |]. intros z.
        rewrite app_nil_r. apply Hz. }
    assert (weight_sorted (incoming n') ∧
            ∀ z, of_weight z (incoming n')
                 = of_weight z (in_history log r ++
                     (if decide (b = r) then [mkEdge a weight] else []))) as [? Hzi].
    { destruct (decide (r = b)) as [-> | Hne].
      - split; [by apply (insort_keeps_sorted _ _ _ Hsi Hin) |]. intros z.
        rewrite (insort_stable _ _ _ z Hsi Hin), decide_True by done.
        unfold of_weight at 3. rewrite filter_app. by rewrite (proj2 (Hz z)).
      - rewrite Hin, decide_False by done. split; [done |]. intros z.
        rewrite app_nil_r. apply Hz. }
    split; [done |]. split; [done |]. intros z. split; [apply Hzo | apply Hzi].
Qed.

Lemma run_ops_sorted_stable ops w log w' log' :
  sorted_stable w log → run_ops ops w log = (w', log') → sorted_stable w' log'.
Proof.
  revert w log. induction ops as [| o ops IH]; intros w log Hinv; simpl.
  - by intros [= <- <-].
  - destruct o as [| name | g a | g a b weight]; simpl.
    + rewrite app_nil_r. apply IH. by eapply sorted_stable_same_nodes.
    + rewrite app_nil_r. apply IH. by apply sorted_stable_new_node.
    + pose proof (keeps_nodes_add_node g a w) as Hk.
      destruct (add_node g a w) as [[[] | e] w1]; simpl in Hk.
      * rewrite app_nil_r. apply IH. by eapply sorted_stable_same_nodes.
      * apply IH. by eapply sorted_stable_same_nodes.
    + destruct (create_edge_cases w g a b weight) as [[e ->] | (w1 & -> & Hl & Ha & Hb)].
      * by apply IH.
      * apply IH. by eapply sorted_stable_linked.
Qed.

(** C7: after any sequence of calls that create graphs and nodes, register
    nodes and create edges, started from nothing, the outgoing and the
    incoming list of every node are in ascending order of weight, and for
    every weight the edges of that weight stand in the list in the order
    in which [create_edge] inserted them. *)
Theorem edge_lists_sorted_stable ops w log r n :
  run_ops ops empty_world [] = (w, log) → nodes w !! r = Some n →
  weight_sorted (outgoing n) ∧ weight_sorted (incoming n) ∧
  ∀ z, of_weight z (outgoing n) = of_weight z (out_history log r) ∧
       of_weight z (incoming n) = of_weight z (in_history log r).
Proof.
  intros Hrun Hr.
  assert (sorted_stable empty_world []) as H0.
  { split; [by intros ? ? ? ?%elem_of_nil |].
    intros r' n' Hr'. simpl in Hr'. by rewrite lookup_nil in Hr'. }
  destruct (run_ops_sorted_stable _ _ _ _ _ H0 Hrun) as [_ Hall]. by apply Hall.
Qed.

Lemma edge_lists_sorted_stable_witness :
  let n := mkNode "A" [] [mkEdge 2 0; mkEdge 1 5; mkEdge 2 5] in
  (run_ops weighted_ops empty_world []).1.(nodes) !! 0 = Some n ∧
  weight_sorted (outgoing n) ∧
  of_weight 5 (outgoing n) = [mkEdge 1 5; mkEdge 2 5].
Proof.
  intros n.
  destruct (edge_lists_sorted_stable weighted_ops
              (run_ops weighted_ops empty_world []).1
              (run_ops weighted_ops empty_world []).2 0 n)
    as (Hs & _ & Hz); [reflexivity | reflexivity |].
  split; [reflexivity |]. split; [done |].
  by rewrite (proj1 (Hz 5%Z)).
Defined.

(** ** The depth-first search *)

Lemma visit_S depth node V T w :
  visit (S depth) node (V, T) w
  = if bool_decide (node ∈ V) then (Val (V, T), w)
    else (outs ← get_iter_outgoing node;
          st' ← visit_all depth outs (V ++ [node], T);
          mret (st'.1, node :: st'.2)) w.
Proof. simpl. by destruct (bool_decide (node ∈ V)). Qed.

Lemma visit_all_cons depth o outs st w :
  visit_all depth (o :: outs) st w
  = (s' ← visit depth o st; visit_all depth outs s') w.
Proof. reflexivity. Qed.

Lemma grown_refl st : grown st st.
Proof. by exists []. Qed.

Lemma grown_trans st1 st2 st3 : grown st1 st2 → grown st2 st3 → grown st1 st3.
Proof.
  intros (new1 & HT1 & HV1 & Hnd1) (new2 & HT2 & HV2 & Hnd2).
  exists (new2 ++ new1). split; [by rewrite HT2, HT1, app_assoc |].
  split; [by rewrite HV2, HV1, app_assoc | auto].
Qed.

Lemma grown_visited st st' x : grown st st' → x ∈ st.1 → x ∈ st'.1.
Proof. intros (new & _ & -> & _) ?. apply elem_of_app. by right. Qed.

Lemma grown_tsort st st' x : grown st st' → x ∈ st.2 → x ∈ st'.2.
Proof. intros (new & -> & _ & _) ?. apply elem_of_app. by right. Qed.

(** A node that was visited but not finished before the call is not
    finished by it. *)
Lemma grown_in_progress st st' x :
  grown st st' → NoDup st.1 → x ∈ st.1 → x ∉ st.2 → x ∉ st'.2.
Proof.
  intros (new & -> & HV & Hnd) HV0 Hx HxT.
  apply Hnd in HV0. rewrite HV in HV0.
  apply NoDup_app in HV0 as (_ & Hdis & _).
  apply not_elem_of_app. split; [| done]. intros Hin. by apply (Hdis x).
Qed.

Section visit.
Variable w : World.

Lemma visit_all_grown depth :
  (∀ node st st' w', visit depth node st w = (Val st', w') →
     w' = w ∧ grown st st' ∧ node ∈ st'.1) →
  ∀ outs st st' w', visit_all depth outs st w = (Val st', w') →
     w' = w ∧ grown st st'.
Proof.
  intros IH outs. induction outs as [| o outs IHo]; intros st st' w' Hrun.
  - injection Hrun as <- <-. split; [done | apply grown_refl].
  - rewrite visit_all_cons, bind_run in Hrun.
    destruct (visit depth o st w) as [[s1 | e] w1] eqn:Hv; [| done].
    destruct (IH _ _ _ _ Hv) as (-> & Hg1 & _).
    destruct (IHo _ _ _ Hrun) as (-> & Hg2).
    split; [done | by eapply grown_trans].
Qed.

(** A call of [visit] that returns has read the store only, has put the
    nodes it finished to the front of [tsort], and has the node in
    [visited]. *)
Lemma visit_grown depth node st st' w' :
  visit depth node st w = (Val st', w') →
  w' = w ∧ grown st st' ∧ node ∈ st'.1.
Proof.
  revert node st st' w'. induction depth as [| depth IH]; intros node [V T] st' w' Hrun.
  - done.
  - rewrite visit_S in Hrun. case_bool_decide as Hin.
    + injection Hrun as <- <-. split; [done |]. split; [apply grown_refl | done].
    + rewrite bind_run in Hrun.
      destruct (get_iter_outgoing node w) as [[outs | e] w1] eqn:Hout; [| done].
      assert (w1 = w) as ->.
      { unfold get_iter_outgoing, deref in Hout. rewrite bind_run in Hout.
        destruct (nodes w !! node); by injection Hout. }
      rewrite bind_run in Hrun.
      destruct (visit_all depth outs (V ++ [node], T) w) as [[[V2 T2] | e] w2] eqn:Hall;
        [| done].
      destruct (visit_all_grown depth IH _ _ _ _ Hall) as (-> & new & HT & HV & Hnd).
      injection Hrun as <- <-. simpl in *. split; [done |]. split.
      * exists (node :: new). simpl. split; [by rewrite HT |].
        split.
        { rewrite HV, app_assoc, <- (Permutation_cons_append (new ++ V) node).
          done. }
        intros HndV. apply Hnd. apply NoDup_app. split; [done |].
        split; [| apply NoDup_singleton].
        intros x Hx ->%list_elem_of_singleton. done.
      * rewrite HV. apply elem_of_app. right. apply elem_of_app. right.
        by apply list_elem_of_singleton.
Qed.

Lemma visit_all_grown' depth outs st st' w' :
  visit_all depth outs st w = (Val st', w') → w' = w ∧ grown st st'.
Proof. apply visit_all_grown. intros. by eapply visit_grown. Qed.

Lemma grown_tsort_ok st st' : grown st st' → tsort_ok st → tsort_ok st'.
Proof.
  intros (new & HT & HV & Hnd) (HV0 & HT0 & Hsub).
  pose proof (Hnd HV0) as HV1. split; [done |].
  rewrite HV in HV1. apply NoDup_app in HV1 as (Hnew & Hdis & _).
  split.
  - rewrite HT. apply NoDup_app. split; [done |]. split; [| done].
    intros x Hx HxT. apply (Hdis x Hx). by apply Hsub.
  - intros x. rewrite HT, HV, !elem_of_app. intros [? | ?]; [by left | right; auto].
Qed.

(** *** Termination *)

Lemma unvisited_le V : unvisited w V ≤ length (nodes w).
Proof.
  unfold unvisited. etrans; [apply length_filter |]. by rewrite length_seq.
Qed.

Lemma unvisited_mono V V' :
  (∀ x, x ∈ V → x ∈ V') → unvisited w V' ≤ unvisited w V.
Proof.
  intros Hsub. unfold unvisited.
  rewrite <- (list_filter_filter_l (λ r, r ∉ V') (λ r, r ∉ V)) by (intros x Hx ?; auto).
  apply length_filter.
Qed.

Lemma unvisited_visit V node :
  node < length (nodes w) → node ∉ V → unvisited w (V ++ [node]) < unvisited w V.
Proof.
  intros Hlt Hin. unfold unvisited.
  rewrite (list_filter_iff (λ r, r ∉ V ++ [node]) (λ r, r ≠ node ∧ r ∉ V)); cycle 1.
  { intros x. rewrite not_elem_of_app, list_elem_of_singleton. tauto. }
  rewrite <- list_filter_filter.
  apply (length_filter_lt _ _ node); [| tauto].
  apply list_elem_of_filter. split; [done |]. apply elem_of_seq. lia.
Qed.

Lemma visit_all_total S depth :
  (∀ node st, S node → unvisited w st.1 < depth →
     ∃ st', visit depth node st w = (Val st', w)) →
  ∀ outs st, Forall S outs → unvisited w st.1 < depth →
     ∃ st', visit_all depth outs st w = (Val st', w).
Proof.
  intros IH outs. induction outs as [| o outs IHo]; intros st Houts Hlt.
  - by exists st.
  - apply Forall_cons in Houts as [Ho Houts].
    destruct (IH o st Ho Hlt) as [s1 Hv].
    destruct (visit_grown _ _ _ _ _ Hv) as (_ & Hg & _).
    destruct (IHo s1 Houts) as [st' Hall].
    { eapply Nat.le_lt_trans; [| done]. apply unvisited_mono.
      intros x. by apply grown_visited. }
    exists st'. by rewrite visit_all_cons, (bind_val _ _ _ _ _ Hv).
Qed.

(** Inside a closed set, [visit] returns as soon as its depth budget
    exceeds the number of node objects not yet visited. *)
Lemma visit_depth_enough S depth node st :
  closed_under_edges w S → S node → unvisited w st.1 < depth →
  ∃ st', visit depth node st w = (Val st', w).
Proof.
  intros HS. revert node st. induction depth as [| depth IH]; intros node [V T] Hnode Hlt.
  - lia.
  - rewrite visit_S. case_bool_decide as Hin; [by eexists |].
    destruct (HS _ Hnode) as (n & Hn & Hes).
    rewrite (bind_val _ _ _ _ _ (get_iter_outgoing_run _ _ _ Hn)).
    destruct (visit_all_total S depth IH (get_node <$> outgoing n) (V ++ [node], T))
      as [st' Hall].
    + by apply Forall_fmap.
    + simpl in *. apply lookup_lt_Some in Hn.
      pose proof (unvisited_visit V node Hn Hin). lia.
    + rewrite (bind_val _ _ _ _ _ Hall). by eexists.
Qed.

(** The loop of [topological_sort] over the registered nodes. *)
Lemma root_scan_total S (vs : list nat) st :
  closed_under_edges w S → Forall S vs →
  ∃ st', foldM (λ s node,
           b ← has_incoming node;
           if truthy b then mret s
           else visit (Datatypes.S (length (nodes w))) node s) vs st w
         = (Val st', w) ∧ grown st st'.
Proof.
  intros HS Hvs. revert st. induction Hvs as [| r vs Hr _ IH]; intros st.
  - exists st. split; [done | apply grown_refl].
  - destruct (HS _ Hr) as (n & Hn & _). simpl.
    rewrite bind_assoc, (bind_val _ _ _ _ _ (has_incoming_run _ _ _ Hn)).
    destruct (truthy (PyEdgeList (incoming n))).
    + rewrite bind_run. simpl. apply IH.
    + destruct (visit_depth_enough S (Datatypes.S (length (nodes w))) r st HS Hr)
        as [s1 Hv].
      { pose proof (unvisited_le st.1). lia. }
      rewrite (bind_val _ _ _ _ _ Hv).
      destruct (visit_grown _ _ _ _ _ Hv) as (_ & Hg & _).
      destruct (IH s1) as (st' & Hrun & Hg'). exists st'.
      split; [done | by eapply grown_trans].
Qed.

End visit.

Lemma world_closed_under_edges w d :
  world_closed w d → closed_under_edges w (λ r, r < length (nodes w)).
Proof.
  intros [_ Hes] r Hr. apply lookup_lt_is_Some in Hr as [n Hn].
  exists n. split; [done | by eapply Hes].
Qed.

(** C9: the sort of any graph whose references all lead to node objects
    returns, and no node is in the returned list twice. *)
Theorem topological_sort_NoDup w g d :
  graphs w !! g = Some d → world_closed w d →
  ∃ l, topological_sort g w = (Val l, w) ∧ NoDup l.
Proof.
  intros Hg Hc. unfold topological_sort.
  rewrite (bind_val get_world _ w w w eq_refl).
  rewrite (bind_val _ _ _ _ _ (get_iter_nodes_values_run _ _ _ Hg)).
  destruct (root_scan_total w _ (dict_values (named_nodes d)) ([], [])
              (world_closed_under_edges _ _ Hc) (proj1 Hc)) as ([V T] & Hrun & Hgr).
  rewrite (bind_val _ _ _ _ _ Hrun). exists T. split; [done |].
  apply (grown_tsort_ok _ _ Hgr). repeat split; try constructor.
  by intros x ?%elem_of_nil.
Qed.

Lemma topological_sort_NoDup_witness :
  ∃ l, topological_sort 0 shared_world = (Val l, shared_world) ∧ NoDup l.
Proof.
  apply (topological_sort_NoDup shared_world 0
           (mkDigraph [("A", 0); ("B", 1); ("C", 2); ("D", 3); ("E", 4)]));
    [reflexivity |].
  split.
  - repeat constructor.
  - intros r n Hr.
    do 5 (destruct r as [| r]; [injection Hr as <-; repeat constructor |]).
    done.
Defined.

(** ** The order of the sorted list *)

Lemma before_cons {A} (l : list A) x u v : before l u v → before (x :: l) u v.
Proof. intros (l1 & l2 & l3 & ->). by exists (x :: l1), l2, l3. Qed.

Lemma before_fmap {A B} (f : A → B) (l : list A) u v :
  before l u v → before (f <$> l) (f u) (f v).
Proof.
  intros (l1 & l2 & l3 & ->). exists (f <$> l1), (f <$> l2), (f <$> l3).
  by rewrite fmap_app, fmap_cons, fmap_app, fmap_cons.
Qed.

Lemma topo_ok_before E l u v :
  topo_ok E l → u ∈ l → E u v → before l u v.
Proof.
  induction 1 as [| x l Hl IH Hx Hsucc]; intros Hu Huv.
  - by apply elem_of_nil in Hu.
  - apply elem_of_cons in Hu as [-> | Hu].
    + apply Hsucc in Huv. apply list_elem_of_split in Huv as (l2 & l3 & ->).
      by exists [], l2, l3.
    + apply before_cons. auto.
Qed.

Lemma topo_ok_closed E l u v : topo_ok E l → u ∈ l → rtc E u v → v ∈ l.
Proof.
  intros Hl Hu Huv. revert Hu. induction Huv as [| x y z Hxy _ IH]; [done |].
  intros Hx. apply IH. clear IH.
  induction Hl as [| a l Hl IHl Ha Hsucc]; [by apply elem_of_nil in Hx |].
  apply elem_of_cons in Hx as [-> | Hx]; apply elem_of_cons; right; auto.
Qed.

Lemma topo_ok_NoDup E l : topo_ok E l → NoDup l.
Proof. induction 1; constructor; auto. Qed.

Section visit_order.
Variable w : World.

Local Abbreviation E := (succ w).

Lemma visit_all_topo depth :
  (∀ node st st', visit depth node st w = (Val st', w) →
     tsort_ok st → topo_ok E st.2 → on_the_way w st node → acyclic_from w node →
     topo_ok E st'.2 ∧ node ∈ st'.2 ∧ same_in_progress st st') →
  ∀ outs st st', visit_all depth outs st w = (Val st', w) →
     tsort_ok st → topo_ok E st.2 →
     Forall (λ o, on_the_way w st o ∧ acyclic_from w o) outs →
     topo_ok E st'.2 ∧ (∀ o, o ∈ outs → o ∈ st'.2) ∧ same_in_progress st st'.
Proof.
  intros IH outs. induction outs as [| o outs IHo]; intros st st' Hrun Hok Htopo Houts.
  - injection Hrun as <-. split; [done |]. split; [by intros ? ?%elem_of_nil | by intros ?].
  - rewrite visit_all_cons, bind_run in Hrun.
    destruct (visit depth o st w) as [[s1 | e] w1] eqn:Hv; [| done].
    destruct (visit_grown _ _ _ _ _ _ Hv) as (-> & Hg1 & _).
    apply Forall_cons in Houts as [[Hway Hacy] Houts].
    destruct (IH _ _ _ Hv Hok Htopo Hway Hacy) as (Htopo1 & Ho1 & Hsame1).
    pose proof (grown_tsort_ok _ _ Hg1 Hok) as Hok1.
    destruct (visit_all_grown' _ _ _ _ _ _ Hrun) as (_ & Hg2).
    destruct (IHo s1 st' Hrun Hok1 Htopo1) as (Htopo2 & Houts2 & Hsame2).
    { eapply Forall_impl; [done |]. intros o' [Hway' Hacy']. split; [| done].
      intros p Hp1 Hp2. destruct (Hsame1 p Hp1 Hp2). by apply Hway'. }
    split; [done |]. split.
    + intros o' [-> | Ho']%elem_of_cons; [by eapply grown_tsort | auto].
    + intros p Hp1 Hp2. destruct (Hsame2 p Hp1 Hp2). by apply Hsame1.
Qed.

(** In a part of the graph without cycles, a visit keeps [tsort] in
    topological order and leaves the visited node in it. *)
Lemma visit_topo depth node st st' :
  visit depth node st w = (Val st', w) →
  tsort_ok st → topo_ok E st.2 → on_the_way w st node → acyclic_from w node →
  topo_ok E st'.2 ∧ node ∈ st'.2 ∧ same_in_progress st st'.
Proof.
  revert node st st'. induction depth as [| depth IH];
    intros node [V T] st' Hrun Hok Htopo Hway Hacy; [done |].
  rewrite visit_S in Hrun. case_bool_decide as Hin.
  - injection Hrun as <-. split; [done |]. split; [| by intros ?].
    destruct (decide (node ∈ T)) as [? | HnT]; [done |].
    destruct (Hacy node (rtc_refl _ _)). by apply Hway.
  - destruct (nodes w !! node) as [n |] eqn:Hn; cycle 1.
    { unfold get_iter_outgoing, deref in Hrun. rewrite !bind_run, Hn in Hrun. done. }
    rewrite (bind_val _ _ _ _ _ (get_iter_outgoing_run _ _ _ Hn)), bind_run in Hrun.
    destruct (visit_all depth (get_node <$> outgoing n) (V ++ [node], T) w)
      as [[[V2 T2] | e] w2] eqn:Hall; [| done].
    destruct (visit_all_grown' _ _ _ _ _ _ Hall) as (-> & Hg).
    injection Hrun as <-. destruct Hok as (HndV & HndT & Hsub). simpl in *.
    assert (node ∉ T) as HnT by (intros ?; apply Hin; auto).
    assert (tsort_ok (V ++ [node], T)) as Hok1.
    { split; [| split; [done |]]; simpl.
      - apply NoDup_app. split; [done |]. split; [| apply NoDup_singleton].
        by intros x Hx ->%list_elem_of_singleton.
      - intros x Hx. apply elem_of_app. left. auto. }
    destruct (visit_all_topo depth IH _ _ _ Hall Hok1 Htopo) as (Htopo2 & Houts & Hsame).
    { apply Forall_forall. intros o Ho.
      assert (E node o) as Hedge by (by exists n).
      split.
      - intros p Hp HpT. simpl in *.
        apply elem_of_app in Hp as [Hp | ->%list_elem_of_singleton].
        + eapply tc_r; [by apply Hway | done].
        + by apply tc_once.
      - intros x Hx. apply Hacy. by eapply rtc_l. }
    simpl in *. split; [| split].
    + constructor; [done | |].
      * apply (grown_in_progress _ _ node Hg); simpl; [by destruct Hok1 | | done].
        apply elem_of_app. right. by apply list_elem_of_singleton.
      * intros v (n' & Hn' & Hv). apply Houts. congruence.
    + apply elem_of_cons. by left.
    + intros p Hp HpT. simpl in *. apply not_elem_of_cons in HpT as [Hne HpT].
      destruct (Hsame p Hp HpT) as [Hp' ?]. simpl in *. split; [| done].
      apply elem_of_app in Hp' as [? | ->%list_elem_of_singleton]; done.
Qed.

(** The loop of [topological_sort] over the registered nodes: the roots
    among them end up in the list, which is in topological order. *)
Lemma root_scan_topo (vs : list nat) st st' :
  foldM (λ s node,
    b ← has_incoming node;
    if truthy b then mret s
    else visit (S (length (nodes w))) node s) vs st w = (Val st', w) →
  tsort_ok st → topo_ok E st.2 → (∀ p, p ∈ st.1 → p ∈ st.2) →
  Forall (acyclic_from w) vs →
  topo_ok E st'.2 ∧
  (∀ r n, r ∈ vs → nodes w !! r = Some n → incoming n = [] → r ∈ st'.2).
Proof.
  revert st. induction vs as [| r vs IH]; intros st Hrun Hok Htopo Hdone Hacy.
  - injection Hrun as <-. split; [done | by intros ? ? ?%elem_of_nil].
  - apply Forall_cons in Hacy as [Hacy_r Hacy].
    rewrite foldM_cons, bind_assoc, bind_run in Hrun.
    destruct (nodes w !! r) as [n |] eqn:Hn; cycle 1.
    { unfold has_incoming, deref in Hrun. rewrite bind_run, Hn in Hrun. done. }
    rewrite (has_incoming_run _ _ _ Hn) in Hrun. unfold truthy in Hrun.
    case_bool_decide as Hinc.
    + rewrite (bind_val _ _ _ _ _ (ret_run st w)) in Hrun.
      destruct (IH st Hrun Hok Htopo Hdone Hacy) as (Htopo' & Hroots).
      split; [done |]. intros r' n' [-> | Hr']%elem_of_cons Hn' Hinc'; [| eauto].
      congruence.
    + rewrite bind_run in Hrun.
      destruct (visit (S (length (nodes w))) r st w) as [[s1 | e] w1] eqn:Hv; [| done].
      destruct (visit_grown _ _ _ _ _ _ Hv) as (-> & Hg1 & _).
      destruct (visit_topo _ _ _ _ Hv Hok Htopo) as (Htopo1 & Hr1 & Hsame1);
        [by intros p Hp1%Hdone ? | done |].
      assert (∃ st'', foldM (λ s node,
                b ← has_incoming node;
                if truthy b then mret s
                else visit (S (length (nodes w))) node s) vs s1 w = (Val st'', w) ∧
                st'' = st') as (st'' & Hrun' & ->) by (exists st'; done).
      assert (grown s1 st') as Hg2.
      { clear -Hrun'. revert s1 Hrun'. induction vs as [| r' vs IHvs]; intros s1 Hrun'.
        - injection Hrun' as <-. apply grown_refl.
        - rewrite foldM_cons, bind_assoc, bind_run in Hrun'.
          destruct (has_incoming r' w) as [[b | e] w1] eqn:Hb; [| done].
          assert (w1 = w) as ->.
          { unfold has_incoming, deref in Hb. rewrite bind_run in Hb.
            destruct (nodes w !! r'); by injection Hb. }
          destruct (truthy b).
          + rewrite (bind_val _ _ _ _ _ (ret_run s1 w)) in Hrun'. auto.
          + rewrite bind_run in Hrun'.
            destruct (visit (S (length (nodes w))) r' s1 w) as [[s2 | e] w2] eqn:Hv;
              [| done].
            destruct (visit_grown _ _ _ _ _ _ Hv) as (-> & Hg & _).
            eapply grown_trans; [done | auto]. }
      destruct (IH s1 Hrun' (grown_tsort_ok _ _ Hg1 Hok) Htopo1) as (Htopo' & Hroots).
      { intros p Hp. destruct (decide (p ∈ s1.2)) as [? | HpT]; [done |].
        destruct (Hsame1 p Hp HpT) as [Hp0 HpT0]. by apply Hdone in Hp0. }
      { done. }
      split; [done |]. intros r' n' [-> | Hr']%elem_of_cons Hn' Hinc'; [| eauto].
      by eapply grown_tsort.
Qed.

End visit_order.

(** ** [create_from_dict]: the graph it builds *)

Lemma built_keyed w d es :
  built w d es → keyed_by_name w (mkDigraph d).
Proof. intros Hb k r Hin. eexists. split; [by apply Hb | done]. Qed.

Lemma built_ref_of w d es k r :
  NoDup (dict_keys d) → built w d es → (k, r) ∈ d → ref_of d k = r.
Proof. intros Hnd _ Hin. unfold ref_of. by rewrite (dict_get_NoDup _ _ _ Hnd Hin). Qed.

Lemma built_ref_inj w d es k k' r :
  built w d es → (k, r) ∈ d → (k', r) ∈ d → k = k'.
Proof. intros Hb H1 H2. pose proof (Hb _ _ H1). pose proof (Hb _ _ H2). congruence. Qed.

Lemma declared_elem (d : list (string * nat)) k :
  k ∈ dict_keys d → (k, ref_of d k) ∈ d.
Proof.
  intros [r Hr]%dict_get_is_Some. unfold ref_of. rewrite Hr.
  by apply dict_get_Some_elem.
Qed.

(** *** The first run *)

Lemma first_run_ok g ks : ∀ w d0,
  graphs w !! g = Some (mkDigraph d0) →
  NoDup (dict_keys d0 ++ ks) → built w d0 [] →
  ∃ d1,
    for_each ks (λ node_name,
      named_node ← new_node node_name;
      add_node g named_node) w
    = (Val (), mkWorld (nodes w ++ ((λ k, mkNode k [] []) <$> ks))
                       (<[g := mkDigraph d1]> (graphs w))) ∧
    dict_keys d1 = dict_keys d0 ++ ks ∧
    built (mkWorld (nodes w ++ ((λ k, mkNode k [] []) <$> ks))
                   (<[g := mkDigraph d1]> (graphs w))) d1 [] ∧
    ∀ r, r ∈ dict_values d1 → r ∈ dict_values d0 ∨ length (nodes w) ≤ r.
Proof.
  induction ks as [| k ks IH]; intros w d0 Hg Hnd Hb.
  - exists d0. simpl. rewrite !app_nil_r, list_insert_id by done.
    split; [by destruct w |]. split; [done |]. split; [by destruct w | auto].
  - set (r := length (nodes w)).
    set (w1 := mkWorld (nodes w ++ [mkNode k [] []]) (graphs w)).
    assert (nodes w1 !! r = Some (mkNode k [] [])) as Hr.
    { simpl. by rewrite list_lookup_middle. }
    assert (built w1 d0 []) as Hb1.
    { intros k' r' Hin. simpl. apply lookup_app_l_Some. by apply Hb. }
    assert (k ∉ dict_keys d0) as Hfresh.
    { apply NoDup_app in Hnd as (_ & Hdis & _). intros Hk.
      apply (Hdis k Hk). apply elem_of_cons. by left. }
    assert (¬ name_taken w1 (mkDigraph d0) k) as Hfree.
    { rewrite (name_taken_key _ _ _ (built_keyed _ _ _ Hb1)). done. }
    assert (Forall (λ r, is_Some (nodes w1 !! r)) (dict_values d0)) as Hvalid.
    { apply Forall_forall. intros r' ([k' r''] & -> & Hin)%list_elem_of_fmap.
      eexists. by apply Hb1. }
    pose proof (add_node_free w1 g (mkDigraph d0) r (mkNode k [] []) Hg Hr Hvalid Hfree)
      as Hadd.
    unfold registered_world in Hadd. simpl in Hadd.
    rewrite dict_set_fresh in Hadd by done.
    set (w2 := mkWorld (nodes w ++ [mkNode k [] []])
                       (<[g := mkDigraph (d0 ++ [(k, r)])]> (graphs w))) in *.
    destruct (IH w2 (d0 ++ [(k, r)])) as (d1 & Hrun & Hkeys & Hb2 & Hnew).
    + simpl. apply list_lookup_insert_eq. by eapply lookup_lt_Some.
    + unfold dict_keys in *. by rewrite fmap_app, <- app_assoc.
    + intros k' r' [Hin | Hin]%elem_of_app; [by apply Hb1 |].
      apply list_elem_of_singleton in Hin. injection Hin as -> ->. done.
    + exists d1. simpl in *.
      rewrite list_insert_insert_eq, <- app_assoc in Hrun.
      rewrite list_insert_insert_eq, <- app_assoc in Hb2.
      split; [| split; [| split; [done |]]].
      * rewrite bind_assoc. rewrite (bind_val (new_node k) _ w r w1 eq_refl).
        rewrite (bind_val _ _ _ _ _ Hadd). apply Hrun.
      * rewrite Hkeys. unfold dict_keys. by rewrite fmap_app, <- app_assoc.
      * intros r' Hr'. destruct (Hnew r' Hr') as [Hold | Hge].
        -- unfold dict_values in Hold. rewrite fmap_app in Hold.
           apply elem_of_app in Hold as [? | Heq]; [by left |].
           apply list_elem_of_singleton in Heq. simpl in Heq. right. subst r'. done.
        -- right. rewrite length_app in Hge. simpl in Hge. lia.
Qed.

(** *** The second run *)

Lemma same_weight_sorted z l :
  Forall (λ e, get_weight e = z) l → weight_sorted l.
Proof.
  induction 1 as [| e l He Hl IH]; constructor; [done |].
  eapply Forall_impl; [done |]. unfold weight_le. simpl. intros. lia.
Qed.

(** An edge that is not lighter than any edge of the list goes last. *)
Lemma insort_append a x :
  weight_sorted a → Forall (λ e, weight_le e x) a → insort a x = Some (a ++ [x]).
Proof.
  intros Hs Hle. destruct (insort_sorted a x Hs) as (l1 & l2 & -> & -> & _ & H2).
  apply Forall_app in Hle as [_ Hle2].
  destruct l2 as [| e l2]; [by rewrite app_nil_r |].
  apply Forall_cons in H2 as [? _]. apply Forall_cons in Hle2 as [? _].
  unfold weight_le in *. lia.
Qed.

Lemma insort_zero d (l : list string) t :
  insort (zero_edge d <$> l) (zero_edge d t) = Some (zero_edge d <$> (l ++ [t])).
Proof.
  rewrite fmap_app. apply insort_append.
  - apply (same_weight_sorted 0). apply Forall_fmap. by apply Forall_true.
  - apply Forall_fmap. apply Forall_true. intros ?. unfold weight_le. simpl. lia.
Qed.

Lemma heads_from_snoc es s t k :
  heads_from (es ++ [(s, t)]) k
  = heads_from es k ++ (if decide (s = k) then [t] else []).
Proof. unfold heads_from. rewrite omap_app. simpl. by destruct (decide (s = k)). Qed.

Lemma tails_into_snoc es s t k :
  tails_into (es ++ [(s, t)]) k
  = tails_into es k ++ (if decide (t = k) then [s] else []).
Proof. unfold tails_into. rewrite omap_app. simpl. by destruct (decide (t = k)). Qed.

Lemma extends_refl d w : extends d w w.
Proof. done. Qed.

Lemma extends_trans d w1 w2 w3 : extends d w1 w2 → extends d w2 w3 → extends d w1 w3.
Proof.
  intros (Hg1 & Hl1 & Hn1) (Hg2 & Hl2 & Hn2).
  split; [congruence |]. split; [congruence | auto].
Qed.

(** One edge between two declared names. *)
Lemma link_step w g d es s t :
  graphs w !! g = Some (mkDigraph d) → NoDup (dict_keys d) → built w d es →
  s ∈ dict_keys d → t ∈ dict_keys d →
  ∃ w', create_edge g (ref_of d s) (ref_of d t) 0 w = (Val (), w') ∧
        extends d w w' ∧ built w' d (es ++ [(s, t)]).
Proof.
  intros Hg Hnd Hb Hs Ht.
  pose proof (declared_elem _ _ Hs) as Hsd. pose proof (declared_elem _ _ Ht) as Htd.
  pose proof (Hb _ _ Hsd) as Ha. pose proof (Hb _ _ Htd) as Hbn.
  destruct (create_edge_ok w g (mkDigraph d) _ _ 0 _ _ Hg Ha Hbn) as (w' & Hrun & Hl).
  { simpl. by apply dict_get_NoDup. }
  { simpl. by apply dict_get_NoDup. }
  exists w'. split; [done |]. destruct Hl as (Hgr & Hlen & Hall). split.
  { split; [done |]. split; [done |]. intros r n Hn Hr.
    destruct (Hall _ _ Hn) as (n' & Hn' & Hname & Hout & Hinc).
    assert (r ≠ ref_of d s) as Hrs.
    { intros ->. apply Hr. apply list_elem_of_fmap. by eexists (_, _). }
    assert (r ≠ ref_of d t) as Hrt.
    { intros ->. apply Hr. apply list_elem_of_fmap. by eexists (_, _). }
    rewrite decide_False in Hout by done. rewrite decide_False in Hinc by done.
    rewrite Hn'. destruct n, n'. simpl in *. congruence. }
  intros k r Hin. destruct (Hall _ _ (Hb _ _ Hin)) as (n' & Hn' & Hname & Hout & Hinc).
  rewrite Hn'. f_equal. destruct n' as [name' inc' out']. simpl in *.
  rewrite heads_from_snoc, tails_into_snoc.
  assert (r = ref_of d s ↔ s = k) as Hrs.
  { split; [intros -> | intros ->].
    - by eapply built_ref_inj.
    - symmetry. by eapply built_ref_of. }
  assert (r = ref_of d t ↔ t = k) as Hrt.
  { split; [intros -> | intros ->].
    - by eapply built_ref_inj.
    - symmetry. by eapply built_ref_of. }
  f_equal; [done | |].
  - destruct (decide (r = ref_of d t)) as [Heq | Hne].
    + rewrite decide_True by (by apply Hrt).
      fold (zero_edge d s) in Hinc. rewrite insort_zero in Hinc. by injection Hinc.
    + rewrite decide_False by (by rewrite <- Hrt). by rewrite app_nil_r.
  - destruct (decide (r = ref_of d s)) as [Heq | Hne].
    + rewrite decide_True by (by apply Hrs).
      fold (zero_edge d t) in Hout. rewrite insort_zero in Hout. by injection Hout.
    + rewrite decide_False by (by rewrite <- Hrs). by rewrite app_nil_r.
Qed.

Lemma for_each_ext {A} (l : list A) (body1 body2 : A → M unit) w :
  (∀ x w', body1 x w' = body2 x w') → for_each l body1 w = for_each l body2 w.
Proof.
  intros H. revert w. induction l as [| x l IH]; intros w; simpl; [done |].
  rewrite !bind_run, H. destruct (body2 x w) as [[? | ?] ?]; [apply IH | done].
Qed.

Lemma for_each_app {A} (l1 l2 : list A) (body : A → M unit) w :
  for_each (l1 ++ l2) body w = (for_each l1 body;; for_each l2 body) w.
Proof.
  revert w. induction l1 as [| x l1 IH]; intros w; simpl; [done |].
  rewrite bind_assoc. apply bind_ext. intros _ w'. apply IH.
Qed.

Lemma create_from_dict_unfold self m node_gen_func w :
  create_from_dict self m node_gen_func w
  = (for_each (dict_keys m) (λ node_name,
       named_node ← node_gen_func node_name;
       add_node self named_node);;
     for_each m (link_entry self)) w.
Proof.
  unfold create_from_dict. apply bind_ext. intros _ w'.
  apply for_each_ext. by intros [k outs] w''.
Qed.

Lemma for_each_cons {A} (x : A) l (body : A → M unit) w :
  for_each (x :: l) body w = (body x;; for_each l body) w.
Proof. reflexivity. Qed.

Lemma link_target_run w g d a t :
  graphs w !! g = Some (mkDigraph d) → t ∈ dict_keys d →
  link_target g (Some a) t w = create_edge g a (ref_of d t) 0 w.
Proof.
  intros Hg [b Hb]%dict_get_is_Some. unfold link_target, ref_of.
  rewrite (bind_val _ _ _ _ _ (find_run _ _ _ _ Hg)). simpl. by rewrite Hb.
Qed.

Lemma link_target_undeclared w g d node_from t :
  graphs w !! g = Some (mkDigraph d) → t ∉ dict_keys d →
  link_target g node_from t w = (Exn (not_specified t), w).
Proof.
  intros Hg Hb%dict_get_None. unfold link_target.
  rewrite (bind_val _ _ _ _ _ (find_run _ _ _ _ Hg)). simpl. by rewrite Hb.
Qed.

Lemma link_entry_run w g d k outs :
  graphs w !! g = Some (mkDigraph d) → k ∈ dict_keys d →
  link_entry g (k, outs) w
  = for_each outs (link_target g (Some (ref_of d k))) w.
Proof.
  intros Hg [a Ha]%dict_get_is_Some. unfold link_entry, ref_of.
  rewrite (bind_val _ _ _ _ _ (find_run _ _ _ _ Hg)). simpl. by rewrite Ha.
Qed.

Lemma link_targets_ok g d k outs : ∀ w es,
  graphs w !! g = Some (mkDigraph d) → NoDup (dict_keys d) → built w d es →
  k ∈ dict_keys d → Forall (λ t, t ∈ dict_keys d) outs →
  ∃ w', for_each outs (link_target g (Some (ref_of d k))) w = (Val (), w') ∧
        extends d w w' ∧ built w' d (es ++ ((λ t, (k, t)) <$> outs)).
Proof.
  induction outs as [| t outs IH]; intros w es Hg Hnd Hb Hk Houts.
  - exists w. simpl. by rewrite app_nil_r.
  - apply Forall_cons in Houts as [Ht Houts].
    destruct (link_step w g d es k t Hg Hnd Hb Hk Ht) as (w1 & Hrun1 & He1 & Hb1).
    destruct (IH w1 (es ++ [(k, t)])) as (w' & Hrun & He' & Hb');
      [by rewrite (proj1 He1) | done .. |].
    exists w'. split; [| split; [by eapply extends_trans |]].
    + rewrite for_each_cons, bind_run, (link_target_run _ _ _ _ _ Hg Ht).
      by rewrite Hrun1.
    + simpl. by rewrite <- app_assoc in Hb'.
Qed.

(** The second run on a dictionary whose targets are all registered. *)
Lemma second_run_ok g d m : ∀ w es,
  graphs w !! g = Some (mkDigraph d) → NoDup (dict_keys d) → built w d es →
  Forall (λ entry, entry.1 ∈ dict_keys d ∧
                   Forall (λ t, t ∈ dict_keys d) entry.2) m →
  ∃ w', for_each m (link_entry g) w = (Val (), w') ∧
        extends d w w' ∧ built w' d (es ++ edges_of m).
Proof.
  induction m as [| [k outs] m IH]; intros w es Hg Hnd Hb Hm.
  - exists w. simpl. by rewrite app_nil_r.
  - apply Forall_cons in Hm as [[Hk Houts] Hm]. simpl in Hk, Houts.
    destruct (link_targets_ok g d k outs w es Hg Hnd Hb Hk Houts)
      as (w1 & Hrun1 & He1 & Hb1).
    destruct (IH w1 (es ++ ((λ t, (k, t)) <$> outs))) as (w' & Hrun & He' & Hb');
      [by rewrite (proj1 He1) | done .. |].
    exists w'. split; [| split; [by eapply extends_trans |]].
    + rewrite for_each_cons, bind_run, (link_entry_run _ _ _ _ _ Hg Hk).
      by rewrite Hrun1.
    + unfold edges_of. simpl. fold (edges_of m). by rewrite app_assoc.
Qed.

(** *** The graph of a dictionary *)

Lemma heads_from_elem es k t : t ∈ heads_from es k ↔ (k, t) ∈ es.
Proof.
  unfold heads_from. rewrite list_elem_of_omap. split.
  - intros ([s t'] & Hin & Hs). destruct (decide (s = k)) as [-> |]; [| done].
    by injection Hs as ->.
  - intros Hin. exists (k, t). split; [done |]. by rewrite decide_True.
Qed.

Lemma tails_into_elem es k s : s ∈ tails_into es k ↔ (s, k) ∈ es.
Proof.
  unfold tails_into. rewrite list_elem_of_omap. split.
  - intros ([s' t] & Hin & Hs). destruct (decide (t = k)) as [-> |]; [| done].
    by injection Hs as ->.
  - intros Hin. exists (s, k). split; [done |]. by rewrite decide_True.
Qed.

Lemma edges_of_elem m s t :
  (s, t) ∈ edges_of m ↔ ∃ outs, (s, outs) ∈ m ∧ t ∈ outs.
Proof.
  unfold edges_of. rewrite list_elem_of_bind. split.
  - intros ([k outs] & Hin & Hm). apply list_elem_of_fmap in Hin as (t' & [= -> ->] & Ht).
    by exists outs.
  - intros (outs & Hm & Ht). exists (s, outs). split; [| done].
    apply list_elem_of_fmap. by exists t.
Qed.

Lemma heads_from_app es1 es2 k :
  heads_from (es1 ++ es2) k = heads_from es1 k ++ heads_from es2 k.
Proof. apply omap_app. Qed.

Lemma heads_from_entry k0 outs k :
  heads_from ((λ t, (k0, t)) <$> outs) k = if decide (k0 = k) then outs else [].
Proof.
  induction outs as [| t outs IH].
  - by destruct (decide (k0 = k)).
  - change (heads_from ((λ t, (k0, t)) <$> t :: outs) k)
      with (heads_from ([(k0, t)] ++ ((λ t, (k0, t)) <$> outs)) k).
    rewrite heads_from_app, IH. unfold heads_from. simpl.
    by destruct (decide (k0 = k)).
Qed.

Lemma heads_from_edges_of m k outs :
  NoDup (dict_keys m) → (k, outs) ∈ m → heads_from (edges_of m) k = outs.
Proof.
  unfold dict_keys. induction m as [| [k0 outs0] m IH]; intros Hnd Hin.
  - by apply elem_of_nil in Hin.
  - apply NoDup_cons in Hnd as [Hk0 Hnd].
    change (edges_of ((k0, outs0) :: m))
      with (((λ t, (k0, t)) <$> outs0) ++ edges_of m).
    rewrite heads_from_app, heads_from_entry.
    apply elem_of_cons in Hin as [[= -> ->] | Hin].
    + rewrite decide_True by done.
      assert (heads_from (edges_of m) k0 = []) as ->; [| by rewrite app_nil_r].
      destruct (heads_from (edges_of m) k0) as [| t l] eqn:Hh; [done |].
      assert (t ∈ heads_from (edges_of m) k0) as Ht by (rewrite Hh; apply elem_of_cons; by left).
      apply heads_from_elem, edges_of_elem in Ht as (outs' & Hm & _).
      destruct Hk0. apply list_elem_of_fmap. by exists (k0, outs').
    + rewrite decide_False; [by apply IH |].
      intros ->. apply Hk0. apply list_elem_of_fmap. by exists (k, outs).
Qed.

Lemma declared_intro m :
  Forall (λ entry, Forall (λ t, t ∈ dict_keys m) entry.2) m → declared m.
Proof.
  intros Hall k outs t Hin Ht. rewrite Forall_forall in Hall.
  specialize (Hall _ Hin). simpl in Hall. rewrite Forall_forall in Hall. auto.
Qed.

(** The dictionary is declared over the keys of [d]. *)
Lemma declared_Forall m (d : list (string * nat)) :
  declared m → dict_keys d = dict_keys m →
  Forall (λ entry, entry.1 ∈ dict_keys d ∧
                   Forall (λ t, t ∈ dict_keys d) entry.2) m.
Proof.
  intros Hdecl Hkeys. apply Forall_forall. intros [k outs] Hin. simpl. rewrite Hkeys.
  split.
  - apply list_elem_of_fmap. by exists (k, outs).
  - apply Forall_forall. intros t Ht. by eapply Hdecl.
Qed.

(** [digraph_create_from_dict] on a dictionary whose targets are all keys:
    the new graph holds a node for every key, every node holds its edges in
    the order of the dictionary, and nothing else has changed. *)
Lemma digraph_create_ok w m :
  NoDup (dict_keys m) → declared m →
  ∃ d w',
    digraph_create_from_dict m new_node w = (Val (length (graphs w)), w') ∧
    graphs w' = graphs w ++ [mkDigraph d] ∧
    dict_keys d = dict_keys m ∧
    built w' d (edges_of m) ∧
    (∀ r, r ∈ dict_values d → length (nodes w) ≤ r) ∧
    (∀ r n, nodes w !! r = Some n → nodes w' !! r = Some n).
Proof.
  intros Hnd Hdecl. unfold digraph_create_from_dict.
  set (g := length (graphs w)).
  set (w0 := mkWorld (nodes w) (graphs w ++ [mkDigraph []])).
  rewrite (bind_val new_digraph _ w g w0 eq_refl).
  assert (graphs w0 !! g = Some (mkDigraph [])) as Hg0.
  { simpl. by rewrite list_lookup_middle. }
  destruct (first_run_ok g (dict_keys m) w0 [] Hg0) as (d & Hrun1 & Hkeys & Hb1 & Hnew).
  { done. }
  { by intros ? ? ?%elem_of_nil. }
  set (w1 := mkWorld (nodes w0 ++ ((λ k, mkNode k [] []) <$> dict_keys m))
                     (<[g := mkDigraph d]> (graphs w0))) in *.
  assert (graphs w1 !! g = Some (mkDigraph d)) as Hg1.
  { simpl. apply list_lookup_insert_eq. rewrite length_app. simpl. unfold g. lia. }
  assert (NoDup (dict_keys d)) as Hndd by (by rewrite Hkeys).
  destruct (second_run_ok g d m w1 [] Hg1 Hndd Hb1 (declared_Forall _ _ Hdecl Hkeys))
    as (w' & Hrun2 & (Hgr & Hlen & Hframe) & Hb2).
  exists d, w'. split.
  { assert (create_from_dict g m new_node w0 = (Val (), w')) as Hrun.
    { rewrite create_from_dict_unfold, (bind_val _ _ _ _ _ Hrun1). apply Hrun2. }
    by rewrite (bind_val _ _ _ _ _ Hrun). }
  split.
  { rewrite Hgr. simpl. unfold g.
    rewrite insert_app_r_alt by done. by rewrite Nat.sub_diag. }
  split; [done |]. split; [done |]. split.
  - intros r Hr. destruct (Hnew r Hr) as [?%elem_of_nil | ?]; done.
  - intros r n Hn. apply Hframe.
    + simpl. by apply lookup_app_l_Some.
    + intros Hr. destruct (Hnew r Hr) as [?%elem_of_nil | Hge]; [done |].
      apply lookup_lt_Some in Hn. simpl in Hge. lia.
Qed.

Lemma names_in_zero w d es (l : list string) :
  built w d es → Forall (λ t, t ∈ dict_keys d) l →
  names_in w (zero_edge d <$> l) = l.
Proof.
  intros Hb. induction 1 as [| t l Ht _ IH]; [done |].
  rewrite fmap_cons.
  change (names_in w (zero_edge d t :: (zero_edge d <$> l)))
    with (match get_name <$> nodes w !! ref_of d t with
          | Some y => y :: names_in w (zero_edge d <$> l)
          | None => names_in w (zero_edge d <$> l)
          end).
  rewrite (Hb _ _ (declared_elem _ _ Ht)). simpl. by rewrite IH.
Qed.

(** The export of the graph built from a dictionary is the dictionary. *)
Lemma as_dict_built w g d m :
  graphs w !! g = Some (mkDigraph d) →
  NoDup (dict_keys m) → declared m → dict_keys d = dict_keys m →
  built w d (edges_of m) →
  as_dict g w = (Val m, w).
Proof.
  intros Hg Hnd Hdecl Hkeys Hb.
  assert (∀ k, Forall (λ t, t ∈ dict_keys d) (heads_from (edges_of m) k)) as Hheads.
  { intros k. apply Forall_forall. intros t Ht.
    apply heads_from_elem, edges_of_elem in Ht as (outs & Hin & Ht).
    rewrite Hkeys. by eapply Hdecl. }
  rewrite (as_dict_run _ _ _ Hg); simpl.
  - f_equal. f_equal.
    transitivity ((λ k, (k, heads_from (edges_of m) k)) <$> dict_keys d).
    + unfold dict_keys. rewrite <- list_fmap_compose.
      apply list_fmap_ext. intros i [k r] Hi. apply list_elem_of_lookup_2 in Hi.
      unfold export_entry, outgoing_of. simpl. rewrite (Hb _ _ Hi). simpl.
      f_equal. by eapply names_in_zero.
    + rewrite Hkeys. unfold dict_keys. rewrite <- list_fmap_compose.
      rewrite <- (list_fmap_id m) at 2.
      apply list_fmap_ext. intros i [k outs] Hi. apply list_elem_of_lookup_2 in Hi.
      simpl. f_equal. by apply heads_from_edges_of.
  - by rewrite Hkeys.
  - by eapply built_keyed.
  - intros k r n Hin Hn. rewrite (Hb _ _ Hin) in Hn. injection Hn as <-. simpl.
    apply Forall_fmap. eapply Forall_impl; [apply Hheads |].
    intros t Ht. simpl. eexists. apply Hb. by apply declared_elem.
Qed.

(** ** The round trip through [as_dict] *)

(** C3: for a dictionary [m] whose targets are all keys, building the
    graph of [m] succeeds, and exporting it, building a graph from the
    export and exporting that graph gives the export of the first graph
    again, key for key and list for list; both exports are [m] itself. *)
Theorem as_dict_round_trip w m :
  NoDup (dict_keys m) → declared m →
  ∃ g w1 w2,
    digraph_create_from_dict m new_node w = (Val g, w1) ∧
    round_trip g w1 = (Val (m, m), w2).
Proof.
  intros Hnd Hdecl.
  destruct (digraph_create_ok w m Hnd Hdecl) as (d & w1 & Hrun1 & Hg1 & Hk1 & Hb1 & _ & _).
  destruct (digraph_create_ok w1 m Hnd Hdecl) as (d2 & w2 & Hrun2 & Hg2 & Hk2 & Hb2 & _ & Hfr).
  assert (graphs w1 !! length (graphs w) = Some (mkDigraph d)) as Hl1.
  { rewrite Hg1. by rewrite list_lookup_middle. }
  assert (graphs w2 !! length (graphs w1) = Some (mkDigraph d2)) as Hl2.
  { rewrite Hg2. by rewrite list_lookup_middle. }
  assert (graphs w2 !! length (graphs w) = Some (mkDigraph d)) as Hl12.
  { rewrite Hg2. by apply lookup_app_l_Some. }
  assert (built w2 d (edges_of m)) as Hb12.
  { intros k r Hin. apply Hfr. by apply Hb1. }
  exists (length (graphs w)), w1, w2. split; [done |]. unfold round_trip.
  rewrite (bind_val _ _ _ _ _ (as_dict_built _ _ _ _ Hl1 Hnd Hdecl Hk1 Hb1)).
  rewrite (bind_val _ _ _ _ _ Hrun2).
  rewrite (bind_val _ _ _ _ _ (as_dict_built _ _ _ _ Hl2 Hnd Hdecl Hk2 Hb2)).
  by rewrite (bind_val _ _ _ _ _ (as_dict_built _ _ _ _ Hl12 Hnd Hdecl Hk1 Hb12)).
Qed.

Lemma as_dict_round_trip_witness :
  ∃ g w1 w2,
    digraph_create_from_dict [("A", ["B"; "C"]); ("B", []); ("C", [])] new_node empty_world
    = (Val g, w1) ∧
    round_trip g w1
    = (Val ([("A", ["B"; "C"]); ("B", []); ("C", [])],
            [("A", ["B"; "C"]); ("B", []); ("C", [])]), w2).
Proof.
  apply (as_dict_round_trip empty_world [("A", ["B"; "C"]); ("B", []); ("C", [])]).
  - unfold dict_keys. simpl. apply (bool_decide_unpack _). by vm_compute.
  - apply declared_intro. apply (bool_decide_unpack _). by vm_compute.
Defined.

(** ** A target that is not a key *)

(** The first element of a list with a decidable property. *)
Lemma Exists_first {A} (P : A → Prop) `{∀ x, Decision (P x)} (l : list A) :
  Exists P l → ∃ l1 x l2, l = l1 ++ x :: l2 ∧ Forall (λ y, ¬ P y) l1 ∧ P x.
Proof.
  induction l as [| y l IH]; intros Hex; [by apply Exists_nil in Hex |].
  destruct (decide (P y)) as [Hy | Hy].
  - exists [], y, l. by repeat split.
  - apply Exists_cons in Hex as [? | Hex]; [done |].
    destruct (IH Hex) as (l1 & x & l2 & -> & Hl1 & Hx).
    exists (y :: l1), x, l2. split; [done |]. split; [by constructor | done].
Qed.

(** The second run up to the first target that is not registered. *)
Lemma second_run_undeclared g d m1 k o1 t o2 m2 w :
  graphs w !! g = Some (mkDigraph d) → NoDup (dict_keys d) → built w d [] →
  Forall (λ entry, entry.1 ∈ dict_keys d ∧
                   Forall (λ t, t ∈ dict_keys d) entry.2) m1 →
  k ∈ dict_keys d → Forall (λ t, t ∈ dict_keys d) o1 → t ∉ dict_keys d →
  ∃ w', for_each (m1 ++ (k, o1 ++ t :: o2) :: m2) (link_entry g) w
        = (Exn (not_specified t), w') ∧
        extends d w w' ∧
        built w' d (edges_of m1 ++ ((λ t, (k, t)) <$> o1)).
Proof.
  intros Hg Hnd Hb Hm1 Hk Ho1 Ht.
  destruct (second_run_ok g d m1 w [] Hg Hnd Hb Hm1) as (w1 & Hrun1 & He1 & Hb1).
  assert (graphs w1 !! g = Some (mkDigraph d)) as Hg1 by (by rewrite (proj1 He1)).
  destruct (link_targets_ok g d k o1 w1 _ Hg1 Hnd Hb1 Hk Ho1) as (w2 & Hrun2 & He2 & Hb2).
  assert (graphs w2 !! g = Some (mkDigraph d)) as Hg2 by (by rewrite (proj1 He2)).
  exists w2. split; [| split; [by eapply extends_trans | done]].
  rewrite for_each_app, (bind_val _ _ _ _ _ Hrun1).
  rewrite for_each_cons. apply bind_exn.
  rewrite (link_entry_run _ _ _ _ _ Hg1 Hk).
  rewrite for_each_app, (bind_val _ _ _ _ _ Hrun2).
  rewrite for_each_cons. apply bind_exn.
  by apply (link_target_undeclared _ _ d).
Qed.

(** C6: the first run goes through for all keys and leaves a store in
    which every key has its registered node and no registered node has an
    edge; the call is the second run from that store; when an adjacency
    list names a target that is not a key, the call raises the error for
    such a target, with every key still registered; and for [{A: [B]}] the
    call raises for [B] in a store where [A] is registered and has no
    edge. *)
Theorem create_from_dict_two_runs w m :
  NoDup (dict_keys m) →
  ∃ d w1,
    first_run m w = (Val (length (graphs w)), w1) ∧
    graphs w1 !! length (graphs w) = Some (mkDigraph d) ∧
    dict_keys d = dict_keys m ∧
    built w1 d [] ∧
    digraph_create_from_dict m new_node w
    = (for_each m (link_entry (length (graphs w)));; mret (length (graphs w))) w1 ∧
    (undeclared m →
     ∃ t w',
       digraph_create_from_dict m new_node w = (Exn (not_specified t), w') ∧
       (t ∉ dict_keys m) ∧ (∃ k outs, (k, outs) ∈ m ∧ t ∈ outs) ∧
       graphs w' !! length (graphs w) = Some (mkDigraph d)) ∧
    digraph_create_from_dict [("A", ["B"])] new_node empty_world
    = (Exn (not_specified "B"),
       mkWorld [mkNode "A" [] []] [mkDigraph [("A", 0)]]).
Proof.
  intros Hnd. set (g := length (graphs w)).
  set (w0 := mkWorld (nodes w) (graphs w ++ [mkDigraph []])).
  assert (graphs w0 !! g = Some (mkDigraph [])) as Hg0.
  { simpl. by rewrite list_lookup_middle. }
  destruct (first_run_ok g (dict_keys m) w0 [] Hg0) as (d & Hrun1 & Hkeys & Hb1 & _).
  { done. }
  { by intros ? ? ?%elem_of_nil. }
  set (w1 := mkWorld (nodes w0 ++ ((λ k, mkNode k [] []) <$> dict_keys m))
                     (<[g := mkDigraph d]> (graphs w0))) in *.
  assert (graphs w1 !! g = Some (mkDigraph d)) as Hg1.
  { simpl. apply list_lookup_insert_eq. rewrite length_app. simpl. unfold g. lia. }
  assert (NoDup (dict_keys d)) as Hndd by (by rewrite Hkeys).
  assert (digraph_create_from_dict m new_node w
          = (for_each m (link_entry g);; mret g) w1) as Hwhole.
  { unfold digraph_create_from_dict.
    rewrite (bind_val new_digraph _ w g w0 eq_refl).
    rewrite !bind_run, create_from_dict_unfold, (bind_val _ _ _ _ _ Hrun1).
    done. }
  exists d, w1. split.
  { unfold first_run. rewrite (bind_val new_digraph _ w g w0 eq_refl).
    by rewrite (bind_val _ _ _ _ _ Hrun1). }
  split; [done |]. split; [done |]. split; [done |]. split; [done |].
  split; [| by vm_compute].
  intros Hun. unfold undeclared in Hun.
  destruct (Exists_first _ _ Hun) as (m1 & [k outs] & m2 & Hm & Hm1 & Houts).
  destruct (Exists_first _ _ Houts) as (o1 & t & o2 & Ho & Ho1 & Ht). simpl in Ho.
  destruct (second_run_undeclared g d m1 k o1 t o2 m2 w1 Hg1 Hndd Hb1)
    as (w' & Hrun2 & He & _).
  - apply Forall_forall. intros [k' outs'] Hin. simpl. rewrite Hkeys. split.
    + apply list_elem_of_fmap. exists (k', outs'). split; [done |].
      rewrite Hm. apply elem_of_app. by left.
    + rewrite Forall_forall in Hm1. specialize (Hm1 _ Hin).
      apply Forall_forall. intros t' Ht'. simpl in Hm1.
      apply dec_stable. intros Hn. apply Hm1. apply Exists_exists. eauto.
  - rewrite Hkeys. apply list_elem_of_fmap. exists (k, outs). split; [done |].
    rewrite Hm. apply elem_of_app. right. apply elem_of_cons. by left.
  - apply Forall_forall. intros t' Ht'. rewrite Forall_forall in Ho1.
    rewrite Hkeys. apply dec_stable. intros Hn. by apply (Ho1 _ Ht').
  - by rewrite Hkeys.
  - exists t, w'. split; [| split; [done | split]].
    + rewrite Hwhole. apply bind_exn. by rewrite Hm, Ho.
    + exists k, outs. split.
      * rewrite Hm. apply elem_of_app. right. apply elem_of_cons. by left.
      * rewrite Ho. apply elem_of_app. right. apply elem_of_cons. by left.
    + by rewrite (proj1 He).
Qed.

(** [{A: [B]}]: the call raises for [B]; the node [A] is registered and no
    edge has been created. *)
Lemma create_from_dict_two_runs_witness :
  digraph_create_from_dict [("A", ["B"])] new_node empty_world
  = (Exn (not_specified "B"),
     mkWorld [mkNode "A" [] []] [mkDigraph [("A", 0)]]) ∧
  ∃ t w',
    digraph_create_from_dict [("A", ["B"])] new_node empty_world
    = (Exn (not_specified t), w') ∧ t ∉ dict_keys [("A", ["B"])].
Proof.
  split; [by vm_compute |].
  destruct (create_from_dict_two_runs empty_world [("A", ["B"])])
    as (d & w1 & _ & _ & _ & _ & _ & Hfail & _).
  { apply (bool_decide_unpack _). by vm_compute. }
  destruct Hfail as (t & w' & Hrun & Ht & _).
  { apply (bool_decide_unpack _). by vm_compute. }
  by exists t, w'.
Defined.

(** ** The sort of the graph of an acyclic dictionary *)

Section visit_closed.
Variable w : World.
Variable S : nat → Prop.
Hypothesis S_closed : closed_under_edges w S.

Lemma visit_all_in_closed depth :
  (∀ node st st' w', visit depth node st w = (Val st', w') →
     S node → Forall S st.2 → Forall S st'.2) →
  ∀ outs st st' w', visit_all depth outs st w = (Val st', w') →
     Forall S outs → Forall S st.2 → Forall S st'.2.
Proof.
  intros IH outs. induction outs as [| o outs IHo]; intros st st' w' Hrun Houts Hst.
  - by injection Hrun as <- <-.
  - rewrite visit_all_cons, bind_run in Hrun.
    destruct (visit depth o st w) as [[s1 | e] w1] eqn:Hv; [| done].
    destruct (visit_grown _ _ _ _ _ _ Hv) as (-> & _).
    apply Forall_cons in Houts as [Ho Houts]. eauto.
Qed.

(** A visit that starts inside a closed set finishes nodes of the set
    only. *)
Lemma visit_in_closed depth node st st' w' :
  visit depth node st w = (Val st', w') →
  S node → Forall S st.2 → Forall S st'.2.
Proof.
  revert node st st' w'. induction depth as [| depth IH];
    intros node [V T] st' w' Hrun Hnode Hst; [done |].
  rewrite visit_S in Hrun. case_bool_decide as Hin; [by injection Hrun as <- <- |].
  destruct (S_closed _ Hnode) as (n & Hn & Hes).
  rewrite (bind_val _ _ _ _ _ (get_iter_outgoing_run _ _ _ Hn)), bind_run in Hrun.
  destruct (visit_all depth (get_node <$> outgoing n) (V ++ [node], T) w)
    as [[[V2 T2] | e] w2] eqn:Hall; [| done].
  injection Hrun as <- <-. simpl in *. constructor; [done |].
  apply (visit_all_in_closed depth IH _ _ _ _ Hall); [by apply Forall_fmap | done].
Qed.

Lemma root_scan_in_closed (vs : list nat) st st' w' :
  foldM (λ s node,
    b ← has_incoming node;
    if truthy b then mret s
    else visit (Datatypes.S (length (nodes w))) node s) vs st w = (Val st', w') →
  Forall S vs → Forall S st.2 → Forall S st'.2.
Proof.
  revert st. induction vs as [| r vs IH]; intros st Hrun Hvs Hst.
  - by injection Hrun as <- <-.
  - apply Forall_cons in Hvs as [Hr Hvs].
    destruct (S_closed _ Hr) as (n & Hn & _).
    rewrite foldM_cons, bind_assoc, (bind_val _ _ _ _ _ (has_incoming_run _ _ _ Hn))
      in Hrun.
    destruct (truthy (PyEdgeList (incoming n))).
    + rewrite (bind_val _ _ _ _ _ (ret_run st w)) in Hrun. eauto.
    + rewrite bind_run in Hrun.
      destruct (visit (Datatypes.S (length (nodes w))) r st w) as [[s1 | e] w1] eqn:Hv;
        [| done].
      destruct (visit_grown _ _ _ _ _ _ Hv) as (-> & _).
      apply (IH s1 Hrun Hvs). by eapply visit_in_closed.
Qed.

End visit_closed.

Lemma node_list_to_node_name_list_loop w (l : list nat) acc :
  Forall (λ r, is_Some (nodes w !! r)) l →
  foldM (λ node_name_list node,
    k ← node_name node;
    mret (node_name_list ++ [k])) l acc w
  = (Val (acc ++ (name_at w <$> l)), w).
Proof.
  intros Hl. revert acc. induction Hl as [| r l [n Hn] _ IH]; intros acc.
  - simpl. by rewrite app_nil_r.
  - rewrite foldM_cons, bind_assoc, (bind_val _ _ _ _ _ (node_name_run _ _ _ Hn)).
    rewrite bind_run. simpl. rewrite IH. unfold name_at at 2. rewrite Hn. simpl.
    by rewrite <- app_assoc.
Qed.

Lemma node_list_to_node_name_list_run w (l : list nat) :
  Forall (λ r, is_Some (nodes w !! r)) l →
  node_list_to_node_name_list l w = (Val (name_at w <$> l), w).
Proof. intros Hl. apply (node_list_to_node_name_list_loop w l [] Hl). Qed.

Section built_graph.
Variables (w : World) (d : list (string * nat)) (m : list (string * list string)).
Hypothesis keys_NoDup : NoDup (dict_keys m).
Hypothesis keys_declared : declared m.
Hypothesis keys_eq : dict_keys d = dict_keys m.
Hypothesis w_built : built w d (edges_of m).

Lemma name_edge_keys a b : name_edge m a b → a ∈ dict_keys d ∧ b ∈ dict_keys d.
Proof.
  intros (outs & Hin & Hb)%edges_of_elem. rewrite keys_eq. split.
  - apply list_elem_of_fmap. by exists (a, outs).
  - by eapply keys_declared.
Qed.

Lemma built_succ k u v :
  (k, u) ∈ d → succ w u v ↔ ∃ t, v = ref_of d t ∧ name_edge m k t.
Proof.
  intros Hin. unfold succ. rewrite (w_built _ _ Hin). split.
  - intros (n & [= <-] & Hv). simpl in Hv.
    rewrite <- list_fmap_compose in Hv.
    apply list_elem_of_fmap in Hv as (t & -> & Ht).
    exists t. split; [done |]. by apply heads_from_elem.
  - intros (t & -> & Ht). eexists. split; [done |]. simpl.
    rewrite <- list_fmap_compose. apply list_elem_of_fmap.
    exists t. split; [done |]. by apply heads_from_elem.
Qed.

Lemma built_closed : closed_under_edges w (λ r, r ∈ dict_values d).
Proof.
  intros r ([k r'] & -> & Hin)%list_elem_of_fmap. simpl.
  eexists. split; [by apply w_built |]. simpl.
  apply Forall_fmap, Forall_forall. intros t Ht. simpl.
  apply heads_from_elem in Ht. apply name_edge_keys in Ht as [_ Ht].
  apply list_elem_of_fmap. exists (t, ref_of d t). split; [done |].
  by apply declared_elem.
Qed.

Lemma built_tc k u v :
  (k, u) ∈ d → tc (succ w) u v → ∃ t, (t, v) ∈ d ∧ tc (name_edge m) k t.
Proof.
  intros Hin Htc. revert k Hin. induction Htc as [u v Huv | u x v Hux _ IH]; intros k Hin.
  - destruct (proj1 (built_succ k u v Hin) Huv) as (t & -> & Ht).
    exists t. split; [| by apply tc_once].
    apply declared_elem. by apply name_edge_keys in Ht as [_ ?].
  - destruct (proj1 (built_succ k u x Hin) Hux) as (t & -> & Ht).
    destruct (IH t) as (t' & Hin' & Htc').
    { apply declared_elem. by apply name_edge_keys in Ht as [_ ?]. }
    exists t'. split; [done |]. by eapply tc_l.
Qed.

Lemma built_rtc a b :
  a ∈ dict_keys d → rtc (name_edge m) a b → rtc (succ w) (ref_of d a) (ref_of d b).
Proof.
  intros Ha Hrtc. induction Hrtc as [| a x b Hax _ IH]; [done |].
  eapply rtc_l.
  - apply (built_succ a); [by apply declared_elem |]. by exists x.
  - apply IH. by apply name_edge_keys in Hax as [_ ?].
Qed.

Lemma built_acyclic_from r :
  acyclic m → r ∈ dict_values d → acyclic_from w r.
Proof.
  intros Hacy Hr x Hrx Hxx.
  assert (x ∈ dict_values d) as ([k x'] & -> & Hin)%list_elem_of_fmap.
  { clear Hxx. induction Hrx as [| r y x Hry _ IH]; [done |]. apply IH.
    destruct (built_closed _ Hr) as (n & Hn & Hes). destruct Hry as (n' & Hn' & Hy).
    assert (n' = n) as -> by congruence.
    apply list_elem_of_fmap in Hy as (e & -> & He).
    rewrite Forall_forall in Hes. by apply Hes. }
  simpl in *. destruct (built_tc _ _ _ Hin Hxx) as (t & Hin' & Htc).
  assert (k = t) as <- by (by eapply built_ref_inj).
  by apply (Hacy k).
Qed.

Lemma built_name_at k : k ∈ dict_keys d → name_at w (ref_of d k) = k.
Proof.
  intros Hk. unfold name_at. by rewrite (w_built _ _ (declared_elem _ _ Hk)).
Qed.

Lemma built_root k :
  k ∈ dict_keys d → (∀ s, ¬ name_edge m s k) →
  ∃ n, nodes w !! ref_of d k = Some n ∧ incoming n = [].
Proof.
  intros Hk Hroot. eexists. split; [apply w_built; by apply declared_elem |]. simpl.
  destruct (tails_into (edges_of m) k) as [| s l] eqn:Ht; [done |].
  destruct (Hroot s). apply tails_into_elem. rewrite Ht. apply elem_of_cons. by left.
Qed.

End built_graph.

(** C1: for a dictionary with unique keys whose targets are all keys,
    without a cycle and with every key reachable from a key that no edge
    points to, building the graph and sorting it returns the keys, each
    once, with the source of every edge before its target; and the sort of
    the graph of [{A: [B], B: [C], C: []}] is [[A, B, C]]. *)
Theorem topological_sort_order w m :
  NoDup (dict_keys m) → declared m → acyclic m → rooted m →
  (∃ l w', sorted_names m w = (Val l, w') ∧
           l ≡ₚ dict_keys m ∧
           ∀ a b, name_edge m a b → before l a b) ∧
  (sorted_names chain empty_world).1 = Val ["A"; "B"; "C"].
Proof.
  intros Hnd Hdecl Hacy Hroot. split; [| by vm_compute].
  destruct (digraph_create_ok w m Hnd Hdecl) as (d & w1 & Hrun1 & Hg1 & Hkeys & Hb & _ & _).
  set (g := length (graphs w)) in *.
  assert (graphs w1 !! g = Some (mkDigraph d)) as Hg.
  { rewrite Hg1. by rewrite list_lookup_middle. }
  assert (NoDup (dict_keys d)) as Hndd by (by rewrite Hkeys).
  pose proof (built_closed w1 d m Hdecl Hkeys Hb) as Hclosed.
  assert (Forall (λ r, r ∈ dict_values d) (dict_values d)) as Hvs
    by (by apply Forall_forall).
  destruct (root_scan_total w1 _ (dict_values d) ([], []) Hclosed Hvs) as ([V T] & Hscan & _).
  assert (topological_sort g w1 = (Val T, w1)) as Hsort.
  { unfold topological_sort. rewrite (bind_val get_world _ w1 w1 w1 eq_refl).
    rewrite (bind_val _ _ _ _ _ (get_iter_nodes_values_run _ _ _ Hg)).
    by rewrite (bind_val _ _ _ _ _ Hscan). }
  destruct (root_scan_topo w1 (dict_values d) ([], []) (V, T) Hscan) as (Htopo & Hroots).
  { repeat split; try constructor. by intros ? ?%elem_of_nil. }
  { constructor. }
  { by intros ? ?%elem_of_nil. }
  { apply Forall_forall. intros r Hr. by eapply built_acyclic_from. }
  simpl in Htopo, Hroots.
  assert (Forall (λ r, r ∈ dict_values d) T) as HT.
  { by apply (root_scan_in_closed w1 _ Hclosed _ _ _ _ Hscan). }
  assert (node_list_to_node_name_list T w1 = (Val (name_at w1 <$> T), w1)) as Hnames.
  { apply node_list_to_node_name_list_run. eapply Forall_impl; [done |].
    intros r Hr. destruct (Hclosed _ Hr) as (n & -> & _). done. }
  assert (∀ k, k ∈ dict_keys d → ref_of d k ∈ T) as Hall.
  { intros k Hk. rewrite Hkeys in Hk. destruct (Hroot k Hk) as (r & Hr & Hnone & Hrk).
    rewrite <- Hkeys in Hr.
    destruct (built_root w1 d m Hb r Hr Hnone) as (n & Hn & Hinc).
    eapply topo_ok_closed; [done | | by eapply built_rtc].
    eapply Hroots; [| done | done].
    apply list_elem_of_fmap. exists (r, ref_of d r). split; [done |].
    by apply declared_elem. }
  exists (name_at w1 <$> T), w1. split; [| split].
  - unfold sorted_names. rewrite (bind_val _ _ _ _ _ Hrun1).
    by rewrite (bind_val _ _ _ _ _ Hsort).
  - apply NoDup_Permutation; [| done |].
    + apply NoDup_fmap_2_strong; [| by eapply topo_ok_NoDup].
      intros x y Hx Hy Hxy. rewrite Forall_forall in HT.
      apply HT, list_elem_of_fmap in Hx as ([kx x'] & -> & Hinx).
      apply HT, list_elem_of_fmap in Hy as ([ky y'] & -> & Hiny).
      simpl in *. unfold name_at in Hxy.
      rewrite (Hb _ _ Hinx), (Hb _ _ Hiny) in Hxy. simpl in Hxy. subst ky.
      pose proof (dict_get_NoDup _ _ _ Hndd Hinx).
      pose proof (dict_get_NoDup _ _ _ Hndd Hiny). congruence.
    + intros k. rewrite <- Hkeys. split.
      * intros (x & -> & Hx)%list_elem_of_fmap. rewrite Forall_forall in HT.
        apply HT, list_elem_of_fmap in Hx as ([kx x'] & -> & Hinx). simpl.
        unfold name_at. rewrite (Hb _ _ Hinx). simpl.
        apply list_elem_of_fmap. by exists (kx, x').
      * intros Hk. apply list_elem_of_fmap. exists (ref_of d k).
        split; [| by apply Hall]. symmetry. by eapply built_name_at.
  - intros a b Hab.
    destruct (name_edge_keys d m Hdecl Hkeys a b Hab) as [Ha Hbk].
    rewrite <- (built_name_at w1 d m Hb a Ha), <- (built_name_at w1 d m Hb b Hbk).
    apply before_fmap. eapply topo_ok_before; [done | by apply Hall |].
    apply (built_succ w1 d m Hb a); [by apply declared_elem |]. by exists b.
Qed.

(** A dictionary whose edges all go up along a ranking of the names has no
    cycle. *)
Lemma acyclic_by_rank m (rank : string → nat) :
  (∀ a b, name_edge m a b → rank a < rank b) → acyclic m.
Proof.
  intros Hrank k Hk.
  assert (∀ a b, tc (name_edge m) a b → rank a < rank b) as Htc.
  { induction 1 as [a b Hab | a x b Hax _ IH]; [by apply Hrank |].
    apply Hrank in Hax. lia. }
  apply Htc in Hk. lia.
Qed.

Lemma chain_edges a b :
  name_edge chain a b → (a = "A" ∧ b = "B") ∨ (a = "B" ∧ b = "C").
Proof.
  unfold name_edge. change (edges_of chain) with [("A", "B"); ("B", "C")].
  intros [[= -> ->] | [[= -> ->] | []%elem_of_nil]%elem_of_cons]%elem_of_cons; auto.
Qed.

Lemma chain_acyclic : acyclic chain.
Proof.
  apply (acyclic_by_rank chain
           (λ k, if decide (k = "A") then 0 else if decide (k = "B") then 1 else 2)).
  intros a b [[-> ->] | [-> ->]]%chain_edges; simpl; lia.
Qed.

Lemma chain_rooted : rooted chain.
Proof.
  intros k Hk. exists "A". split; [apply elem_of_cons; by left |]. split.
  - intros s [[_ [=]] | [_ [=]]]%chain_edges.
  - assert (name_edge chain "A" "B") as HAB by (apply elem_of_cons; by left).
    assert (name_edge chain "B" "C") as HBC
      by (apply elem_of_cons; right; apply elem_of_cons; by left).
    unfold chain, dict_keys in Hk. simpl in Hk.
    apply elem_of_cons in Hk as [-> | Hk]; [done |].
    apply elem_of_cons in Hk as [-> | Hk]; [by apply rtc_once |].
    apply elem_of_cons in Hk as [-> | Hk]; [| by apply elem_of_nil in Hk].
    eapply rtc_l; [done | by apply rtc_once].
Qed.

Lemma topological_sort_order_witness :
  (∃ l w', sorted_names chain empty_world = (Val l, w') ∧
           l ≡ₚ dict_keys chain ∧
           ∀ a b, name_edge chain a b → before l a b) ∧
  (sorted_names chain empty_world).1 = Val ["A"; "B"; "C"].
Proof.
  apply (topological_sort_order empty_world chain).
  - apply (bool_decide_unpack _). by vm_compute.
  - apply declared_intro. apply (bool_decide_unpack _). by vm_compute.
  - apply chain_acyclic.
  - apply chain_rooted.
Defined.

(** * Further properties of the module *)

(** ** The queries only read *)

Lemma read_only_ret {A} (a : A) : read_only (mret a).
Proof. done. Qed.

Lemma read_only_raise {A} e : read_only (@raise A e).
Proof. done. Qed.

Lemma read_only_bind {A B} (m : M A) (k : A → M B) :
  read_only m → (∀ a, read_only (k a)) → read_only (m ≫= k).
Proof.
  intros Hm Hk w. rewrite bind_run. specialize (Hm w).
  destruct (m w) as [[a | e] w']; simpl in *; subst w'; [apply Hk | done].
Qed.

Lemma read_only_get_world : read_only get_world.
Proof. done. Qed.

Lemma read_only_deref r : read_only (deref r).
Proof. intros w. unfold deref. by destruct (nodes w !! r). Qed.

Lemma read_only_deref_graph g : read_only (deref_graph g).
Proof. intros w. unfold deref_graph. by destruct (graphs w !! g). Qed.

Lemma read_only_foldM {A S} (body : S → A → M S) l s :
  (∀ s x, read_only (body s x)) → read_only (foldM body l s).
Proof.
  intros Hbody. revert s. induction l as [| x l IH]; intros s; simpl; [done |].
  apply read_only_bind; [done | by intros s'].
Qed.

Lemma read_only_mapM {A B} (f : A → M B) l :
  (∀ x, read_only (f x)) → read_only (mapM f l).
Proof.
  intros Hf. induction l as [| x l IH]; simpl; [done |].
  apply read_only_bind; [done | intros y].
  apply read_only_bind; [done | intros ys]. apply read_only_ret.
Qed.

Lemma read_only_for_each {A} (l : list A) body :
  (∀ x, read_only (body x)) → read_only (for_each l body).
Proof.
  intros Hbody. induction l as [| x l IH]; simpl; [done |].
  apply read_only_bind; [done | by intros _].
Qed.

Lemma read_only_node_name r : read_only (node_name r).
Proof.
  apply read_only_bind; [apply read_only_deref | intros; apply read_only_ret].
Qed.

Lemma read_only_has_incoming r : read_only (has_incoming r).
Proof.
  apply read_only_bind; [apply read_only_deref | intros; apply read_only_ret].
Qed.

Lemma read_only_get_iter_outgoing r : read_only (get_iter_outgoing r).
Proof.
  apply read_only_bind; [apply read_only_deref | intros; apply read_only_ret].
Qed.

Lemma read_only_get_outgoing_as_named_list r :
  read_only (get_outgoing_as_named_list r).
Proof.
  apply read_only_bind; [apply read_only_deref | intros n].
  apply read_only_mapM. intros e. apply read_only_node_name.
Qed.

Lemma read_only_find g k : read_only (find g k).
Proof.
  apply read_only_bind; [apply read_only_deref_graph | intros; apply read_only_ret].
Qed.

Lemma read_only_get_iter_nodes_values g : read_only (get_iter_nodes_values g).
Proof.
  apply read_only_bind; [apply read_only_deref_graph | intros; apply read_only_ret].
Qed.

Lemma read_only_as_dict g : read_only (as_dict g).
Proof.
  apply read_only_bind; [apply read_only_get_iter_nodes_values | intros vs].
  apply read_only_foldM. intros rval node.
  apply read_only_bind; [apply read_only_node_name | intros k].
  apply read_only_bind; [apply read_only_get_outgoing_as_named_list | intros v].
  apply read_only_ret.
Qed.

Lemma read_only_visit depth node st : read_only (visit depth node st).
Proof.
  revert node st. induction depth as [| depth IH]; intros node st; simpl.
  - apply read_only_raise.
  - destruct (bool_decide (node ∈ st.1)); [apply read_only_ret |].
    apply read_only_bind; [apply read_only_get_iter_outgoing | intros outs].
    apply read_only_bind; [| intros st'; apply read_only_ret].
    apply read_only_foldM. intros s onode. apply IH.
Qed.

Lemma read_only_topological_sort g : read_only (topological_sort g).
Proof.
  apply read_only_bind; [apply read_only_get_world | intros w0].
  apply read_only_bind; [apply read_only_get_iter_nodes_values | intros vs].
  apply read_only_bind; [| intros st; apply read_only_ret].
  apply read_only_foldM. intros s node.
  apply read_only_bind; [apply read_only_has_incoming | intros b].
  destruct (truthy b); [apply read_only_ret | apply read_only_visit].
Qed.

Lemma read_only_node_list_to_node_name_list l :
  read_only (node_list_to_node_name_list l).
Proof.
  apply read_only_foldM. intros acc node.
  apply read_only_bind; [apply read_only_node_name | intros; apply read_only_ret].
Qed.

(** X1: [find], [as_dict], [topological_sort], the methods of a node that
    read, and [node_list_to_node_name_list] leave the store exactly as it
    was, on every input and also when they raise: the sort keeps its
    marks in local lists and does not touch the nodes. *)
Theorem queries_read_only g k r l w :
  (find g k w).2 = w ∧
  (as_dict g w).2 = w ∧
  (topological_sort g w).2 = w ∧
  (has_incoming r w).2 = w ∧
  (get_iter_outgoing r w).2 = w ∧
  (get_outgoing_as_named_list r w).2 = w ∧
  (node_list_to_node_name_list l w).2 = w.
Proof.
  split; [apply read_only_find |]. split; [apply read_only_as_dict |].
  split; [apply read_only_topological_sort |]. split; [apply read_only_has_incoming |].
  split; [apply read_only_get_iter_outgoing |].
  split; [apply read_only_get_outgoing_as_named_list |].
  apply read_only_node_list_to_node_name_list.
Qed.

(** ** Registering and finding *)

Lemma dict_get_set_eq {V} (d : list (string * V)) k v :
  dict_get (dict_set d k v) k = Some v.
Proof.
  induction d as [| [k' v'] d IH]; simpl; [by rewrite decide_True |].
  destruct (decide (k' = k)) as [-> | Hne]; simpl.
  - by rewrite decide_True.
  - by rewrite decide_False.
Qed.

Lemma dict_get_set_ne {V} (d : list (string * V)) k k' v :
  k ≠ k' → dict_get (dict_set d k v) k' = dict_get d k'.
Proof.
  intros Hne. induction d as [| [k0 v0] d IH]; simpl; [by rewrite decide_False |].
  destruct (decide (k0 = k)) as [-> | Hne0]; simpl.
  - by rewrite !decide_False.
  - destruct (decide (k0 = k')); [done | apply IH].
Qed.

(** X2: registering a node whose name is free succeeds and touches no node
    object; afterwards [find] at the name of the node answers with that
    very object, [find] at any other name answers as before, and the node
    is the last one in the iteration over the nodes. *)
Theorem add_node_then_find w g d a na :
  graphs w !! g = Some d → nodes w !! a = Some na →
  Forall (λ r, is_Some (nodes w !! r)) (dict_values (named_nodes d)) →
  keyed_by_name w d →
  ¬ name_taken w d (get_name na) →
  ∃ w', add_node g a w = (Val (), w') ∧
        nodes w' = nodes w ∧
        find g (get_name na) w' = (Val (Some a), w') ∧
        (∀ k, k ≠ get_name na → find g k w' = (Val (dict_get (named_nodes d) k), w')) ∧
        get_iter_nodes_values g w'
        = (Val (dict_values (named_nodes d) ++ [a]), w').
Proof.
  intros Hg Ha Hvalid Hk Hfree.
  exists (registered_world w g d (get_name na) a).
  split; [by apply add_node_free |]. split; [done |].
  assert (graphs (registered_world w g d (get_name na) a) !! g
          = Some (mkDigraph (dict_set (named_nodes d) (get_name na) a))) as Hg'.
  { simpl. apply list_lookup_insert_eq. by eapply lookup_lt_Some. }
  split; [| split].
  - rewrite (find_run _ _ _ _ Hg'). simpl. by rewrite dict_get_set_eq.
  - intros k Hne. rewrite (find_run _ _ _ _ Hg'). simpl.
    by rewrite dict_get_set_ne.
  - rewrite (get_iter_nodes_values_run _ _ _ Hg'). simpl.
    rewrite dict_set_fresh; [unfold dict_values; by rewrite fmap_app |].
    by rewrite <- (name_taken_key _ _ _ Hk).
Qed.

Lemma add_node_then_find_witness :
  ∃ w', add_node 0 1 one_registered_world = (Val (), w') ∧
        find 0 "B" w' = (Val (Some 1), w') ∧
        find 0 "A" w' = (Val (Some 0), w') ∧
        get_iter_nodes_values 0 w' = (Val [0; 1], w').
Proof.
  destruct (add_node_then_find one_registered_world 0 (mkDigraph [("A", 0)]) 1
              (mkNode "B" [] []) eq_refl eq_refl)
    as (w' & Hrun & _ & HB & HA & Hvs).
  - repeat constructor. by eexists.
  - intros k r [[= -> ->] | []%elem_of_nil]%elem_of_cons. by eexists.
  - intros (r & n & Hr & Hn & Hname).
    apply elem_of_cons in Hr as [-> | []%elem_of_nil]. by injection Hn as <-.
  - exists w'. split; [done |]. split; [done |]. split; [| done].
    by apply (HA "A").
Defined.

(** X3: in a graph whose nodes are filed under their own names, [find]
    never raises: it answers with a registered node of the name asked for,
    or with [None] when no registered node has that name. *)
Theorem find_registered_or_None w g d k :
  graphs w !! g = Some d → keyed_by_name w d →
  (∃ r n, find g k w = (Val (Some r), w) ∧
          r ∈ dict_values (named_nodes d) ∧
          nodes w !! r = Some n ∧ get_name n = k) ∨
  (find g k w = (Val None, w) ∧ ¬ name_taken w d k).
Proof.
  intros Hg Hk. rewrite (find_run _ _ _ _ Hg).
  destruct (dict_get (named_nodes d) k) as [r |] eqn:Hr.
  - left. pose proof (dict_get_Some_elem _ _ _ Hr) as Hin.
    destruct (Hk _ _ Hin) as (n & Hn & Hname).
    exists r, n. split; [done |]. split; [| done].
    apply list_elem_of_fmap. by exists (k, r).
  - right. split; [done |]. rewrite (name_taken_key _ _ _ Hk).
    by apply dict_get_None.
Qed.

Lemma find_registered_or_None_witness :
  find 0 "A" one_registered_world = (Val (Some 0), one_registered_world) ∧
  find 0 "B" one_registered_world = (Val None, one_registered_world).
Proof.
  assert (keyed_by_name one_registered_world (mkDigraph [("A", 0)])) as Hk.
  { intros k r [[= -> ->] | []%elem_of_nil]%elem_of_cons. by eexists. }
  pose proof (find_registered_or_None one_registered_world 0
                (mkDigraph [("A", 0)]) "B" eq_refl Hk) as HB.
  split; [reflexivity |].
  destruct HB as [(r & n & Hrun & _) | [Hrun _]]; [| exact Hrun].
  vm_compute in Hrun. discriminate Hrun.
Defined.

(** ** What [create_edge] and the insertions of a node touch *)

(** X4: between two registered nodes [create_edge] returns and changes two
    lists only: the outgoing list of the source and the incoming list of
    the target grow by one edge; the names, the other two lists of the
    endpoints (when they are two nodes), every other node and every graph
    stay as they were. *)
Theorem create_edge_frame w g d a b weight na nb :
  graphs w !! g = Some d →
  nodes w !! a = Some na → nodes w !! b = Some nb →
  dict_get (named_nodes d) (get_name na) = Some a →
  dict_get (named_nodes d) (get_name nb) = Some b →
  ∃ w' na' nb',
    create_edge g a b weight w = (Val (), w') ∧
    graphs w' = graphs w ∧
    length (nodes w') = length (nodes w) ∧
    (∀ r, r ≠ a → r ≠ b → nodes w' !! r = nodes w !! r) ∧
    nodes w' !! a = Some na' ∧ nodes w' !! b = Some nb' ∧
    get_name na' = get_name na ∧ get_name nb' = get_name nb ∧
    length (outgoing na') = S (length (outgoing na)) ∧
    length (incoming nb') = S (length (incoming nb)) ∧
    (a ≠ b → incoming na' = incoming na ∧ outgoing nb' = outgoing nb).
Proof.
  intros Hg Ha Hb Hda Hdb.
  destruct (create_edge_ok w g d a b weight na nb Hg Ha Hb Hda Hdb)
    as (w' & Hrun & Hgr & Hlen & Hall).
  destruct (Hall _ _ Ha) as (na' & Ha' & Hna & Hoa & Hia).
  destruct (Hall _ _ Hb) as (nb' & Hb' & Hnb & Hob & Hib).
  rewrite decide_True in Hoa by done. rewrite decide_True in Hib by done.
  exists w', na', nb'. split; [done |]. split; [done |]. split; [done |].
  split; [| split; [done |]; split; [done |]; split; [done |]; split; [done |];
            split; [| split]].
  - intros r Hra Hrb. destruct (nodes w !! r) as [n |] eqn:Hn.
    + destruct (Hall _ _ Hn) as (n' & Hn' & Hname & Hout & Hin).
      rewrite decide_False in Hout by done. rewrite decide_False in Hin by done.
      rewrite Hn'. destruct n, n'. simpl in *. congruence.
    + apply lookup_ge_None in Hn. apply lookup_ge_None. lia.
  - apply insort_perm, Permutation_length in Hoa. by rewrite Hoa.
  - apply insort_perm, Permutation_length in Hib. by rewrite Hib.
  - intros Hne. rewrite decide_False in Hia by done.
    rewrite decide_False in Hob by done. done.
Qed.

Lemma create_edge_frame_witness :
  ∃ w' na' nb',
    create_edge 0 0 1 7 two_nodes_world = (Val (), w') ∧
    nodes w' !! 0 = Some na' ∧ nodes w' !! 1 = Some nb' ∧
    length (outgoing na') = 1 ∧ length (incoming nb') = 1 ∧
    incoming na' = [] ∧ outgoing nb' = [].
Proof.
  destruct (create_edge_frame two_nodes_world 0
              (mkDigraph [("A", 0); ("B", 1)]) 0 1 7
              (mkNode "A" [] []) (mkNode "B" [] [])
              eq_refl eq_refl eq_refl eq_refl eq_refl)
    as (w' & na' & nb' & Hrun & _ & _ & _ & Ha & Hb & _ & _ & Hlo & Hli & Hrest).
  destruct Hrest as [Hia Hob]; [done |].
  exists w', na', nb'. by repeat (split; [done |]).
Defined.

(** X5: the two insertions of a node do not look at the node they are
    given: on any node object [a], [add_outgoing] and [add_incoming]
    return for every reference [b], whether that node is in a graph or
    not, put the one new edge into the list, and keep a sorted list
    sorted. *)
Theorem add_edge_unchecked w a b weight na :
  nodes w !! a = Some na →
  ∃ lo li,
    add_outgoing a b weight w
    = (Val (), mkWorld (<[a := mkNode (get_name na) (incoming na) lo]> (nodes w))
                       (graphs w)) ∧
    lo ≡ₚ mkEdge b weight :: outgoing na ∧
    (weight_sorted (outgoing na) → weight_sorted lo) ∧
    add_incoming a b weight w
    = (Val (), mkWorld (<[a := mkNode (get_name na) li (outgoing na)]> (nodes w))
                       (graphs w)) ∧
    li ≡ₚ mkEdge b weight :: incoming na ∧
    (weight_sorted (incoming na) → weight_sorted li).
Proof.
  intros Ha.
  destruct (insort_total (outgoing na) (mkEdge b weight)) as (i & _ & Hlo).
  destruct (insort_total (incoming na) (mkEdge b weight)) as (j & _ & Hli).
  eexists _, _.
  split; [by apply (add_outgoing_run _ _ _ _ _ _ Ha Hlo) |].
  split; [by eapply insort_perm |].
  split; [intros Hs; by eapply insort_keeps_sorted |].
  split; [by apply (add_incoming_run _ _ _ _ _ _ Ha Hli) |].
  split; [by eapply insort_perm |].
  intros Hs. by eapply insort_keeps_sorted.
Qed.

Lemma add_edge_unchecked_witness :
  ∃ lo,
    add_outgoing 0 1 7 one_registered_world
    = (Val (), mkWorld (<[0 := mkNode "A" [] lo]> (nodes one_registered_world))
                       (graphs one_registered_world)) ∧
    lo ≡ₚ [mkEdge 1 7].
Proof.
  destruct (add_edge_unchecked one_registered_world 0 1 7 (mkNode "A" [] []) eq_refl)
    as (lo & li & Hrun & Hperm & _).
  by exists lo.
Defined.

(** ** The names of a list of nodes *)

(** X6: [node_list_to_node_name_list] returns the names of the nodes in
    the order of the nodes, one name for each node of the list, repeated
    nodes included. *)
Theorem node_names_in_order w (l : list nat) :
  Forall (λ r, is_Some (nodes w !! r)) l →
  ∃ names,
    node_list_to_node_name_list l w = (Val names, w) ∧
    length names = length l ∧
    ∀ i r n, l !! i = Some r → nodes w !! r = Some n →
             names !! i = Some (get_name n).
Proof.
  intros Hl. exists (name_at w <$> l).
  split; [by apply node_list_to_node_name_list_run |].
  split; [by rewrite length_fmap |].
  intros i r n Hi Hn. rewrite list_lookup_fmap, Hi. simpl.
  unfold name_at. by rewrite Hn.
Qed.

Lemma node_names_in_order_witness :
  ∃ names,
    node_list_to_node_name_list [1; 0; 1] one_registered_world
    = (Val names, one_registered_world) ∧
    length names = 3 ∧ names !! 0 = Some "B" ∧ names !! 1 = Some "A".
Proof.
  destruct (node_names_in_order one_registered_world [1; 0; 1])
    as (names & Hrun & Hlen & Hnth).
  { repeat constructor; by eexists. }
  exists names. split; [done |]. split; [done |].
  split; [by apply (Hnth 0 1 (mkNode "B" [] [])) | by apply (Hnth 1 0 (mkNode "A" [] []))].
Defined.

(** ** The graphs that calls can build *)

Lemma dict_set_keys_NoDup {V} (d : list (string * V)) k v :
  NoDup (dict_keys d) → NoDup (dict_keys (dict_set d k v)).
Proof.
  unfold dict_keys. induction d as [| [k' v'] d IH]; simpl.
  - intros _. apply NoDup_singleton.
  - intros [Hk' Hnd]%NoDup_cons. destruct (decide (k' = k)) as [-> | Hne]; simpl.
    + by apply NoDup_cons.
    + apply NoDup_cons. split; [| auto].
      intros ([k0 v0] & Hk0 & Hin)%list_elem_of_fmap. simpl in Hk0. subst k0.
      clear IH Hnd. induction d as [| [k1 v1] d IHd]; simpl in *.
      * apply list_elem_of_singleton in Hin. by injection Hin as ->.
      * apply not_elem_of_cons in Hk' as [Hk1 Hk'].
        destruct (decide (k1 = k)) as [-> | ?].
        -- apply elem_of_cons in Hin as [[= -> ->] | Hin]; [done |].
           apply Hk'. apply list_elem_of_fmap. by exists (k', v0).
        -- apply elem_of_cons in Hin as [[= -> ->] | Hin]; [done | auto].
Qed.

Lemma dict_set_elem {V} (d : list (string * V)) k v k' v' :
  (k', v') ∈ dict_set d k v → (k' = k ∧ v' = v) ∨ (k', v') ∈ d.
Proof.
  induction d as [| [k0 v0] d IH]; simpl.
  - intros [= -> ->]%list_elem_of_singleton. by left.
  - destruct (decide (k0 = k)) as [-> | Hne].
    + intros [[= -> ->] | Hin]%elem_of_cons; [by left |].
      right. apply elem_of_cons. by right.
    + intros [[= -> ->] | Hin]%elem_of_cons.
      * right. apply elem_of_cons. by left.
      * destruct (IH Hin) as [? | ?]; [by left |]. right. apply elem_of_cons. by right.
Qed.

(** A call of [add_node] either raises and leaves the store alone, or has
    found the graph and the node and has stored the node under its name. *)
Lemma add_node_cases w g a :
  (∃ e, add_node g a w = (Exn e, w)) ∨
  (∃ d na, graphs w !! g = Some d ∧ nodes w !! a = Some na ∧
           add_node g a w = (Val (), registered_world w g d (get_name na) a)).
Proof.
  unfold add_node.
  destruct (graphs w !! g) as [d |] eqn:Hg; cycle 1.
  { left. exists DanglingRef. apply bind_exn. unfold deref_graph. by rewrite Hg. }
  rewrite (bind_val _ _ _ _ _ (deref_graph_run _ _ _ Hg)), bind_run.
  match goal with
  | |- context [for_each ?l ?body w] =>
      assert (read_only (for_each l body)) as Hro;
      [| specialize (Hro w);
         destruct (for_each l body w) as [[[] | e] w1]; simpl in Hro; subst w1]
  end.
  { apply read_only_for_each. intros node.
    apply read_only_bind; [apply read_only_node_name | intros nn].
    apply read_only_bind; [apply read_only_node_name | intros an].
    destruct (decide (nn = an)); [apply read_only_raise | apply read_only_ret]. }
  - destruct (nodes w !! a) as [na |] eqn:Ha.
    + right. exists d, na. split; [done |]. split; [done |].
      rewrite (bind_val _ _ _ _ _ (node_name_run _ _ _ Ha)).
      by rewrite (bind_val _ _ _ _ _ (deref_graph_run _ _ _ Hg)).
    + left. exists DanglingRef. apply bind_exn.
      unfold node_name. apply bind_exn. unfold deref. by rewrite Ha.
  - left. by exists e.
Qed.

Lemma graph_ok_mono w w' d :
  (∀ r n, nodes w !! r = Some n → nodes w' !! r = Some n) →
  (∀ r n, nodes w' !! r = Some n →
          Forall (λ e, get_node e < length (nodes w')) (outgoing n)) →
  graph_ok w d → graph_ok w' d.
Proof.
  intros Hmono Hedges (Hnd & Hk & Hvs & _). split; [done |]. split; [| split; [| done]].
  - intros k r Hin. destruct (Hk _ _ Hin) as (n & Hn & Hname). eauto.
  - eapply Forall_impl; [done |]. intros r Hr. simpl in *.
    apply lookup_lt_is_Some in Hr as [n Hn]. eapply lookup_lt_Some. eauto.
Qed.

Lemma store_ok_new_digraph w :
  store_ok w → edges_closed w → store_ok (new_digraph w).2.
Proof.
  intros Hok Hes g d Hg. simpl in Hg.
  apply lookup_app_Some in Hg as [Hg | [_ Hg]].
  - destruct (Hok _ _ Hg) as (? & ? & ? & ?). by repeat split.
  - destruct (g - length (graphs w)) as [| i]; [| simpl in Hg; by rewrite lookup_nil in Hg].
    injection Hg as <-. split; [constructor |].
    split; [by intros ? ? ?%elem_of_nil |]. split; [constructor | done].
Qed.

Lemma edges_closed_new_node w name :
  edges_closed w → edges_closed (new_node name w).2.
Proof.
  intros Hes r n Hr. simpl in *. rewrite length_app. simpl.
  apply lookup_app_Some in Hr as [Hr | [_ Hr]].
  - eapply Forall_impl; [by eapply Hes |]. simpl. intros. lia.
  - destruct (r - length (nodes w)) as [| i]; [| simpl in Hr; by rewrite lookup_nil in Hr].
    injection Hr as <-. constructor.
Qed.

Lemma store_ok_new_node w name :
  store_ok w → edges_closed w → store_ok (new_node name w).2.
Proof.
  intros Hok Hes g d Hg. simpl in Hg.
  apply (graph_ok_mono w); [| by apply edges_closed_new_node | by eapply Hok].
  intros r n Hn. simpl. by apply lookup_app_l_Some.
Qed.

Lemma store_ok_registered w g d a na :
  store_ok w → graphs w !! g = Some d → nodes w !! a = Some na →
  store_ok (registered_world w g d (get_name na) a).
Proof.
  intros Hok Hg Ha g' d' Hg'. simpl in Hg'.
  destruct (decide (g' = g)) as [-> | Hne]; cycle 1.
  { rewrite list_lookup_insert_ne in Hg' by done. by apply (Hok g'). }
  rewrite list_lookup_insert_eq in Hg' by (by eapply lookup_lt_Some).
  injection Hg' as <-. destruct (Hok _ _ Hg) as (Hnd & Hk & Hvs & Hes).
  split; [by apply dict_set_keys_NoDup |]. split; [| split; [| done]]; simpl.
  - intros k r [[-> ->] | Hin]%dict_set_elem; [by exists na | by apply Hk].
  - apply Forall_forall. intros r ([k r'] & -> & Hin)%list_elem_of_fmap. simpl.
    apply dict_set_elem in Hin as [[-> ->] | Hin]; [by eapply lookup_lt_Some |].
    rewrite Forall_forall in Hvs. apply Hvs. apply list_elem_of_fmap. by exists (k, r').
Qed.

Lemma edges_closed_linked a b weight w w' :
  linked_world a b weight w w' → is_Some (nodes w !! b) →
  edges_closed w → edges_closed w'.
Proof.
  intros Hl [nb Hb] Hes r n' Hr.
  destruct (linked_world_lookup _ _ _ _ _ _ _ Hl Hr) as (n & Hn & _ & Hout & _).
  destruct Hl as (_ & -> & _). specialize (Hes _ _ Hn).
  destruct (decide (r = a)) as [-> | _].
  - apply insort_perm in Hout. rewrite Hout.
    constructor; [by eapply lookup_lt_Some | done].
  - by rewrite Hout.
Qed.

Lemma store_ok_linked a b weight w w' :
  linked_world a b weight w w' → is_Some (nodes w !! b) →
  edges_closed w → store_ok w → store_ok w'.
Proof.
  intros Hl Hb Hes Hok g d Hg.
  pose proof (edges_closed_linked _ _ _ _ _ Hl Hb Hes) as Hes'.
  destruct Hl as (Hgr & Hlen & Hall). rewrite Hgr in Hg.
  destruct (Hok _ _ Hg) as (Hnd & Hk & Hvs & _).
  split; [done |]. split; [| split; [by rewrite Hlen | done]].
  intros k r Hin. destruct (Hk _ _ Hin) as (n & Hn & Hname).
  destruct (Hall _ _ Hn) as (n' & Hn' & Hnn & _). exists n'. split; [done | congruence].
Qed.

Lemma run_ops_store_ok ops w log w' log' :
  store_ok w → edges_closed w → run_ops ops w log = (w', log') →
  store_ok w' ∧ edges_closed w'.
Proof.
  revert w log. induction ops as [| o ops IH]; intros w log Hok Hes; simpl.
  - by intros [= <- <-].
  - destruct o as [| name | g a | g a b weight]; simpl.
    + apply IH; [by apply store_ok_new_digraph | done].
    + apply IH; [by apply store_ok_new_node | by apply edges_closed_new_node].
    + destruct (add_node_cases w g a) as [[e ->] | (d & na & Hg & Ha & ->)].
      * by apply IH.
      * apply IH; [by apply store_ok_registered | done].
    + destruct (create_edge_cases w g a b weight) as [[e ->] | (w1 & -> & Hl & Ha & Hb)].
      * by apply IH.
      * apply IH; [by eapply store_ok_linked | by eapply edges_closed_linked].
Qed.

Lemma empty_world_ok : store_ok empty_world ∧ edges_closed empty_world.
Proof.
  split.
  - intros g d Hg. simpl in Hg. by rewrite lookup_nil in Hg.
  - intros r n Hr. simpl in Hr. by rewrite lookup_nil in Hr.
Qed.

(** X7: whatever calls have created graphs and nodes, registered nodes
    and created edges, in every graph no name is there twice, every node
    is filed under its own name, and every registered node and every
    target of an edge is a node object. *)
Theorem run_ops_well_formed ops w log g d :
  run_ops ops empty_world [] = (w, log) → graphs w !! g = Some d →
  NoDup (dict_keys (named_nodes d)) ∧ keyed_by_name w d ∧ world_closed w d.
Proof.
  intros Hrun Hg.
  destruct (run_ops_store_ok _ _ _ _ _ (proj1 empty_world_ok) (proj2 empty_world_ok) Hrun)
    as [Hok _].
  apply (Hok g d Hg).
Qed.

Lemma run_ops_well_formed_witness :
  NoDup (dict_keys [("A", 0); ("B", 1); ("C", 2)]) ∧
  keyed_by_name diamond_world (mkDigraph [("A", 0); ("B", 1); ("C", 2)]) ∧
  world_closed diamond_world (mkDigraph [("A", 0); ("B", 1); ("C", 2)]).
Proof.
  apply (run_ops_well_formed diamond_ops diamond_world diamond_log 0
           (mkDigraph [("A", 0); ("B", 1); ("C", 2)])); reflexivity.
Defined.

(** ** What the sort returns on any graph *)

Lemma covered_grow w V V' T :
  (∀ x, x ∈ V → x ∈ V') → covered w (V, T) → covered w (V', T).
Proof. intros Hsub Hc x y Hx Hxy. apply Hsub. by eapply Hc. Qed.

Lemma grown_all_finished st st' : grown st st' → all_finished st → all_finished st'.
Proof.
  intros (new & HT & HV & _) Hfin p. rewrite HT, HV, !elem_of_app.
  intros [? | ?]; [by left | right; auto].
Qed.

(** The main loop of the sort reads the store only and grows the lists. *)
Lemma root_scan_grown w d0 (vs : list nat) st st' w' :
  foldM (λ s node,
    b ← has_incoming node;
    if truthy b then mret s
    else visit d0 node s) vs st w = (Val st', w') →
  w' = w ∧ grown st st'.
Proof.
  revert st. induction vs as [| r vs IH]; intros st Hrun.
  - injection Hrun as <- <-. split; [done | apply grown_refl].
  - rewrite foldM_cons, bind_assoc, bind_run in Hrun.
    destruct (has_incoming r w) as [[b | e] w1] eqn:Hb; [| done].
    assert (w1 = w) as ->.
    { pose proof (read_only_has_incoming r w) as Hro. by rewrite Hb in Hro. }
    destruct (truthy b).
    + rewrite (bind_val _ _ _ _ _ (ret_run st w)) in Hrun. auto.
    + rewrite bind_run in Hrun.
      destruct (visit d0 r st w) as [[s1 | e] w1] eqn:Hv; [| done].
      destruct (visit_grown _ _ _ _ _ _ Hv) as (-> & Hg & _).
      destruct (IH _ Hrun) as (-> & Hg'). split; [done | by eapply grown_trans].
Qed.

Section visit_covered.
Variable w : World.

Lemma visit_all_covered depth :
  (∀ node st st', visit depth node st w = (Val st', w) →
     covered w st → covered w st') →
  ∀ outs st st', visit_all depth outs st w = (Val st', w) →
     covered w st → covered w st' ∧ ∀ o, o ∈ outs → o ∈ st'.1.
Proof.
  intros IH outs. induction outs as [| o outs IHo]; intros st st' Hrun Hc.
  - injection Hrun as <-. split; [done | by intros ? ?%elem_of_nil].
  - rewrite visit_all_cons, bind_run in Hrun.
    destruct (visit depth o st w) as [[s1 | e] w1] eqn:Hv; [| done].
    destruct (visit_grown _ _ _ _ _ _ Hv) as (-> & Hg1 & Ho1).
    destruct (visit_all_grown' _ _ _ _ _ _ Hrun) as (_ & Hg2).
    destruct (IHo s1 st' Hrun (IH _ _ _ Hv Hc)) as (Hc' & Houts).
    split; [done |]. intros o' [-> | Ho']%elem_of_cons; [by eapply grown_visited | auto].
Qed.

(** When a visit returns, every successor of a finished node has been
    visited. *)
Lemma visit_covered depth node st st' :
  visit depth node st w = (Val st', w) → covered w st → covered w st'.
Proof.
  revert node st st'. induction depth as [| depth IH];
    intros node [V T] st' Hrun Hc; [done |].
  rewrite visit_S in Hrun. case_bool_decide as Hin; [by injection Hrun as <- |].
  destruct (nodes w !! node) as [n |] eqn:Hn; cycle 1.
  { unfold get_iter_outgoing, deref in Hrun. rewrite !bind_run, Hn in Hrun. done. }
  rewrite (bind_val _ _ _ _ _ (get_iter_outgoing_run _ _ _ Hn)), bind_run in Hrun.
  destruct (visit_all depth (get_node <$> outgoing n) (V ++ [node], T) w)
    as [[[V2 T2] | e] w2] eqn:Hall; [| done].
  destruct (visit_all_grown' _ _ _ _ _ _ Hall) as (-> & Hg).
  injection Hrun as <-.
  destruct (visit_all_covered depth IH _ _ _ Hall) as (Hc2 & Houts).
  { eapply covered_grow; [| done]. intros x Hx. apply elem_of_app. by left. }
  intros x y [-> | Hx]%elem_of_cons Hxy; simpl in *.
  - destruct Hxy as (n' & Hn' & Hy). apply Houts. congruence.
  - by eapply Hc2.
Qed.

(** After the main loop every root is finished, and with every finished
    node its successors are. *)
Lemma root_scan_covered d0 (vs : list nat) st st' :
  foldM (λ s node,
    b ← has_incoming node;
    if truthy b then mret s
    else visit d0 node s) vs st w = (Val st', w) →
  covered w st → all_finished st →
  covered w st' ∧ all_finished st' ∧
  (∀ r n, r ∈ vs → nodes w !! r = Some n → incoming n = [] → r ∈ st'.2).
Proof.
  revert st. induction vs as [| r vs IH]; intros st Hrun Hc Hfin.
  - injection Hrun as <-. split; [done |]. split; [done | by intros ? ? ?%elem_of_nil].
  - rewrite foldM_cons, bind_assoc, bind_run in Hrun.
    destruct (nodes w !! r) as [n |] eqn:Hn; cycle 1.
    { unfold has_incoming, deref in Hrun. rewrite bind_run, Hn in Hrun. done. }
    rewrite (has_incoming_run _ _ _ Hn) in Hrun. unfold truthy in Hrun.
    case_bool_decide as Hinc.
    + rewrite (bind_val _ _ _ _ _ (ret_run st w)) in Hrun.
      destruct (IH st Hrun Hc Hfin) as (Hc' & Hfin' & Hroots).
      split; [done |]. split; [done |].
      intros r' n' [-> | Hr']%elem_of_cons Hn' Hinc'; [congruence | eauto].
    + rewrite bind_run in Hrun.
      destruct (visit d0 r st w) as [[s1 | e] w1] eqn:Hv; [| done].
      destruct (visit_grown _ _ _ _ _ _ Hv) as (-> & Hg1 & Hr1).
      destruct (root_scan_grown _ _ _ _ _ _ Hrun) as (_ & Hg2).
      pose proof (grown_all_finished _ _ Hg1 Hfin) as Hfin1.
      destruct (IH s1 Hrun (visit_covered _ _ _ _ Hv Hc) Hfin1) as (Hc' & Hfin' & Hroots).
      split; [done |]. split; [done |].
      intros r' n' [-> | Hr']%elem_of_cons Hn' Hinc'; [| eauto].
      eapply grown_tsort; [done |]. by apply Hfin1.
Qed.

(** The nodes that the main loop finishes lie in any closed set that
    holds the roots. *)
Lemma root_scan_from_roots (S : nat → Prop) d0 (vs : list nat) st st' :
  closed_under_edges w S →
  foldM (λ s node,
    b ← has_incoming node;
    if truthy b then mret s
    else visit d0 node s) vs st w = (Val st', w) →
  (∀ r n, r ∈ vs → nodes w !! r = Some n → incoming n = [] → S r) →
  Forall S st.2 → Forall S st'.2.
Proof.
  intros HS. revert st. induction vs as [| r vs IH]; intros st Hrun Hroots Hst.
  - by injection Hrun as <-.
  - rewrite foldM_cons, bind_assoc, bind_run in Hrun.
    destruct (nodes w !! r) as [n |] eqn:Hn; cycle 1.
    { unfold has_incoming, deref in Hrun. rewrite bind_run, Hn in Hrun. done. }
    rewrite (has_incoming_run _ _ _ Hn) in Hrun. unfold truthy in Hrun.
    assert (∀ r' n', r' ∈ vs → nodes w !! r' = Some n' → incoming n' = [] → S r')
      as Hroots' by (intros r' n' Hr'; apply Hroots; apply elem_of_cons; by right).
    case_bool_decide as Hinc.
    + rewrite (bind_val _ _ _ _ _ (ret_run st w)) in Hrun. eauto.
    + rewrite bind_run in Hrun.
      destruct (visit d0 r st w) as [[s1 | e] w1] eqn:Hv; [| done].
      destruct (visit_grown _ _ _ _ _ _ Hv) as (-> & _).
      apply (IH s1 Hrun Hroots').
      eapply (visit_in_closed w S HS); [done | | done].
      apply (Hroots r n); [apply elem_of_cons; by left | done | exact Hinc].
Qed.

End visit_covered.

Lemma reach_closed w d :
  world_closed w d → closed_under_edges w (reach w d).
Proof.
  intros [Hvs Hes] x (r & Hr & Hrx).
  assert (x < length (nodes w)) as Hx.
  { destruct Hr as [Hr _]. rewrite Forall_forall in Hvs. specialize (Hvs _ Hr).
    clear Hr. induction Hrx as [| r y x Hry _ IH]; [done |]. apply IH.
    destruct Hry as (n & Hn & Hy). apply list_elem_of_fmap in Hy as (e & -> & He).
    specialize (Hes _ _ Hn). rewrite Forall_forall in Hes. by apply Hes. }
  apply lookup_lt_is_Some in Hx as [n Hn]. exists n. split; [done |].
  apply Forall_forall. intros e He. exists r. split; [done |].
  eapply rtc_r; [done |]. exists n. split; [done |].
  apply list_elem_of_fmap. by exists e.
Qed.

(** X8: on a store whose references lead to node objects, with or without
    cycles, the sort returns exactly the nodes that can be reached along
    outgoing edges from a registered node without incoming edge; every
    other node is left out. *)
Theorem topological_sort_reachable w g d :
  graphs w !! g = Some d → world_closed w d →
  ∃ l, topological_sort g w = (Val l, w) ∧ ∀ x, x ∈ l ↔ reach w d x.
Proof.
  intros Hg Hc.
  destruct (root_scan_total w _ (dict_values (named_nodes d)) ([], [])
              (world_closed_under_edges _ _ Hc) (proj1 Hc)) as ([V T] & Hscan & _).
  exists T. split.
  { unfold topological_sort. rewrite (bind_val get_world _ w w w eq_refl).
    rewrite (bind_val _ _ _ _ _ (get_iter_nodes_values_run _ _ _ Hg)).
    by rewrite (bind_val _ _ _ _ _ Hscan). }
  destruct (root_scan_covered w (S (length (nodes w))) _ _ _ Hscan)
    as (Hcov & Hfin & Hroots).
  { by intros ? ? ?%elem_of_nil. }
  { by intros ? ?%elem_of_nil. }
  assert (Forall (reach w d) T) as Hsub.
  { apply (root_scan_from_roots w (reach w d) (S (length (nodes w))) _ _ _
             (reach_closed _ _ Hc) Hscan); [| constructor].
    intros r n Hr Hn Hinc. exists r. split; [| done]. split; [done | by exists n]. }
  rewrite Forall_forall in Hsub.
  change (covered w (V, T)) in Hcov. change (all_finished (V, T)) in Hfin.
  intros x. split; [by apply Hsub |].
  intros (r & (Hr & n & Hn & Hinc) & Hrx).
  assert (r ∈ T) as HrT by (by eapply Hroots).
  clear Hr Hn Hinc. induction Hrx as [| r y x Hry _ IH]; [done |].
  apply IH. apply Hfin. by eapply Hcov.
Qed.

(** The node [D] of the diamond is in no graph and is not returned. *)
Lemma topological_sort_reachable_witness :
  ∃ l, topological_sort 0 diamond_world = (Val l, diamond_world) ∧
       (∀ x, x ∈ l ↔ reach diamond_world (mkDigraph [("A", 0); ("B", 1); ("C", 2)]) x) ∧
       l = [0; 1; 2].
Proof.
  destruct (topological_sort_reachable diamond_world 0
              (mkDigraph [("A", 0); ("B", 1); ("C", 2)]) eq_refl)
    as (l & Hrun & Hl).
  { split; [repeat constructor |]. intros r n Hr.
    do 4 (destruct r as [| r]; [injection Hr as <-; repeat constructor |]). done. }
  exists l. split; [done |]. split; [done |].
  vm_compute in Hrun. by injection Hrun as <-.
Defined.

(** ** The sort and the export never raise on a graph built by calls *)

(** X9: on every graph that calls have built, the sort returns: it raises
    nothing, it returns node objects only, and none of them twice. *)
Theorem topological_sort_total_on_built ops w log g d :
  run_ops ops empty_world [] = (w, log) → graphs w !! g = Some d →
  ∃ l, topological_sort g w = (Val l, w) ∧ NoDup l ∧
       Forall (λ r, is_Some (nodes w !! r)) l.
Proof.
  intros Hrun Hg.
  destruct (run_ops_store_ok _ _ _ _ _ (proj1 empty_world_ok) (proj2 empty_world_ok) Hrun)
    as [Hok _].
  destruct (Hok g d Hg) as (_ & _ & Hc).
  pose proof (world_closed_under_edges _ _ Hc) as Hclosed.
  destruct (root_scan_total w _ (dict_values (named_nodes d)) ([], []) Hclosed (proj1 Hc))
    as ([V T] & Hscan & Hgr).
  exists T. split; [| split].
  - unfold topological_sort. rewrite (bind_val get_world _ w w w eq_refl).
    rewrite (bind_val _ _ _ _ _ (get_iter_nodes_values_run _ _ _ Hg)).
    by rewrite (bind_val _ _ _ _ _ Hscan).
  - apply (grown_tsort_ok _ _ Hgr). repeat split; try constructor.
    by intros x ?%elem_of_nil.
  - assert (Forall (λ r, r < length (nodes w)) T) as HT.
    { apply (root_scan_in_closed w _ Hclosed _ _ _ _ Hscan (proj1 Hc)). constructor. }
    eapply Forall_impl; [done |]. intros r Hr. by apply lookup_lt_is_Some.
Qed.

Lemma topological_sort_total_on_built_witness :
  ∃ l, topological_sort 0 diamond_world = (Val l, diamond_world) ∧ NoDup l ∧
       Forall (λ r, is_Some (nodes diamond_world !! r)) l.
Proof.
  apply (topological_sort_total_on_built diamond_ops diamond_world diamond_log 0
           (mkDigraph [("A", 0); ("B", 1); ("C", 2)])); reflexivity.
Defined.

Lemma world_closed_exportable w d : world_closed w d → exportable w d.
Proof.
  intros [_ Hes] k r n _ Hn. eapply Forall_impl; [by eapply Hes |].
  intros e He. by apply lookup_lt_is_Some.
Qed.

Lemma export_entry_keys w (d : list (string * nat)) :
  dict_keys (export_entry w <$> d) = dict_keys d.
Proof.
  unfold dict_keys. rewrite <- list_fmap_compose. by apply list_fmap_ext.
Qed.

(** X10: on every graph that calls have built, [as_dict] returns: its keys
    are the registered names in the order of registration, and under the
    name of a node stands the list of the names of the targets of its
    outgoing edges, in the order of the outgoing list. *)
Theorem as_dict_total_on_built ops w log g d :
  run_ops ops empty_world [] = (w, log) → graphs w !! g = Some d →
  ∃ m, as_dict g w = (Val m, w) ∧
       dict_keys m = dict_keys (named_nodes d) ∧
       ∀ k r n, (k, r) ∈ named_nodes d → nodes w !! r = Some n →
                dict_get m k = Some (names_in w (outgoing n)).
Proof.
  intros Hrun Hg.
  destruct (run_ops_store_ok _ _ _ _ _ (proj1 empty_world_ok) (proj2 empty_world_ok) Hrun)
    as [Hok _].
  destruct (Hok g d Hg) as (Hnd & Hk & Hc).
  exists (export_entry w <$> named_nodes d).
  split; [apply as_dict_run; auto using world_closed_exportable |].
  split; [apply export_entry_keys |].
  intros k r n Hin Hn. rewrite dict_get_export, (dict_get_NoDup _ _ _ Hnd Hin). simpl.
  unfold outgoing_of. by rewrite Hn.
Qed.

Lemma as_dict_total_on_built_witness :
  ∃ m, as_dict 0 diamond_world = (Val m, diamond_world) ∧
       dict_keys m = ["A"; "B"; "C"] ∧
       dict_get m "A" = Some ["C"; "B"].
Proof.
  destruct (as_dict_total_on_built diamond_ops diamond_world diamond_log 0
              (mkDigraph [("A", 0); ("B", 1); ("C", 2)]) eq_refl eq_refl)
    as (m & Hrun & Hkeys & Hget).
  exists m. split; [done |]. split; [done |].
  apply (Hget "A" 0 (mkNode "A" [] [mkEdge 2 0; mkEdge 1 5]));
    [apply elem_of_cons; by left | reflexivity].
Defined.

(** ** Outgoing and incoming edges mirror each other *)

Lemma out_history_elem log a b weight :
  mkEdge b weight ∈ out_history log a ↔ (a, b, weight) ∈ log.
Proof.
  unfold out_history. rewrite list_elem_of_omap. split.
  - intros ([[a' b'] z'] & Hin & He). destruct (decide (a' = a)) as [-> |]; [| done].
    by injection He as -> ->.
  - intros Hin. exists (a, b, weight). split; [done |]. by rewrite decide_True.
Qed.

Lemma in_history_elem log a b weight :
  mkEdge a weight ∈ in_history log b ↔ (a, b, weight) ∈ log.
Proof.
  unfold in_history. rewrite list_elem_of_omap. split.
  - intros ([[a' b'] z'] & Hin & He). destruct (decide (b' = b)) as [-> |]; [| done].
    by injection He as -> ->.
  - intros Hin. exists (a, b, weight). split; [done |]. by rewrite decide_True.
Qed.

Lemma tracked_same_nodes w w' log :
  nodes w' = nodes w → tracked w log → tracked w' log.
Proof. unfold tracked. by intros ->. Qed.

Lemma tracked_new_node w log name :
  tracked w log → tracked (new_node name w).2 log.
Proof.
  intros [Hlog Hall]. split; simpl.
  - intros a b weight Hin. rewrite length_app. simpl.
    destruct (Hlog a b weight Hin). lia.
  - intros r n Hr. apply lookup_app_Some in Hr as [Hr | [Hge Hr]]; [by apply Hall |].
    destruct (r - length (nodes w)) as [| k] eqn:Hk; simpl in Hr; [| by rewrite lookup_nil in Hr].
    injection Hr as <-. simpl.
    assert (r = length (nodes w)) as -> by lia.
    by destruct (history_fresh log (length (nodes w)) Hlog) as [-> ->].
Qed.

Lemma tracked_linked w w' log a b weight :
  tracked w log → linked_world a b weight w w' →
  is_Some (nodes w !! a) → is_Some (nodes w !! b) →
  tracked w' (log ++ [(a, b, weight)]).
Proof.
  intros [Hlog Hall] Hl [na Ha] [nb Hb]. split.
  - destruct Hl as (_ & -> & _). intros a' b' weight' Hin.
    apply elem_of_app in Hin as [Hin | Hin]; [by apply (Hlog a' b' weight') |].
    apply list_elem_of_singleton in Hin. injection Hin as -> -> ->.
    split; by eapply lookup_lt_Some.
  - intros r n' Hr.
    destruct (linked_world_lookup _ _ _ _ _ _ _ Hl Hr) as (n & Hn & _ & Hout & Hin).
    destruct (Hall _ _ Hn) as (Hpo & Hpi).
    rewrite out_history_snoc, in_history_snoc. split.
    + destruct (decide (r = a)) as [-> | Hne].
      * rewrite decide_True by done. apply insort_perm in Hout.
        by rewrite Hout, Hpo, Permutation_cons_append.
      * rewrite decide_False by done. by rewrite Hout, app_nil_r.
    + destruct (decide (r = b)) as [-> | Hne].
      * rewrite decide_True by done. apply insort_perm in Hin.
        by rewrite Hin, Hpi, Permutation_cons_append.
      * rewrite decide_False by done. by rewrite Hin, app_nil_r.
Qed.

Lemma run_ops_tracked ops w log w' log' :
  tracked w log → run_ops ops w log = (w', log') → tracked w' log'.
Proof.
  revert w log. induction ops as [| o ops IH]; intros w log Hinv; simpl.
  - by intros [= <- <-].
  - destruct o as [| name | g a | g a b weight]; simpl.
    + rewrite app_nil_r. apply IH. by eapply tracked_same_nodes.
    + rewrite app_nil_r. apply IH. by apply tracked_new_node.
    + pose proof (keeps_nodes_add_node g a w) as Hk.
      destruct (add_node g a w) as [[[] | e] w1]; simpl in Hk.
      * rewrite app_nil_r. apply IH. by eapply tracked_same_nodes.
      * apply IH. by eapply tracked_same_nodes.
    + destruct (create_edge_cases w g a b weight) as [[e ->] | (w1 & -> & Hl & Ha & Hb)].
      * by apply IH.
      * apply IH. by eapply tracked_linked.
Qed.

Lemma empty_world_tracked : tracked empty_world [].
Proof.
  split; [by intros ? ? ? ?%elem_of_nil |].
  intros r n Hr. simpl in Hr. by rewrite lookup_nil in Hr.
Qed.

(** X11: whatever calls have run, an edge to [b] of some weight is in the
    outgoing list of [a] exactly when the edge to [a] of that weight is in
    the incoming list of [b], and both lists hold it as often as
    [create_edge(a, b, weight)] has returned. *)
Theorem edges_mirrored ops w log a b weight na nb :
  run_ops ops empty_world [] = (w, log) →
  nodes w !! a = Some na → nodes w !! b = Some nb →
  (mkEdge b weight ∈ outgoing na ↔ mkEdge a weight ∈ incoming nb) ∧
  length (filter (λ e, e = mkEdge b weight) (outgoing na))
  = length (filter (λ e, e = mkEdge a weight) (incoming nb)) ∧
  length (filter (λ e, e = mkEdge b weight) (outgoing na))
  = length (filter (λ c, c = (a, b, weight)) log).
Proof.
  intros Hrun Ha Hb.
  destruct (run_ops_tracked _ _ _ _ _ empty_world_tracked Hrun) as [_ Hall].
  destruct (Hall _ _ Ha) as [Hpo _]. destruct (Hall _ _ Hb) as [_ Hpi].
  assert (length (filter (λ e, e = mkEdge b weight) (out_history log a))
          = length (filter (λ c, c = (a, b, weight)) log)) as Ho.
  { clear. unfold out_history. induction log as [| [[a' b'] z'] log IH]; [done |].
    simpl. destruct (decide (a' = a)) as [-> | Hne].
    - rewrite !filter_cons.
      destruct (decide (mkEdge b' z' = mkEdge b weight)) as [[= -> ->] | Hne].
      + rewrite decide_True by done. simpl. f_equal. exact IH.
      + rewrite decide_False by congruence. exact IH.
    - rewrite (filter_cons _ (a', b', z')), decide_False by congruence. exact IH. }
  assert (length (filter (λ e, e = mkEdge a weight) (in_history log b))
          = length (filter (λ c, c = (a, b, weight)) log)) as Hi.
  { clear. unfold in_history. induction log as [| [[a' b'] z'] log IH]; [done |].
    simpl. destruct (decide (b' = b)) as [-> | Hne].
    - rewrite !filter_cons.
      destruct (decide (mkEdge a' z' = mkEdge a weight)) as [[= -> ->] | Hne].
      + rewrite decide_True by done. simpl. f_equal. exact IH.
      + rewrite decide_False by congruence. exact IH.
    - rewrite (filter_cons _ (a', b', z')), decide_False by congruence. exact IH. }
  split; [| split].
  - by rewrite Hpo, Hpi, out_history_elem, in_history_elem.
  - by rewrite Hpo, Hpi, Ho, Hi.
  - by rewrite Hpo, Ho.
Qed.

Lemma edges_mirrored_witness :
  mkEdge 1 5 ∈ outgoing (mkNode "A" [] [mkEdge 2 0; mkEdge 1 5]) ↔
  mkEdge 0 5 ∈ incoming (mkNode "B" [mkEdge 0 5] [mkEdge 2 1]).
Proof.
  apply (edges_mirrored diamond_ops diamond_world diamond_log 0 1 5
           (mkNode "A" [] [mkEdge 2 0; mkEdge 1 5])
           (mkNode "B" [mkEdge 0 5] [mkEdge 2 1])); reflexivity.
Defined.

(** X12: whatever calls have run, the result of [has_incoming] on a node
    is true in a condition exactly when some node has an outgoing edge to
    that node, so the sort starts its visits at the nodes that no edge
    points to. *)
Theorem has_incoming_truthy_iff ops w log b nb :
  run_ops ops empty_world [] = (w, log) → nodes w !! b = Some nb →
  ∃ v, has_incoming b w = (Val v, w) ∧
       (truthy v = true ↔
        ∃ a na weight, nodes w !! a = Some na ∧ mkEdge b weight ∈ outgoing na).
Proof.
  intros Hrun Hb.
  destruct (run_ops_tracked _ _ _ _ _ empty_world_tracked Hrun) as [Hlog Hall].
  exists (PyEdgeList (incoming nb)). split; [by apply has_incoming_run |].
  destruct (Hall _ _ Hb) as [_ Hpi]. simpl. rewrite bool_decide_eq_true. split.
  - intros Hne. destruct (incoming nb) as [| [a weight] l] eqn:Hinc; [done |].
    assert (mkEdge a weight ∈ in_history log b) as Hin
      by (rewrite <- Hpi; apply elem_of_cons; by left).
    apply in_history_elem in Hin. destruct (Hlog _ _ _ Hin) as [Ha _].
    apply lookup_lt_is_Some in Ha as [na Ha]. exists a, na, weight.
    split; [done |]. destruct (Hall _ _ Ha) as [Hpo _].
    rewrite Hpo. by apply out_history_elem.
  - intros (a & na & weight & Ha & Hin) Hnil.
    destruct (Hall _ _ Ha) as [Hpo _]. rewrite Hpo in Hin.
    apply out_history_elem, in_history_elem in Hin.
    rewrite <- Hpi, Hnil in Hin. by apply elem_of_nil in Hin.
Qed.

Lemma has_incoming_truthy_iff_witness :
  ∃ v, has_incoming 0 diamond_world = (Val v, diamond_world) ∧ truthy v = false.
Proof.
  destruct (has_incoming_truthy_iff diamond_ops diamond_world diamond_log 0
              (mkNode "A" [] [mkEdge 2 0; mkEdge 1 5]) eq_refl eq_refl)
    as (v & Hrun & _).
  exists v. split; [done |]. vm_compute in Hrun. by injection Hrun as <-.
Defined.

(** ** The order of the sort on graphs with weights *)

Lemma acyclic_from_by_rank w (rank : nat → nat) node :
  (∀ u v, succ w u v → rank u < rank v) → acyclic_from w node.
Proof.
  intros Hrank x _ Hx.
  assert (∀ a b, tc (succ w) a b → rank a < rank b) as Htc.
  { induction 1 as [a b Hab | a y b Hay _ IH]; [by apply Hrank |].
    apply Hrank in Hay. lia. }
  apply Htc in Hx. lia.
Qed.

(** X13: on a graph whose references lead to node objects and in which no
    cycle can be reached from a registered node, whatever the weights of
    the edges, the sort returns a list in which every outgoing edge of a
    listed node leads to a node further behind in the list. *)
Theorem topological_sort_edges_forward w g d :
  graphs w !! g = Some d → world_closed w d →
  Forall (acyclic_from w) (dict_values (named_nodes d)) →
  ∃ l, topological_sort g w = (Val l, w) ∧
       ∀ u v, u ∈ l → succ w u v → before l u v.
Proof.
  intros Hg Hc Hacy.
  destruct (root_scan_total w _ (dict_values (named_nodes d)) ([], [])
              (world_closed_under_edges _ _ Hc) (proj1 Hc)) as ([V T] & Hscan & _).
  exists T. split.
  - unfold topological_sort. rewrite (bind_val get_world _ w w w eq_refl).
    rewrite (bind_val _ _ _ _ _ (get_iter_nodes_values_run _ _ _ Hg)).
    by rewrite (bind_val _ _ _ _ _ Hscan).
  - destruct (root_scan_topo w (dict_values (named_nodes d)) ([], []) (V, T) Hscan)
      as (Htopo & _).
    + repeat split; try constructor. by intros ? ?%elem_of_nil.
    + constructor.
    + by intros ? ?%elem_of_nil.
    + done.
    + intros u v Hu Huv. by eapply topo_ok_before.
Qed.

Lemma topological_sort_edges_forward_witness :
  ∃ l, topological_sort 0 diamond_world = (Val l, diamond_world) ∧
       (∀ u v, u ∈ l → succ diamond_world u v → before l u v) ∧
       l = [0; 1; 2].
Proof.
  destruct (topological_sort_edges_forward diamond_world 0
              (mkDigraph [("A", 0); ("B", 1); ("C", 2)]) eq_refl)
    as (l & Hrun & Hl).
  { split; [repeat constructor |]. intros r n Hr.
    do 4 (destruct r as [| r]; [injection Hr as <-; repeat constructor |]). done. }
  { apply Forall_forall. intros node _. apply (acyclic_from_by_rank _ id).
    intros u v (n & Hn & Hv). unfold id.
    do 4 (destruct u as [| u];
          [injection Hn as <-; simpl in Hv;
           repeat (apply elem_of_cons in Hv as [-> | Hv]; [lia |]);
           by apply elem_of_nil in Hv |]).
    done. }
  exists l. split; [done |]. split; [done |].
  vm_compute in Hrun. by injection Hrun as <-.
Defined.

(** ** What [create_from_dict] leaves behind *)

(** X14: when [create_from_dict] runs on an empty graph with a dictionary
    of unique keys and meets its first undeclared target [t], it raises
    the error for [t] and leaves the graph half built: every key has its
    registered node, the edges of the entries and targets before [t] are
    there, in their order, and no other edge is; the node objects that
    were there before are as they were. *)
Theorem create_from_dict_partial w g m m1 k o1 t o2 m2 :
  m = m1 ++ (k, o1 ++ t :: o2) :: m2 →
  graphs w !! g = Some (mkDigraph []) →
  NoDup (dict_keys m) →
  Forall (λ entry, Forall (λ x, x ∈ dict_keys m) entry.2) m1 →
  Forall (λ x, x ∈ dict_keys m) o1 →
  t ∉ dict_keys m →
  ∃ d w',
    create_from_dict g m new_node w = (Exn (not_specified t), w') ∧
    graphs w' = <[g := mkDigraph d]> (graphs w) ∧
    dict_keys d = dict_keys m ∧
    built w' d (edges_of m1 ++ ((λ x, (k, x)) <$> o1)) ∧
    ∀ r n, nodes w !! r = Some n → nodes w' !! r = Some n.
Proof.
  intros Hm Hg Hnd Hm1 Ho1 Ht.
  destruct (first_run_ok g (dict_keys m) w [] Hg) as (d & Hrun1 & Hkeys & Hb1 & Hnew).
  { done. }
  { by intros ? ? ?%elem_of_nil. }
  simpl in Hkeys.
  set (w1 := mkWorld (nodes w ++ ((λ k, mkNode k [] []) <$> dict_keys m))
                     (<[g := mkDigraph d]> (graphs w))) in *.
  assert (graphs w1 !! g = Some (mkDigraph d)) as Hg1.
  { simpl. apply list_lookup_insert_eq. by eapply lookup_lt_Some. }
  assert (NoDup (dict_keys d)) as Hndd by (by rewrite Hkeys).
  assert (∀ entry, entry ∈ m → entry.1 ∈ dict_keys d) as Hkey.
  { intros [k' outs'] Hin. rewrite Hkeys. apply list_elem_of_fmap. by eexists (_, _). }
  destruct (second_run_undeclared g d m1 k o1 t o2 m2 w1 Hg1 Hndd Hb1)
    as (w' & Hrun2 & (Hgr & _ & Hold) & Hb2).
  { apply Forall_forall. intros entry Hin. split.
    - apply Hkey. rewrite Hm. apply elem_of_app. by left.
    - rewrite Hkeys. by apply (proj1 (Forall_forall _ _) Hm1). }
  { apply (Hkey (k, o1 ++ t :: o2)). rewrite Hm. apply elem_of_app. right.
    apply elem_of_cons. by left. }
  { by rewrite Hkeys. }
  { by rewrite Hkeys. }
  exists d, w'. split; [| split; [done | split; [done | split; [done |]]]].
  - rewrite create_from_dict_unfold, (bind_val _ _ _ _ _ Hrun1). by rewrite Hm.
  - intros r n Hr. apply Hold.
    + simpl. by apply lookup_app_l_Some.
    + intros Hin. apply Hnew in Hin as [[]%elem_of_nil | Hge].
      apply lookup_lt_Some in Hr. lia.
Qed.

Lemma create_from_dict_partial_witness :
  ∃ d w',
    create_from_dict 0 gap_dict new_node one_graph_world
    = (Exn (not_specified "X"), w') ∧
    graphs w' = [mkDigraph d] ∧
    dict_keys d = ["A"; "B"; "C"] ∧
    built w' d [("A", "B")].
Proof.
  destruct (create_from_dict_partial one_graph_world 0 gap_dict
              [] "A" ["B"] "X" ["C"] [("B", []); ("C", [])] eq_refl eq_refl)
    as (d & w' & Hrun & Hgr & Hkeys & Hb & _).
  { apply (bool_decide_unpack _). by vm_compute. }
  { constructor. }
  { constructor; [| constructor]. apply (bool_decide_unpack _). by vm_compute. }
  { apply (bool_decide_unpack _). by vm_compute. }
  by exists d, w'.
Defined.

(** X15: for a dictionary of unique keys whose targets are all keys,
    [digraph_create_from_dict] returns a new graph object and leaves the
    graphs and the node objects that were there as they were; the graph
    has the keys of the dictionary, in their order, and under every key a
    new node object of that name, whose outgoing edges are the targets of
    the key's adjacency list, in the order of the list, and whose incoming
    edges are the sources of the edges to the key, in the order of the
    dictionary, all of weight 0. *)
Theorem digraph_create_from_dict_builds w m :
  NoDup (dict_keys m) → declared m →
  ∃ d w',
    digraph_create_from_dict m new_node w = (Val (length (graphs w)), w') ∧
    graphs w' = graphs w ++ [mkDigraph d] ∧
    dict_keys d = dict_keys m ∧
    (∀ r n, nodes w !! r = Some n → nodes w' !! r = Some n) ∧
    ∀ k outs, (k, outs) ∈ m →
      ∃ r, dict_get d k = Some r ∧ length (nodes w) ≤ r ∧
           nodes w' !! r
           = Some (mkNode k (zero_edge d <$> tails_into (edges_of m) k)
                            (zero_edge d <$> outs)).
Proof.
  intros Hnd Hdecl.
  destruct (digraph_create_ok w m Hnd Hdecl) as (d & w' & Hrun & Hgr & Hkeys & Hb & Hnew & Hold).
  exists d, w'. do 4 (split; [done |]).
  intros k outs Hin.
  assert (k ∈ dict_keys d) as Hk.
  { rewrite Hkeys. apply list_elem_of_fmap. by exists (k, outs). }
  destruct (proj2 (dict_get_is_Some _ _) Hk) as [r Hr].
  pose proof (dict_get_Some_elem _ _ _ Hr) as Hkr.
  exists r. split; [done |]. split.
  - apply Hnew. apply list_elem_of_fmap. by exists (k, r).
  - rewrite (Hb _ _ Hkr). by rewrite (heads_from_edges_of m k outs Hnd Hin).
Qed.

Lemma digraph_create_from_dict_builds_witness :
  ∃ d w',
    digraph_create_from_dict [("A", ["B"; "C"]); ("B", ["C"]); ("C", [])]
      new_node one_graph_world = (Val 1, w') ∧
    graphs w' = [mkDigraph []; mkDigraph d] ∧
    dict_keys d = ["A"; "B"; "C"] ∧
    ∃ r, dict_get d "C" = Some r ∧
         nodes w' !! r = Some (mkNode "C" [zero_edge d "A"; zero_edge d "B"] []).
Proof.
  destruct (digraph_create_from_dict_builds one_graph_world
              [("A", ["B"; "C"]); ("B", ["C"]); ("C", [])])
    as (d & w' & Hrun & Hgr & Hkeys & _ & Hall).
  { apply (bool_decide_unpack _). by vm_compute. }
  { intros k outs t Hin Ht.
    repeat (apply elem_of_cons in Hin as [[= -> ->] | Hin]);
      [| | | by apply elem_of_nil in Hin];
      repeat (apply elem_of_cons in Ht as [-> | Ht];
              [apply (bool_decide_unpack _); by vm_compute |]);
      by apply elem_of_nil in Ht. }
  destruct (Hall "C" []) as (r & Hr & _ & Hn).
  { apply (bool_decide_unpack _). by vm_compute. }
  exists d, w'. split; [done |]. split; [done |]. split; [done |]. by exists r.
Defined.

(** ** The comparisons of edges *)

(** X16: [Edge.__lt__] is a strict order that looks at the weight only,
    [Edge.__eq__] holds for the edges of the same weight to the same node
    only, and an edge below another is not equal to it; but the three do
    not cover all pairs: two edges are neither below one another nor
    equal exactly when they have the same weight and lead to different
    nodes. *)
Theorem Edge_comparisons x y z :
  Edge_lt x x = false ∧
  (Edge_lt x y = true → Edge_lt y z = true → Edge_lt x z = true) ∧
  (Edge_lt x y = true → Edge_lt y x = false ∧ Edge_eq x y = false) ∧
  (Edge_eq x y = true ↔ x = y) ∧
  (Edge_lt x y = false ∧ Edge_lt y x = false ∧ Edge_eq x y = false
   ↔ get_weight x = get_weight y ∧ get_node x ≠ get_node y).
Proof.
  destruct x as [nx wx], y as [ny wy], z as [nz wz]. unfold Edge_lt, Edge_eq. simpl.
  rewrite ?andb_true_iff, ?andb_false_iff, ?bool_decide_eq_true, ?bool_decide_eq_false.
  split; [lia |]. split; [lia |]. split; [| split].
  - intros H. split; [lia | left; lia].
  - split; [by intros [-> ->] | by intros [= -> ->]].
  - split.
    + intros (H1 & H2 & [H3 | H3]); [lia |]. split; [lia | done].
    + intros [-> Hne]. split; [lia |]. split; [lia | by right].
Qed.

(** ** The round trip of a graph with weights *)

Lemma names_in_agree w w' (l : list Edge) :
  Forall (λ e, nodes w' !! get_node e = nodes w !! get_node e) l →
  names_in w' l = names_in w l.
Proof.
  induction 1 as [| e l He _ IH]; [done |].
  change (names_in w' (e :: l))
    with (match get_name <$> nodes w' !! get_node e with
          | Some y => y :: names_in w' l
          | None => names_in w' l
          end).
  by rewrite He, IH.
Qed.

Lemma edges_inside_exportable w d :
  keyed_by_name w d → edges_inside w d → exportable w d.
Proof.
  intros Hk Hin k r n Hkr Hn. eapply Forall_impl; [by eapply Hin |].
  intros e ([k' r'] & -> & He)%list_elem_of_fmap.
  destruct (Hk _ _ He) as (n' & Hn' & _). by exists n'.
Qed.

Lemma export_declared w d :
  keyed_by_name w d → edges_inside w d →
  declared (export_entry w <$> named_nodes d).
Proof.
  intros Hk Hin k outs t ([k' r] & [= -> ->] & Hkr)%list_elem_of_fmap Ht.
  destruct (Hk _ _ Hkr) as (n & Hn & _). simpl in Ht.
  unfold outgoing_of in Ht. rewrite Hn in Ht. simpl in Ht.
  unfold names_in in Ht. apply list_elem_of_omap in Ht as (e & He & Hname).
  pose proof (proj1 (Forall_forall _ _) (Hin _ _ _ Hkr Hn) e He) as Hreg.
  apply list_elem_of_fmap in Hreg as ([k2 r2] & Hr2 & Hreg). simpl in Hr2.
  destruct (Hk _ _ Hreg) as (n2 & Hn2 & Hname2).
  rewrite Hr2, Hn2 in Hname. simpl in Hname. injection Hname as <-.
  rewrite export_entry_keys. apply list_elem_of_fmap. exists (k2, r2).
  by rewrite Hname2.
Qed.

(** X17: the round trip through [as_dict] needs no uniform weights: for
    every graph in which no name is there twice, every node is filed
    under its own name and every edge leads to a node of the graph, with
    edges of any weights, [as_dict] returns, and building a graph from
    the export and exporting that graph gives the export of the first
    graph again. *)
Theorem as_dict_round_trip_any_weights w g d :
  graphs w !! g = Some d →
  NoDup (dict_keys (named_nodes d)) → keyed_by_name w d → edges_inside w d →
  ∃ m w2, as_dict g w = (Val m, w) ∧ round_trip g w = (Val (m, m), w2).
Proof.
  intros Hg Hnd Hk Hin.
  pose proof (edges_inside_exportable _ _ Hk Hin) as Hex.
  set (m := export_entry w <$> named_nodes d).
  pose proof (as_dict_run w g d Hg Hnd Hk Hex) as Hexp. fold m in Hexp.
  assert (NoDup (dict_keys m)) as Hndm by (unfold m; by rewrite export_entry_keys).
  pose proof (export_declared _ _ Hk Hin) as Hdecl. fold m in Hdecl.
  destruct (digraph_create_ok w m Hndm Hdecl) as (d2 & w2 & Hrun2 & Hg2 & Hk2 & Hb2 & _ & Hold).
  assert (graphs w2 !! length (graphs w) = Some (mkDigraph d2)) as Hl2.
  { rewrite Hg2. by rewrite list_lookup_middle. }
  assert (graphs w2 !! g = Some d) as Hg'.
  { rewrite Hg2. by apply lookup_app_l_Some. }
  assert (keyed_by_name w2 d) as Hk'.
  { intros k r Hkr. destruct (Hk _ _ Hkr) as (n & Hn & Hname). exists n. auto. }
  assert (exportable w2 d) as Hex'.
  { intros k r n Hkr Hn. destruct (Hk _ _ Hkr) as (n0 & Hn0 & _).
    rewrite (Hold _ _ Hn0) in Hn. injection Hn as <-.
    eapply Forall_impl; [by eapply Hex |]. intros e [ne Hne]. exists ne. auto. }
  assert (export_entry w2 <$> named_nodes d = m) as Hsame.
  { unfold m. apply Forall_fmap_ext, Forall_forall. intros [k r] Hkr.
    destruct (Hk _ _ Hkr) as (n & Hn & _). unfold export_entry, outgoing_of. simpl.
    rewrite (Hold _ _ Hn), Hn. simpl. f_equal. apply names_in_agree.
    eapply Forall_impl; [by eapply Hex |]. intros e [ne Hne].
    by rewrite (Hold _ _ Hne). }
  exists m, w2. split; [done |]. unfold round_trip.
  rewrite (bind_val _ _ _ _ _ Hexp), (bind_val _ _ _ _ _ Hrun2).
  rewrite (bind_val _ _ _ _ _ (as_dict_built _ _ _ _ Hl2 Hndm Hdecl Hk2 Hb2)).
  rewrite (bind_val _ _ _ _ _ (as_dict_run w2 g d Hg' Hnd Hk' Hex')).
  by rewrite Hsame.
Qed.

Lemma as_dict_round_trip_any_weights_witness :
  ∃ m w2, as_dict 0 diamond_world = (Val m, diamond_world) ∧
          round_trip 0 diamond_world = (Val (m, m), w2) ∧
          m = [("A", ["C"; "B"]); ("B", ["C"]); ("C", [])].
Proof.
  destruct (as_dict_round_trip_any_weights diamond_world 0
              (mkDigraph [("A", 0); ("B", 1); ("C", 2)]) eq_refl)
    as (m & w2 & Hexp & Hrt).
  { apply (bool_decide_unpack _). by vm_compute. }
  { intros k r Hkr. simpl in Hkr.
    repeat (apply elem_of_cons in Hkr as [[= -> ->] | Hkr]; [by eexists |]).
    by apply elem_of_nil in Hkr. }
  { intros k r n Hkr Hn. simpl in Hkr.
    repeat (apply elem_of_cons in Hkr as [[= -> ->] | Hkr];
            [injection Hn as <-;
             repeat (constructor; [apply (bool_decide_unpack _); by vm_compute |]);
             constructor |]).
    by apply elem_of_nil in Hkr. }
  exists m, w2. split; [done |]. split; [done |].
  vm_compute in Hexp. by injection Hexp as <-.
Defined.
